(** * Path counting, path enumeration and vertex insertion on a weighted DAG

    A shallow embedding of the class [DAG] of
    [The Low Level Problem/prog.py] and the proofs of its properties.

    Python integers are unbounded, so vertices, weights and counters are [Z].
    The two [defaultdict]s and the plain [dict] of counters are finite maps,
    the vertex [set] is a finite set.  Exceptions are values of [result].

    The functions of the command line are embedded as well: the reading of
    an edge from a line of text, the reading of a graph from the standard
    input, and the report that is written for a graph. *)

From Stdlib Require Import ZArith List Lia Ascii.
From stdpp Require Import gmap list relations sorting strings pretty.

Local Open Scope Z_scope.

(** ** Exceptions *)

Inductive exn : Type :=
  | ValueError   (* raised by [_validate_dag] on a cycle, and by [max] of nothing *)
  | KeyError     (* a plain [dict] indexed by a key it does not hold *)
  | IndexError.  (* [pop] on an empty list *)

(** [OutOfFuel] stands for a loop or a recursion that has not finished within
    the steps it was given; the source has no bound on either. *)
Inductive result (A : Type) : Type :=
  | Ok (a : A)
  | Raise (e : exn)
  | OutOfFuel.

Arguments Ok {A} a.
Arguments Raise {A} e.
Arguments OutOfFuel {A}.

#[global] Instance result_ret : MRet result := λ A a, Ok a.

#[global] Instance result_bind : MBind result := λ A B f m,
  match m with
  | Ok a => f a
  | Raise e => Raise e
  | OutOfFuel => OutOfFuel
  end.

(** A [for] loop whose body may raise. *)
Fixpoint for_each {S A : Type} (body : S → A → result S) (l : list A) (s : S)
  : result S :=
  match l with
  | [] => Ok s
  | x :: l' => s' ← body s x; for_each body l' s'
  end.

(** ** Data *)

(** [Edge = Tuple[int, int, int]]: origin, destination, weight. *)
Definition Edge : Type := Z * Z * Z.

Definition e_from (e : Edge) : Z := e.1.1.
Definition e_to (e : Edge) : Z := e.1.2.
Definition e_weight (e : Edge) : Z := e.2.

(** [defaultdict(list)]: reading a missing key gives the empty list.  (Python
    also stores that empty list under the key; every read of the two
    adjacency maps goes through [dd_get], for which a stored empty list and a
    missing key are the same, so the maps are kept as [__init__] built them.) *)
Definition dd_get {V : Type} (d : gmap Z (list V)) (k : Z) : list V :=
  default [] (d !! k).

(** [d[k].append(x)] on a [defaultdict(list)]. *)
Definition dd_append {V : Type} (d : gmap Z (list V)) (k : Z) (x : V)
  : gmap Z (list V) :=
  <[k := dd_get d k ++ [x]]> d.

(** [defaultdict(int)] read, and [dict.get(k, 0)]. *)
Definition int_get (d : gmap Z Z) (k : Z) : Z := default 0 (d !! k).

(** [d[k]] on a plain [dict]. *)
Definition dict_get (d : gmap Z Z) (k : Z) : result Z :=
  match d !! k with
  | Some x => Ok x
  | None => Raise KeyError
  end.

Record DAG : Type := mkDAG {
  edges : list Edge;
  src : Z;
  adj : gmap Z (list (Z * Z));      (* u -> list[(v, w)] *)
  rev_adj : gmap Z (list (Z * Z));  (* v -> list[(u, w)] *)
  vertices : gset Z;
  topo : list Z
}.

(** The third component of the value returned by [propose_vprime_insertion]
    is a formatted text; the numbers it is formatted from are kept. *)
Inductive message : Type :=
  | Imposible (v total max_paths : Z)
  | Padres (vprime : Z) (chosen : list Z) (total max_paths : Z).

(** ** Text *)

(** A Python [str] is a Rocq [string] here, one character per code point;
    that covers the code points below 256.  Among those the decimal digits
    are "0" to "9", which is what [\d] and [int] accept there. *)
Definition py_isdigit (c : ascii) : bool :=
  (48 <=? Ascii.N_of_ascii c)%N && (Ascii.N_of_ascii c <=? 57)%N.

Definition digit_val (c : ascii) : Z := Z.of_N (Ascii.N_of_ascii c) - 48.

(** [str.isspace] on a code point below 256. *)
Definition py_isspace (c : ascii) : bool :=
  bool_decide (Ascii.N_of_ascii c ∈ [9; 10; 11; 12; 13; 28; 29; 30; 31; 32; 133; 160]%N).

(** The white space that [int] skips at both ends of its argument. *)
Definition int_isspace (c : ascii) : bool :=
  bool_decide (Ascii.N_of_ascii c ∈ [9; 10; 11; 12; 13; 32; 133; 160]%N).

Fixpoint lstrip_with (sp : ascii → bool) (s : string) : string :=
  match s with
  | EmptyString => EmptyString
  | String c s' => if sp c then lstrip_with sp s' else s
  end.

Fixpoint rstrip_with (sp : ascii → bool) (s : string) : string :=
  match s with
  | EmptyString => EmptyString
  | String c s' =>
    match rstrip_with sp s' with
    | EmptyString => if sp c then EmptyString else String c EmptyString
    | r => String c r
    end
  end.

(** [str.strip()] *)
Definition strip (s : string) : string :=
  rstrip_with py_isspace (lstrip_with py_isspace s).

(** [str(n)] for an integer, and an integer in an f-string: all its digits.
    (An interpreter may refuse a conversion of more than a given number of
    digits, 4300 unless set otherwise; see [short].) *)
Definition str_int (n : Z) : string := pretty n.

(** [re.findall(r'-?\d+', s)]: the matches are found from left to right, each
    as long as possible and starting as early as possible.  The scan keeps
    what it is in the middle of: nothing, a "-" just seen, or a number. *)
Inductive scan : Type :=
  | Idle
  | Minus
  | Num (tok : string).

Fixpoint findall (s : string) (st : scan) : list string :=
  match s with
  | EmptyString => match st with Num tok => [tok] | _ => [] end
  | String c s' =>
    if py_isdigit c then
      match st with
      | Idle => findall s' (Num (String c EmptyString))
      | Minus => findall s' (Num (String "-" (String c EmptyString)))
      | Num tok => findall s' (Num (tok +:+ String c EmptyString))
      end
    else
      let st' := if Ascii.eqb c "-" then Minus else Idle in
      match st with
      | Num tok => tok :: findall s' st'
      | _ => findall s' st'
      end
  end.

(** The digits of a decimal literal, with single underscores between them. *)
Fixpoint int_digits (s : string) (acc : Z) (after_digit : bool) : result Z :=
  match s with
  | EmptyString => if after_digit then Ok acc else Raise ValueError
  | String c s' =>
    if py_isdigit c then int_digits s' (10 * acc + digit_val c) true
    else if Ascii.eqb c "_" && after_digit then int_digits s' acc false
    else Raise ValueError
  end.

(** [int(s)] for a string: white space at both ends, a sign, and digits with
    single underscores between them.  (An interpreter may refuse a literal
    of more than a given number of digits, 4300 unless set otherwise; see
    [short].) *)
Definition py_int (s : string) : result Z :=
  match rstrip_with int_isspace (lstrip_with int_isspace s) with
  | EmptyString => Raise ValueError
  | String c r =>
    if Ascii.eqb c "-" then n ← int_digits r 0 false; Ok (- n)
    else if Ascii.eqb c "+" then int_digits r 0 false
    else int_digits (String c r) 0 false
  end.

(** ** [_parse_edge_line] *)

Definition parse_edge_line (line : string) : result Edge :=
  match findall line Idle with
  | [a; b; c] => u ← py_int a; v ← py_int b; w ← py_int c; Ok (u, v, w)
  | _ => Raise ValueError
  end.

(** ** Standard input and output *)

(** What [input()] finds next on the standard input: a line, without its
    end of line, or the end of the input.  Nothing follows the end of a file
    or of a pipe; on a terminal more lines may. *)
Inductive stdin_event : Type :=
  | Line (s : string)
  | Eof.

(** What the functions that read and write can raise: the exceptions of the
    class and of the conversions, and [EOFError] of [input]. *)
Inductive io_exn : Type :=
  | Exn (e : exn)
  | EOFError.

(** What is written, one constructor for each [print] of the source and one
    for the prompt of [input]; where a text is formatted from numbers, the
    numbers are kept, whatever their size. *)
Inductive printed : Type :=
  | Introduce_aristas        (* Introduce aristas (una por linea). ... *)
  | Deja_una_linea           (* Deja una linea en blanco para finalizar. *)
  | Source_vertex            (* the prompt of [input]: Source vertex: *)
  | Mas_alcanzable (source most_v n : Z)
      (* (1) Vertice mas alcanzable desde source: most_v con n caminos. *)
  | Caminos_a (most_v : Z)
      (* (2) Caminos a most_v ordenados por costo descendente: *)
  | Camino (nodes : list Z) (cost : Z)
      (* the nodes joined by ->, then | costo = cost *)
  | Error_3b (msg : message) (* (3.b) ERROR: msg *)
  | Insercion                (* (3) Insercion V' que satisface 3.a y 3.b: *)
  | Mensaje (msg : message)  (* msg *)
  | Nuevas_aristas           (* (5) Nuevas aristas (formato {u, v, w}): *)
  | Arista (e : Edge)        (* the line [arista_line e] *)
  | Error (e : io_exn).      (* Error: e *)

Record world : Type := mkWorld {
  stdin : list stdin_event;
  stdout : list printed
}.

(** How a computation that reads and writes ends; [Unfinished] is what
    [OutOfFuel] is for [result]. *)
Inductive outcome (A : Type) : Type :=
  | Done (a : A)
  | Failed (e : io_exn)
  | Unfinished.

Arguments Done {A} a.
Arguments Failed {A} e.
Arguments Unfinished {A}.

(** A computation that reads and writes.  What was read and written before
    an exception stays read and written. *)
Definition io (A : Type) : Type := world → outcome A * world.

#[global] Instance io_ret : MRet io := λ A a w, (Done a, w).

#[global] Instance io_bind : MBind io := λ A B f m w,
  match m w with
  | (Done a, w') => f a w'
  | (Failed e, w') => (Failed e, w')
  | (Unfinished, w') => (Unfinished, w')
  end.

Definition lift {A : Type} (r : result A) : io A := λ w,
  match r with
  | Ok a => (Done a, w)
  | Raise e => (Failed (Exn e), w)
  | OutOfFuel => (Unfinished, w)
  end.

Definition print (p : printed) : io unit := λ w,
  (Done (), mkWorld (stdin w) (stdout w ++ [p])).

(** [input()] *)
Definition input : io string := λ w,
  match stdin w with
  | Line s :: rest => (Done s, mkWorld rest (stdout w))
  | Eof :: rest => (Failed EOFError, mkWorld rest (stdout w))
  | [] => (Failed EOFError, w)
  end.

(** [try: body except Exception as e: handler]: every exception of the model
    is an [Exception]. *)
Definition try_except {A : Type} (body : io A) (handler : io_exn → io A)
  : io A := λ w,
  match body w with
  | (Failed e, w') => handler e w'
  | r => r
  end.

(** A [for] loop that only writes. *)
Fixpoint for_print {A : Type} (item : A → printed) (l : list A) : io unit :=
  match l with
  | [] => mret ()
  | x :: l' => print (item x);; for_print item l'
  end.

(** ** [leer_grafo_desde_stdin] *)

(** The [while True] loop.  Every turn that does not leave the loop takes a
    line from the input, so the loop is a recursion on the input; the
    result is the list [edges] and what is left of the input. *)
Fixpoint read_edges (inp : list stdin_event) (edges : list Edge)
  : result (list Edge) * list stdin_event :=
  match inp with
  | [] => (Ok edges, [])                  (* [except EOFError: break] *)
  | Eof :: rest => (Ok edges, rest)       (* [except EOFError: break] *)
  | Line s :: rest =>
    match strip s with
    | EmptyString => (Ok edges, rest)     (* [if not line: break] *)
    | line =>
      match parse_edge_line line with
      | Ok e => read_edges rest (edges ++ [e])
      | Raise x => (Raise x, rest)
      | OutOfFuel => (OutOfFuel, rest)
      end
    end
  end.

Definition leer_grafo_desde_stdin : io (list Edge * Z) :=
  print Introduce_aristas;;
  print Deja_una_linea;;
  edges ← (λ w, let '(r, rest) := read_edges (stdin w) [] in
                lift r (mkWorld rest (stdout w)));
  print Source_vertex;;
  s ← input;
  src ← lift (py_int (strip s));
  mret (edges, src).

(** ** Vocabulary for the text *)

(** Every character of [s] satisfies [P]. *)
Fixpoint sall (P : ascii → bool) (s : string) : bool :=
  match s with
  | EmptyString => true
  | String c s' => P c && sall P s'
  end.

(** The last character of [s] is "-". *)
Fixpoint ends_minus (s : string) : bool :=
  match s with
  | EmptyString => false
  | String c EmptyString => Ascii.eqb c "-"
  | String _ s' => ends_minus s'
  end.

(** Text that may stand before a number without changing how it is read:
    no digit in it, and no "-" at its end. *)
Definition separator (s : string) : bool :=
  sall (λ c, negb (py_isdigit c)) s && negb (ends_minus s).

(** What a scan that is in the middle of a match has matched so far. *)
Definition tok_of (st : scan) : string :=
  match st with
  | Idle => EmptyString
  | Minus => String "-" EmptyString
  | Num tok => tok
  end.

(** The match that ends when a scan meets a character that is no digit. *)
Definition emit (st : scan) : list string :=
  match st with
  | Num tok => [tok]
  | _ => []
  end.

(** The text of an edge in [solve_and_print]: [f"{{{u}, {v}, {w}}}"]. *)
Definition arista_text (e : Edge) : string :=
  "{" +:+ str_int e.1.1 +:+ ", " +:+ str_int e.1.2 +:+ ", " +:+ str_int e.2 +:+ "}".

(** The line that [print("   ", text)] writes, without its end of line. *)
Definition arista_line (e : Edge) : string := "   " +:+ " " +:+ arista_text e.

(** A run of digits with or without a "-" before it: what the pattern
    matches. *)
Definition numeral (t : string) : Prop :=
  ∃ sign digs, t = sign +:+ digs ∧ (sign = "" ∨ sign = "-") ∧
               digs ≠ "" ∧ sall py_isdigit digs = true.

(** [line] holds the three numbers of [e], in decimal, with text between
    them that has no digit and does not end in "-" where a number follows. *)
Definition written (line : string) (e : Edge) : Prop :=
  ∃ s0 s1 s2 s3,
    line = s0 +:+ str_int e.1.1 +:+ s1 +:+ str_int e.1.2 +:+ s2 +:+
           str_int e.2 +:+ s3 ∧
    separator s0 = true ∧
    separator s1 = true ∧ s1 ≠ "" ∧
    separator s2 = true ∧ s2 ≠ "" ∧
    sall (λ c, negb (py_isdigit c)) s3 = true.

(** A line of at most 4300 characters.  An interpreter that limits the
    digits of a conversion between [int] and [str] allows 4300 of them
    unless set otherwise, so that every number on such a line is read and
    written as [py_int] and [str_int] say. *)
Definition short (line : string) : Prop := (String.length line ≤ 4300)%nat.

(** What ends the lines of the edges: a line of white space only, or the end
    of the input. *)
Definition ends_edges (ev : stdin_event) : Prop :=
  match ev with
  | Line s => sall py_isspace s = true
  | Eof => True
  end.

(** ** Specification vocabulary *)

Definition sumZ (l : list Z) : Z := foldr Z.add 0 l.

(** There is an edge from [u] to [v]. *)
Definition edge_rel (E : list Edge) (u v : Z) : Prop := ∃ w, (u, v, w) ∈ E.

(** The directed graph of the edges has a cycle (a loop on one vertex is one). *)
Definition cyclic (E : list Edge) : Prop := ∃ v, tc (edge_rel E) v v.

(** [v] can be reached from [s] along edges. *)
Definition reachable (E : list Edge) (s v : Z) : Prop := rtc (edge_rel E) s v.

(** The edges that arrive at [v], each as often as the edge list has it. *)
Definition incoming (E : list Edge) (v : Z) : list Edge :=
  filter (λ e, e_to e = v) E.

(** The edges that leave [u], in the order of the edge list. *)
Definition outgoing (E : list Edge) (u : Z) : list Edge :=
  filter (λ e, e_from e = u) E.

(** [u] comes before [v] in the list [l]. *)
Definition precedes (l : list Z) (u v : Z) : Prop :=
  ∃ i j : nat, l !! i = Some u ∧ l !! j = Some v ∧ (i < j)%nat.

(** ** The graphs of the test suite *)

Definition enunciado : list Edge :=
  [(0, 1, 2); (0, 2, 4); (0, 4, -2); (0, 5, 1); (0, 6, 5); (2, 3, 3);
   (2, 4, 2); (3, 8, -4); (4, 3, 5); (4, 8, 1); (4, 7, 2); (5, 7, -1);
   (5, 8, -3); (6, 7, 6); (7, 8, 2)].

Definition caso_fail_3b : list Edge :=
  [(0, 1, 1); (0, 2, 1); (0, 3, 1); (1, 4, 1); (2, 4, 1); (3, 4, 1);
   (0, 4, 1)].

Definition ciclo : list Edge := [(0, 1, 1); (1, 0, 1)].

Section SetOrder.

(** The order in which Python iterates over a [set] is an implementation
    matter; it is a parameter here.  It lists every element once. *)
Variable set_iter : gset Z → list Z.
Hypothesis set_iter_perm : ∀ s, set_iter s ≡ₚ elements s.

(** ** [DAG.__init__] *)

Definition add_edge
    (st : gmap Z (list (Z * Z)) * gmap Z (list (Z * Z)) * gset Z) (e : Edge)
  : gmap Z (list (Z * Z)) * gmap Z (list (Z * Z)) * gset Z :=
  let '(a, r, vs) := st in
  let '(u, v, w) := e in
  (dd_append a u (v, w), dd_append r v (u, w), {[v]} ∪ ({[u]} ∪ vs)).

Definition init_fields (es : list Edge) (source : Z)
  : gmap Z (list (Z * Z)) * gmap Z (list (Z * Z)) * gset Z :=
  let '(a, r, vs) := fold_left add_edge es (∅, ∅, ∅) in
  (a, r, if decide (source ∈ vs) then vs else {[source]} ∪ vs).

(** ** [DAG._validate_dag] *)

Definition indeg_zero (vs : gset Z) : gmap Z Z :=
  fold_left (λ d v, <[v := 0]> d) (set_iter vs) ∅.

Definition indeg_count (es : list Edge) (d : gmap Z Z) : gmap Z Z :=
  fold_left (λ d e, <[e_to e := int_get d (e_to e) + 1]> d) es d.

(** The body of [for v, _ in self.adj[u]] in the [while] loop. *)
Definition relax (st : gmap Z Z * list Z) (vw : Z * Z) : gmap Z Z * list Z :=
  let '(indeg, q) := st in
  let v := vw.1 in
  let indeg' := <[v := int_get indeg v - 1]> indeg in
  if decide (int_get indeg' v = 0) then (indeg', q ++ [v]) else (indeg', q).

(** The [while q] loop; [fuel] bounds its iterations. *)
Fixpoint kahn_loop (fuel : nat) (a : gmap Z (list (Z * Z)))
    (indeg : gmap Z Z) (q : list Z) (tp : list Z) : result (list Z) :=
  match q with
  | [] => Ok tp
  | u :: q' =>
    match fuel with
    | O => OutOfFuel
    | S fuel' =>
      let '(indeg', q'') := fold_left relax (dd_get a u) (indeg, q') in
      kahn_loop fuel' a indeg' q'' (tp ++ [u])
    end
  end.

Definition validate_dag (fuel : nat) (es : list Edge)
    (a : gmap Z (list (Z * Z))) (vs : gset Z) : result (list Z) :=
  let indeg := indeg_count es (indeg_zero vs) in
  let q := filter (λ v, int_get indeg v = 0) (set_iter vs) in
  tp ← kahn_loop fuel a indeg q [];
  if decide (length tp ≠ size vs) then Raise ValueError else Ok tp.

(** The constructor.  The [while] loop of [_validate_dag] is given one step
    per vertex (see [kahn_loop_total]: it never needs more). *)
Definition new_DAG (es : list Edge) (source : Z) : result DAG :=
  let '(a, r, vs) := init_fields es source in
  tp ← validate_dag (size vs) es a vs;
  Ok (mkDAG es source a r vs tp).

(** The graph the constructor returns, for edges without a cycle. *)
Definition the_DAG (es : list Edge) (source : Z) : DAG :=
  match new_DAG es source with
  | Ok g => g
  | _ => mkDAG es source ∅ ∅ ∅ []
  end.

(** ** [DAG.path_counts] *)

(** [cnt[v] += cnt[u]] *)
Definition cnt_add (u : Z) (cnt : gmap Z Z) (vw : Z * Z) : result (gmap Z Z) :=
  cv ← dict_get cnt vw.1;
  cu ← dict_get cnt u;
  Ok (<[vw.1 := cv + cu]> cnt).

Definition path_counts (g : DAG) : result (gmap Z Z) :=
  let cnt := fold_left (λ d v, <[v := 0]> d) (set_iter (vertices g)) ∅ in
  let cnt := <[src g := 1]> cnt in
  for_each (λ cnt u, for_each (cnt_add u) (dd_get (adj g) u) cnt) (topo g) cnt.

(** ** [DAG.enumerate_paths] *)

(** [path.pop()] *)
Definition pop (path : list Z) : result (list Z) :=
  match path with
  | [] => Raise IndexError
  | _ => Ok (removelast path)
  end.

(** The inner function [dfs].  Its state is the pair of the two lists it
    mutates, [res] and [path]; [fuel] bounds the depth of the recursion (the
    limit the interpreter itself puts on that depth is not modelled). *)
Fixpoint dfs (fuel : nat) (g : DAG) (target : Z) (u : Z) (cost : Z)
    (st : list (list Z * Z) * list Z) : result (list (list Z * Z) * list Z) :=
  match fuel with
  | O => OutOfFuel
  | S fuel' =>
    if decide (u = target) then Ok (st.1 ++ [(st.2, cost)], st.2)
    else
      for_each (λ st vw,
          st' ← dfs fuel' g target vw.1 (cost + vw.2) (st.1, st.2 ++ [vw.1]);
          path' ← pop st'.2;
          Ok (st'.1, path'))
        (dd_get (adj g) u) st
  end.

Definition enumerate_paths (fuel : nat) (g : DAG) (target : Z)
  : result (list (list Z * Z)) :=
  st ← dfs fuel g target (src g) 0 ([], [src g]);
  Ok st.1.

(** ** [DAG.neighbors_of] *)

Definition neighbors_of (g : DAG) (v : Z) : gset Z :=
  let S : gset Z := list_to_set (fst <$> dd_get (rev_adj g) v) in
  let S := S ∪ list_to_set (fst <$> dd_get (adj g) v) in
  if decide (v ∈ S) then S ∖ {[v]} else S.

(** ** [DAG.propose_vprime_insertion] *)

(** [list.sort(key=lambda x: x[1], reverse=True)]: by decreasing second
    component, elements with equal keys staying in their order (the sort is
    stable, also with [reverse=True]). *)
Fixpoint insert_desc (x : Z * Z) (l : list (Z * Z)) : list (Z * Z) :=
  match l with
  | [] => [x]
  | y :: l' => if decide (x.2 < y.2) then y :: insert_desc x l' else x :: l
  end.

Definition sort_desc (l : list (Z * Z)) : list (Z * Z) :=
  foldr insert_desc [] l.

(** The loop over the sorted candidates, with its [continue] and [break]. *)
Fixpoint choose (max_paths : Z) (cands : list (Z * Z)) (total : Z)
    (chosen : list Z) : Z * list Z :=
  match cands with
  | [] => (total, chosen)
  | (u, c) :: rest =>
    if decide (c ≤ 0) then choose max_paths rest total chosen
    else
      let chosen := chosen ++ [u] in
      let total := total + c in
      if decide (total > max_paths) then (total, chosen)
      else choose max_paths rest total chosen
  end.

(** [max] of an iterable. *)
Definition py_max (l : list Z) : result Z :=
  match l with
  | [] => Raise ValueError
  | x :: l' => Ok (fold_left Z.max l' x)
  end.

Definition propose_vprime_insertion (g : DAG) (v : Z) (weight_default : Z)
  : result (bool * list Edge * message) :=
  cnt ← path_counts g;
  let max_paths := int_get cnt v in
  let banned := neighbors_of g v in
  let candidates :=
    (λ u, (u, int_get cnt u)) <$>
      filter (λ u, u ∉ banned) (set_iter (vertices g)) in
  let candidates := sort_desc candidates in
  let '(total, chosen) := choose max_paths candidates 0 [] in
  if decide (total ≤ max_paths) then
    Ok (false, [], Imposible v total max_paths)
  else
    m ← py_max (set_iter (vertices g));
    let vprime := m + 1 in
    Ok (true, (λ u, (u, vprime, weight_default)) <$> chosen,
        Padres vprime chosen total max_paths).

(** ** Invariants of the loops *)

(** The adjacency list [__init__] stores for [u]. *)
Definition adj_list (E : list Edge) (u : Z) : list (Z * Z) :=
  (λ e, (e_to e, e_weight e)) <$> outgoing E u.

(** The edges into [v] whose origin has not been output yet. *)
Definition pending (E : list Edge) (tp : list Z) (v : Z) : list Edge :=
  filter (λ e, e_from e ∉ tp) (incoming E v).

(** Every edge into a vertex of [tp] starts earlier in [tp]. *)
Definition order_ok (E : list Edge) (tp : list Z) : Prop :=
  ∀ (j : nat) e, e ∈ E → tp !! j = Some (e_to e) →
    ∃ i : nat, (i < j)%nat ∧ tp !! i = Some (e_from e).

(** The state of Kahn's algorithm: [tp] is the order built so far, [q] the
    queue, [todo] what is left of the adjacency list being scanned. *)
Record kahn_inv (E : list Edge) (V : gset Z) (todo : list (Z * Z))
    (indeg : gmap Z Z) (q tp : list Z) : Prop := mk_kahn_inv {
  ki_nodup : NoDup (tp ++ q);
  ki_sub : ∀ x, x ∈ tp ++ q → x ∈ V;
  ki_indeg : ∀ v, int_get indeg v =
     Z.of_nat (length (pending E tp v) + length (filter (λ vw, vw.1 = v) todo));
  ki_zero : ∀ v, v ∈ V → (v ∈ tp ++ q ↔ int_get indeg v = 0);
  ki_order : order_ok E tp
}.

(** What a successfully constructed graph satisfies. *)
Record dag_ok (es : list Edge) (source : Z) (g : DAG) : Prop := mk_dag_ok {
  ok_edges : edges g = es;
  ok_src : src g = source;
  ok_adj : ∀ u, dd_get (adj g) u = adj_list es u;
  ok_rev_adj : ∀ v, dd_get (rev_adj g) v =
                    (λ e, (e_from e, e_weight e)) <$> incoming es v;
  ok_vertices : ∀ x, x ∈ vertices g ↔
                     x = source ∨ ∃ e, e ∈ es ∧ (x = e_from e ∨ x = e_to e);
  ok_topo_nodup : NoDup (topo g);
  ok_topo_elem : ∀ x, x ∈ topo g ↔ x ∈ vertices g;
  ok_topo_order : order_ok es (topo g);
  ok_acyclic : ¬ cyclic es
}.

(** [cnt[v] += cnt[u]] for the edge [e] from [u] to [v], both keys present. *)
Definition dp_step (c : gmap Z Z) (e : Edge) : gmap Z Z :=
  <[e_to e := int_get c (e_to e) + int_get c (e_from e)]> c.

(** The two nested loops of [path_counts] as one pass over a list of edges. *)
Definition dp (L : list Edge) (c : gmap Z Z) : gmap Z Z := fold_left dp_step L c.

(** The edges in the order [path_counts] visits them. *)
Definition sweep (E : list Edge) (tp : list Z) : list Edge :=
  tp ≫= outgoing E.

(** No edge arrives at a vertex once an edge leaving it has been used. *)
Fixpoint safe (L : list Edge) : Prop :=
  match L with
  | [] => True
  | e :: L' => (∀ e', e' ∈ L → e_to e' ≠ e_from e) ∧ safe L'
  end.

(** The base of the count: one path, the empty one, at the source. *)
Definition at_src (s v : Z) : Z := if decide (v = s) then 1 else 0.

(** How many entries [dfs] started at [u] adds to [res]. *)
Fixpoint npaths (fuel : nat) (E : list Edge) (target u : Z) : Z :=
  match fuel with
  | O => 0
  | S fuel' =>
    if decide (u = target) then 1
    else sumZ ((λ e, npaths fuel' E target (e_to e)) <$> outgoing E u)
  end.

(** Sorted by decreasing second component. *)
Definition desc (l : list (Z * Z)) : Prop :=
  StronglySorted (λ a b : Z * Z, b.2 ≤ a.2) l.

(** The candidates that the loop of [propose_vprime_insertion] does not skip. *)
Definition positive (cands : list (Z * Z)) : list (Z * Z) :=
  filter (λ x : Z * Z, 0 < x.2) cands.

(** On the graph of the statement, and for vertex 8, the candidates are 0, 1,
    2, 6 and 8, in the order of iteration of the vertex set; 8 has 10 paths
    and the others one each.  [enunciado_choice] is what the loop chooses for
    a given order, [enunciado_check] that it is 8 and one of the others. *)
Definition enunciado_choice (us : list Z) : Z * list Z :=
  choose 10 (sort_desc ((λ u, (u, if decide (u = 8) then 10 else 1)) <$> us)) 0 [].

Definition enunciado_check (us : list Z) : bool :=
  match enunciado_choice us with
  | (total, [a; b]) =>
    bool_decide (total = 11 ∧ a = 8 ∧ (b = 0 ∨ b = 1 ∨ b = 2 ∨ b = 6))
  | _ => false
  end.

(** A chain of edges of [E] that leads from [u] to [v]. *)
Inductive walk (E : list Edge) : Z → list Edge → Z → Prop :=
  | walk_nil u : walk E u [] u
  | walk_cons e chain v :
      e ∈ E → walk E (e_to e) chain v → walk E (e_from e) (e :: chain) v.

(** What [dfs] started at [u] records, without the prefix it was given: for
    each path to the target the vertices after [u] and the cost from [u],
    in the order of discovery. *)
Fixpoint suffixes (fuel : nat) (E : list Edge) (target u : Z)
  : list (list Z * Z) :=
  match fuel with
  | O => []
  | S fuel' =>
    if decide (u = target) then [([], 0)]
    else
      outgoing E u ≫= λ e,
        (λ pc, (e_to e :: pc.1, e_weight e + pc.2)) <$>
          suffixes fuel' E target (e_to e)
  end.

(** ** [solve_and_print] *)

(** [max(cnt.keys(), key=lambda x: cnt[x])]: the first of the keys with the
    greatest count; [best] is the key kept so far and [kbest] its count. *)
Fixpoint max_key_from (cnt : gmap Z Z) (best kbest : Z) (keys : list Z)
  : result Z :=
  match keys with
  | [] => Ok best
  | x :: keys' =>
    k ← dict_get cnt x;
    if decide (k > kbest) then max_key_from cnt x k keys'
    else max_key_from cnt best kbest keys'
  end.

Definition max_key (cnt : gmap Z Z) (keys : list Z) : result Z :=
  match keys with
  | [] => Raise ValueError
  | x :: keys' => k ← dict_get cnt x; max_key_from cnt x k keys'
  end.

(** [sorted(paths, key=lambda x: x[1], reverse=True)]: by decreasing cost,
    paths of equal cost staying in their order. *)
Fixpoint insert_path (x : list Z * Z) (l : list (list Z * Z))
  : list (list Z * Z) :=
  match l with
  | [] => [x]
  | y :: l' => if decide (x.2 < y.2) then y :: insert_path x l' else x :: l
  end.

Definition sorted_paths (l : list (list Z * Z)) : list (list Z * Z) :=
  foldr insert_path [] l.

(** The keys of the dictionary of counts come in the order in which they
    were inserted, which is the order in which [path_counts] iterated over
    the vertex set. *)
Definition solve_and_print (fuel : nat) (es : list Edge) (source : Z)
  : io unit :=
  g ← lift (new_DAG es source);
  cnt ← lift (path_counts g);
  most_v ← lift (max_key cnt (set_iter (vertices g)));
  n ← lift (dict_get cnt most_v);
  print (Mas_alcanzable source most_v n);;
  paths ← lift (enumerate_paths fuel g most_v);
  print (Caminos_a most_v);;
  for_print (λ pc, Camino pc.1 pc.2) (sorted_paths paths);;
  r ← lift (propose_vprime_insertion g most_v 0);
  let '(ok, new_edges, msg) := r in
  if (ok : bool) then
    print Insercion;;
    print (Mensaje msg);;
    print Nuevas_aristas;;
    for_print Arista new_edges
  else print (Error_3b msg).

(** ** [_funcion_primada] *)

Definition funcion_primada (fuel : nat) : io unit :=
  try_except
    (r ← leer_grafo_desde_stdin; solve_and_print fuel r.1 r.2)
    (λ e, print (Error e)).

(** The lines of the report that come after the paths. *)
Definition report_end (most_v n : Z) (tail : list printed) : Prop :=
  (∃ total, total ≤ n ∧ tail = [Error_3b (Imposible most_v total n)]) ∨
  (∃ vprime chosen total,
     n < total ∧ (2 ≤ length chosen)%nat ∧
     tail = [Insercion; Mensaje (Padres vprime chosen total n); Nuevas_aristas]
            ++ (Arista <$> ((λ u, (u, vprime, 0)) <$> chosen))).

(** ** Reading the maps *)

Lemma int_get_insert (d : gmap Z Z) k x k' :
  int_get (<[k := x]> d) k' = if decide (k = k') then x else int_get d k'.
Proof. unfold int_get. rewrite lookup_insert. by destruct (decide (k = k')). Qed.

Lemma dd_get_append {V : Type} (d : gmap Z (list V)) k x k' :
  dd_get (dd_append d k x) k' =
  if decide (k = k') then dd_get d k ++ [x] else dd_get d k'.
Proof.
  unfold dd_append, dd_get at 1. rewrite lookup_insert.
  by destruct (decide (k = k')).
Qed.

Lemma outgoing_cons e es u :
  outgoing (e :: es) u =
  if decide (e_from e = u) then e :: outgoing es u else outgoing es u.
Proof. unfold outgoing. rewrite filter_cons. by destruct (decide _). Qed.

Lemma incoming_cons e es v :
  incoming (e :: es) v =
  if decide (e_to e = v) then e :: incoming es v else incoming es v.
Proof. unfold incoming. rewrite filter_cons. by destruct (decide _). Qed.

Lemma elem_of_outgoing e es u : e ∈ outgoing es u ↔ e ∈ es ∧ e_from e = u.
Proof. unfold outgoing. rewrite list_elem_of_filter. tauto. Qed.

Lemma elem_of_incoming e es v : e ∈ incoming es v ↔ e ∈ es ∧ e_to e = v.
Proof. unfold incoming. rewrite list_elem_of_filter. tauto. Qed.

(** ** What [__init__] builds *)

Lemma fold_add_edge es : ∀ a r vs a' r' vs',
  fold_left add_edge es (a, r, vs) = (a', r', vs') →
  (∀ u, dd_get a' u =
        dd_get a u ++ ((λ e, (e_to e, e_weight e)) <$> outgoing es u)) ∧
  (∀ v, dd_get r' v =
        dd_get r v ++ ((λ e, (e_from e, e_weight e)) <$> incoming es v)) ∧
  (∀ x, x ∈ vs' ↔ x ∈ vs ∨ ∃ e, e ∈ es ∧ (x = e_from e ∨ x = e_to e)).
Proof.
  induction es as [|[[u0 v0] w0] es IH]; intros a r vs a' r' vs' Hf.
  - simpl in Hf. simplify_eq. split_and!; intros.
    + by rewrite app_nil_r.
    + by rewrite app_nil_r.
    + split; [auto|]. intros [?|(e & He & _)]; [done|]. by apply elem_of_nil in He.
  - simpl in Hf. apply IH in Hf as (Ha & Hr & Hv). split_and!.
    + intros u. rewrite Ha, dd_get_append, outgoing_cons. unfold e_from at 1; simpl.
      destruct (decide (u0 = u)); [|done]. subst.
      by rewrite fmap_cons, <- app_assoc.
    + intros v. rewrite Hr, dd_get_append, incoming_cons. unfold e_to at 1; simpl.
      destruct (decide (v0 = v)); [|done]. subst.
      by rewrite fmap_cons, <- app_assoc.
    + intros x. rewrite Hv. rewrite !elem_of_union, !elem_of_singleton.
      split.
      * intros [[->|[->|?]]|(e & He & Hx)].
        -- right. exists (u0, v0, w0). split; [left|by right].
        -- right. exists (u0, v0, w0). split; [left|by left].
        -- by left.
        -- right. exists e. split; [by right|done].
      * intros [?|(e & He & Hx)]; [by left; right; right|].
        apply elem_of_cons in He as [->|He].
        -- left. unfold e_from, e_to in Hx; simpl in Hx. destruct Hx; auto.
        -- right. eauto.
Qed.

(** The adjacency list of [u]: destination and weight of each edge leaving it. *)
Lemma init_fields_spec es source a r vs :
  init_fields es source = (a, r, vs) →
  (∀ u, dd_get a u = (λ e, (e_to e, e_weight e)) <$> outgoing es u) ∧
  (∀ v, dd_get r v = (λ e, (e_from e, e_weight e)) <$> incoming es v) ∧
  (∀ x, x ∈ vs ↔ x = source ∨ ∃ e, e ∈ es ∧ (x = e_from e ∨ x = e_to e)).
Proof.
  unfold init_fields.
  destruct (fold_left add_edge es (∅, ∅, ∅)) as [[a0 r0] vs0] eqn:Hf.
  intros ?; simplify_eq.
  apply fold_add_edge in Hf as (Ha & Hr & Hv).
  assert (Hv' : ∀ x, x ∈ vs0 ↔ ∃ e, e ∈ es ∧ (x = e_from e ∨ x = e_to e)).
  { intros x. rewrite Hv. split; [intros [H|H]; [|done]|by right].
    by apply not_elem_of_empty in H. }
  split_and!.
  - intros u. by rewrite Ha.
  - intros v. by rewrite Hr.
  - intros x. destruct (decide (source ∈ vs0)) as [Hs|Hs].
    + rewrite Hv'. split; [by right|]. intros [->|H]; [by apply Hv'|done].
    + by rewrite elem_of_union, elem_of_singleton, Hv'.
Qed.

(** ** Kahn's algorithm *)

Lemma set_iter_elem_of (vs : gset Z) x : x ∈ set_iter vs ↔ x ∈ vs.
Proof. by rewrite set_iter_perm, elem_of_elements. Qed.

Lemma set_iter_NoDup (vs : gset Z) : NoDup (set_iter vs).
Proof. rewrite set_iter_perm. apply NoDup_elements. Qed.

Lemma NoDup_length_le_size (l : list Z) (V : gset Z) :
  NoDup l → (∀ x, x ∈ l → x ∈ V) → (length l ≤ size V)%nat.
Proof.
  intros Hnd Hsub. apply (submseteq_length l (elements V)).
  apply NoDup_submseteq; [done|]. intros x Hx. by apply elem_of_elements, Hsub.
Qed.

Lemma NoDup_full (l : list Z) (V : gset Z) :
  NoDup l → (∀ x, x ∈ l → x ∈ V) → length l = size V → ∀ x, x ∈ V → x ∈ l.
Proof.
  intros Hnd Hsub Hlen x Hx.
  assert (Hp : l ≡ₚ elements V).
  { apply submseteq_length_Permutation.
    - apply NoDup_submseteq; [done|]. intros y Hy. by apply elem_of_elements, Hsub.
    - unfold size, set_size in Hlen; simpl in Hlen. lia. }
  rewrite Hp. by apply elem_of_elements.
Qed.

Lemma fold_zero_get (l : list Z) : ∀ d v,
  int_get d v = 0 → int_get (fold_left (λ d v, <[v := 0]> d) l d) v = 0.
Proof.
  induction l as [|x l IH]; intros d v Hd; simpl; [done|].
  apply IH. rewrite int_get_insert. by destruct (decide _).
Qed.

Lemma indeg_count_get es : ∀ d v,
  int_get (indeg_count es d) v = int_get d v + Z.of_nat (length (incoming es v)).
Proof.
  unfold indeg_count.
  induction es as [|e es IH]; intros d v; simpl; [lia|].
  rewrite IH, int_get_insert, incoming_cons.
  destruct (decide (e_to e = v)) as [->|]; simpl; lia.
Qed.

Lemma filter_all {A : Type} (P : A → Prop) `{∀ x, Decision (P x)} (l : list A) :
  (∀ x, x ∈ l → P x) → filter P l = l.
Proof.
  induction l as [|x l IH]; intros Hall; [done|].
  rewrite filter_cons_True by (apply Hall; left).
  f_equal. apply IH. intros y Hy. apply Hall. by right.
Qed.

Lemma pending_nil E v : pending E [] v = incoming E v.
Proof.
  unfold pending. apply filter_all. intros e _ He. by apply elem_of_nil in He.
Qed.

(** Moving [u] into the order takes the edges leaving [u] out of [pending]. *)
Lemma pending_snoc_length (l : list Edge) tp u :
  u ∉ tp →
  length (filter (λ e, e_from e ∉ tp) l) =
  (length (filter (λ e, e_from e ∉ tp ++ [u]) l) +
   length (filter (λ e, e_from e = u) l))%nat.
Proof.
  intros Hu. induction l as [|e l IH]; [done|].
  rewrite !filter_cons.
  destruct (decide (e_from e = u)) as [Heq|Hne].
  - rewrite decide_True by (by rewrite Heq).
    rewrite decide_False; [simpl; lia|].
    intros Hn. apply Hn, elem_of_app. right. rewrite Heq. left.
  - destruct (decide (e_from e ∉ tp)) as [Hin|Hin].
    + rewrite decide_True; [simpl; lia|].
      intros [?|Hx%list_elem_of_singleton]%elem_of_app; done.
    + rewrite decide_False; [simpl; lia|].
      intros Hn. apply Hin. intros ?. apply Hn, elem_of_app. by left.
Qed.

(** The edges from [u] to [v], counted at [v] and counted at [u]. *)
Lemma count_edges_between E u v :
  length (filter (λ e, e_from e = u) (incoming E v)) =
  length (filter (λ vw : Z * Z, vw.1 = v) (adj_list E u)).
Proof.
  unfold adj_list.
  induction E as [|e E IH]; [done|].
  rewrite incoming_cons, outgoing_cons.
  destruct (decide (e_to e = v)) as [Hv|Hv], (decide (e_from e = u)) as [Hu|Hu];
    rewrite ?fmap_cons, ?filter_cons; simpl;
    rewrite ?decide_True by done; rewrite ?decide_False by done; simpl; lia.
Qed.

Lemma kahn_inv_init (E : list Edge) (V : gset Z) :
  let indeg := indeg_count E (indeg_zero V) in
  kahn_inv E V [] indeg (filter (λ v, int_get indeg v = 0) (set_iter V)) [].
Proof.
  intros indeg. split; simpl.
  - apply NoDup_filter, set_iter_NoDup.
  - intros x [_ Hx]%list_elem_of_filter. by apply set_iter_elem_of.
  - intros v. unfold indeg. rewrite indeg_count_get, pending_nil.
    unfold indeg_zero. rewrite fold_zero_get by done. lia.
  - intros v Hv. rewrite list_elem_of_filter, set_iter_elem_of. tauto.
  - intros j e _ Hj. by rewrite lookup_nil in Hj.
Qed.

Lemma kahn_inv_relax E V vw todo indeg q tp indeg' q' :
  kahn_inv E V (vw :: todo) indeg q tp →
  vw.1 ∈ V →
  relax (indeg, q) vw = (indeg', q') →
  kahn_inv E V todo indeg' q' tp.
Proof.
  destruct vw as [v w]. simpl.
  intros [Hnd Hsub Hin Hz Hord] HvV Hr.
  assert (Hpos : 1 ≤ int_get indeg v).
  { rewrite Hin, filter_cons_True by done. simpl. lia. }
  assert (Hnotin : v ∉ tp ++ q).
  { intros Hv. apply Hz in Hv; [lia|done]. }
  assert (Hget : ∀ x, int_get (<[v := int_get indeg v - 1]> indeg) x =
                 Z.of_nat (length (pending E tp x) +
                           length (filter (λ vw : Z * Z, vw.1 = x) todo))).
  { intros x. rewrite int_get_insert.
    generalize (Hin x). rewrite filter_cons. simpl.
    destruct (decide (v = x)) as [Heq|Hne]; [|done].
    subst x. intros _. rewrite Hin, filter_cons_True by done. simpl. lia. }
  unfold relax in Hr. simpl in Hr.
  destruct (decide (int_get (<[v := int_get indeg v - 1]> indeg) v = 0))
    as [H0|H0]; simplify_eq.
  - split; [| |done| |done].
    + rewrite app_assoc. apply NoDup_app. split_and!; [done| |apply NoDup_singleton].
      intros x Hx ->%list_elem_of_singleton. done.
    + intros x. rewrite app_assoc, elem_of_app, list_elem_of_singleton.
      intros [?| ->]; auto.
    + intros x Hx. rewrite app_assoc, elem_of_app, list_elem_of_singleton.
      rewrite int_get_insert. destruct (decide (v = x)) as [->|Hne].
      * rewrite int_get_insert, decide_True in H0 by done. split; auto.
      * rewrite <- (Hz x Hx). split; [intros [?|?]; [done|congruence]|auto].
  - split; [done|done|done| |done].
    intros x Hx. rewrite int_get_insert. destruct (decide (v = x)) as [->|Hne].
    + rewrite int_get_insert, decide_True in H0 by done. tauto.
    + by apply Hz.
Qed.

Lemma kahn_inv_scan E V todo : ∀ indeg q tp indeg' q',
  kahn_inv E V todo indeg q tp →
  (∀ vw, vw ∈ todo → vw.1 ∈ V) →
  fold_left relax todo (indeg, q) = (indeg', q') →
  kahn_inv E V [] indeg' q' tp.
Proof.
  induction todo as [|vw todo IH]; intros indeg q tp indeg' q' Hinv HV Hf.
  - simpl in Hf. by simplify_eq.
  - cbn [fold_left] in Hf. destruct (relax (indeg, q) vw) as [indeg1 q1] eqn:Hr.
    eapply IH; [|intros; apply HV; by right|done].
    eapply kahn_inv_relax; [done|apply HV; left|done].
Qed.

Lemma adj_list_elem_of E u vw :
  vw ∈ adj_list E u → ∃ e, e ∈ E ∧ e_from e = u ∧ e_to e = vw.1 ∧ e_weight e = vw.2.
Proof.
  unfold adj_list. intros (e & -> & [He Hu]%elem_of_outgoing)%list_elem_of_fmap.
  by exists e.
Qed.

Lemma kahn_inv_pop E V indeg u q tp :
  kahn_inv E V [] indeg (u :: q) tp →
  kahn_inv E V (adj_list E u) indeg q (tp ++ [u]).
Proof.
  intros [Hnd Hsub Hin Hz Hord].
  assert (Hu : u ∉ tp).
  { apply NoDup_app in Hnd as (_ & Hd & _). intros Hu. apply (Hd u Hu). left. }
  assert (HuV : u ∈ V).
  { apply Hsub, elem_of_app. right. left. }
  split.
  - by rewrite <- app_assoc.
  - intros x. rewrite <- app_assoc. apply Hsub.
  - intros v. rewrite Hin. simpl. f_equal. unfold pending.
    rewrite (pending_snoc_length _ tp u Hu), count_edges_between. lia.
  - intros v Hv. rewrite <- app_assoc. by apply Hz.
  - intros j e He Hj.
    apply lookup_app_Some in Hj as [Hj|[Hlen Hj]].
    + destruct (Hord j e He Hj) as (i & Hi & Hlk).
      exists i. split; [done|]. by apply lookup_app_l_Some.
    + apply list_lookup_singleton_Some in Hj as [Hj0 Hj].
      assert (H0 : int_get indeg u = 0).
      { apply Hz; [done|]. apply elem_of_app. right. left. }
      rewrite Hin in H0. simpl in H0.
      assert (Hp : pending E tp u = []).
      { apply length_zero_iff_nil. lia. }
      assert (Hfrom : e_from e ∈ tp).
      { destruct (decide (e_from e ∈ tp)) as [|Hn]; [done|].
        assert (e ∈ pending E tp u) as Hc; [|rewrite Hp in Hc; by apply elem_of_nil in Hc].
        unfold pending. apply list_elem_of_filter. split; [done|].
        by apply elem_of_incoming. }
      apply list_elem_of_lookup in Hfrom as [i Hi].
      exists i. split; [apply lookup_lt_Some in Hi; lia|].
      by apply lookup_app_l_Some.
Qed.

Section Kahn.

Variable E : list Edge.
Variable V : gset Z.
Variable a : gmap Z (list (Z * Z)).
Hypothesis a_spec : ∀ u, dd_get a u = adj_list E u.
Hypothesis E_closed : ∀ e, e ∈ E → e_from e ∈ V ∧ e_to e ∈ V.

(** The [while] loop ends within one step per vertex not yet output. *)
Lemma kahn_loop_total fuel : ∀ indeg q tp,
  kahn_inv E V [] indeg q tp →
  (size V ≤ fuel + length tp)%nat →
  ∃ tpf indegf,
    kahn_loop fuel a indeg q tp = Ok tpf ∧ kahn_inv E V [] indegf [] tpf.
Proof.
  induction fuel as [|fuel IH]; intros indeg q tp Hinv Hfuel.
  - destruct q as [|u q]; [by exists tp, indeg|].
    pose proof (NoDup_length_le_size _ V (ki_nodup _ _ _ _ _ _ Hinv)
                  (ki_sub _ _ _ _ _ _ Hinv)) as Hle.
    rewrite length_app in Hle. simpl in Hle. lia.
  - destruct q as [|u q]; [by exists tp, indeg|].
    cbn [kahn_loop]. rewrite a_spec.
    destruct (fold_left relax (adj_list E u) (indeg, q)) as [indeg1 q1] eqn:Hf.
    apply IH.
    + eapply kahn_inv_scan; [by apply kahn_inv_pop| |done].
      intros vw (e & He & _ & <- & _)%adj_list_elem_of. by apply E_closed.
    + rewrite length_app. simpl. lia.
Qed.

(** [_validate_dag] never runs out of steps: it returns an order or raises. *)
Lemma validate_dag_spec :
  ∃ tp indeg,
    kahn_inv E V [] indeg [] tp ∧
    validate_dag (size V) E a V =
      if decide (length tp ≠ size V) then Raise ValueError else Ok tp.
Proof.
  destruct (kahn_loop_total (size V) _ _ [] (kahn_inv_init E V))
    as (tp & indeg & Hk & Hinv); [simpl; lia|].
  exists tp, indeg. split; [done|].
  unfold validate_dag. by rewrite Hk.
Qed.

End Kahn.

(** ** Cycles and the topological order *)

Lemma tc_last_step {A : Type} (R : relation A) x y : tc R x y → ∃ z, R z y.
Proof. induction 1 as [x y HR|x y z HR _ IH]; [by exists x|done]. Qed.

Lemma order_ok_tc E tp u v :
  order_ok E tp → tc (edge_rel E) u v →
  ∀ j : nat, tp !! j = Some v → ∃ i : nat, (i < j)%nat ∧ tp !! i = Some u.
Proof.
  intros Hord. induction 1 as [x y [w HR]|x y z [w HR] _ IH]; intros j Hj.
  - apply (Hord j (x, y, w) HR Hj).
  - destruct (IH j Hj) as (i & Hi & Hlk).
    destruct (Hord i (x, y, w) HR Hlk) as (i' & Hi' & Hlk').
    exists i'. split; [lia|done].
Qed.

Lemma order_ok_acyclic E tp :
  order_ok E tp → NoDup tp → (∀ e, e ∈ E → e_to e ∈ tp) → ¬ cyclic E.
Proof.
  intros Hord Hnd Hin [v Hv].
  destruct (tc_last_step _ _ _ Hv) as (z & w & He).
  apply Hin in He. unfold e_to in He; simpl in He.
  apply list_elem_of_lookup in He as [j Hj].
  destruct (order_ok_tc E tp v v Hord Hv j Hj) as (i & Hi & Hlk).
  pose proof (NoDup_lookup _ _ _ _ Hnd Hlk Hj). lia.
Qed.

(** A non-empty finite set in which every vertex has a predecessor in the set
    holds a cycle. *)
Lemma closed_set_cycle {A : Type} (R : relation A) (U : list A) :
  U ≠ [] → (∀ v, v ∈ U → ∃ u, u ∈ U ∧ tc R u v) → ∃ v, tc R v v.
Proof.
  induction U as [|x U IH]; intros Hne Hpred; [done|].
  destruct (Hpred x) as (u & Hu & Hux); [left|].
  apply elem_of_cons in Hu as [->|Hu]; [by exists x|].
  apply IH.
  - intros ->. by apply elem_of_nil in Hu.
  - intros v Hv. destruct (Hpred v) as (u' & Hu' & Hu'v); [by right|].
    apply elem_of_cons in Hu' as [->|Hu']; [|by exists u'].
    exists u. split; [done|]. by etrans.
Qed.

Section KahnResult.

Variable E : list Edge.
Variable V : gset Z.
Variable a : gmap Z (list (Z * Z)).
Hypothesis a_spec : ∀ u, dd_get a u = adj_list E u.
Hypothesis E_closed : ∀ e, e ∈ E → e_from e ∈ V ∧ e_to e ∈ V.

Lemma kahn_final_short indeg tp :
  kahn_inv E V [] indeg [] tp → length tp ≠ size V → cyclic E.
Proof.
  intros [Hnd Hsub Hin Hz Hord] Hlen. rewrite app_nil_r in *.
  set (U := filter (λ x, x ∉ tp) (elements V)).
  apply (closed_set_cycle (edge_rel E) U).
  - intros HU. apply Hlen. apply Nat.le_antisymm.
    + by apply NoDup_length_le_size.
    + apply (submseteq_length (elements V) tp).
      apply NoDup_submseteq; [apply NoDup_elements|].
      intros x Hx. destruct (decide (x ∈ tp)) as [|Hn]; [done|].
      assert (x ∈ U) as Hc by (by apply list_elem_of_filter).
      rewrite HU in Hc. by apply elem_of_nil in Hc.
  - intros v [Hv HvV%elem_of_elements]%list_elem_of_filter.
    assert (Hnz : int_get indeg v ≠ 0) by (by rewrite <- Hz).
    rewrite Hin in Hnz. simpl in Hnz.
    destruct (pending E tp v) as [|e p] eqn:Hp; [simpl in Hnz; lia|].
    assert (He : e ∈ pending E tp v) by (rewrite Hp; left).
    apply list_elem_of_filter in He as [Hfrom [He Hto]%elem_of_incoming].
    exists (e_from e). split.
    + apply list_elem_of_filter. split; [done|].
      by apply elem_of_elements, E_closed.
    + apply tc_once. exists (e_weight e). subst v. by destruct e as [[??]?].
Qed.

Lemma kahn_final_full indeg tp :
  kahn_inv E V [] indeg [] tp → length tp = size V →
  NoDup tp ∧ (∀ x, x ∈ tp ↔ x ∈ V) ∧ order_ok E tp ∧ ¬ cyclic E.
Proof.
  intros [Hnd Hsub Hin Hz Hord] Hlen. rewrite app_nil_r in *.
  assert (Hfull : ∀ x, x ∈ tp ↔ x ∈ V).
  { intros x. split; [apply Hsub|by apply NoDup_full]. }
  split_and!; [done..|].
  apply (order_ok_acyclic E tp); [done..|].
  intros e He. by apply Hfull, E_closed.
Qed.

Lemma validate_dag_cases :
  (cyclic E ∧ validate_dag (size V) E a V = Raise ValueError) ∨
  (∃ tp, validate_dag (size V) E a V = Ok tp ∧
         NoDup tp ∧ (∀ x, x ∈ tp ↔ x ∈ V) ∧ order_ok E tp ∧ ¬ cyclic E).
Proof.
  destruct (validate_dag_spec E V a a_spec E_closed) as (tp & indeg & Hinv & ->).
  destruct (decide (length tp ≠ size V)) as [Hne|Heq].
  - left. split; [|done]. by eapply kahn_final_short.
  - right. exists tp. split; [done|].
    eapply kahn_final_full; [done|]. lia.
Qed.

End KahnResult.

(** ** The constructor *)

Lemma new_DAG_cases es source :
  (cyclic es ∧ new_DAG es source = Raise ValueError) ∨
  (∃ g, new_DAG es source = Ok g ∧ dag_ok es source g).
Proof.
  unfold new_DAG.
  destruct (init_fields es source) as [[a r] vs] eqn:Hi.
  apply init_fields_spec in Hi as (Ha & Hr & Hv).
  destruct (validate_dag_cases es vs a) as [[Hc ->]|(tp & -> & Hnd & Hel & Hord & Hac)].
  - done.
  - intros e He. split; apply Hv; right; exists e; auto.
  - by left.
  - right. eexists. split; [done|]. by split.
Qed.

Lemma new_DAG_ok es source g : new_DAG es source = Ok g → dag_ok es source g.
Proof.
  intros Hg. destruct (new_DAG_cases es source) as [[_ H]|(g' & H & Hok)];
    rewrite Hg in H; by simplify_eq.
Qed.

(** ** Sums *)

#[local] Instance sumZ_perm : Proper ((≡ₚ) ==> (=)) sumZ.
Proof. induction 1; simpl; lia. Qed.

Lemma sumZ_nonneg l : (∀ x, x ∈ l → 0 ≤ x) → 0 ≤ sumZ l.
Proof.
  induction l as [|x l IH]; intros H; simpl; [lia|].
  assert (0 ≤ x) by (apply H; left).
  assert (0 ≤ sumZ l) by (apply IH; intros; apply H; by right). lia.
Qed.

Lemma sumZ_elem_le l x : (∀ y, y ∈ l → 0 ≤ y) → x ∈ l → x ≤ sumZ l.
Proof.
  induction l as [|y l IH]; intros H Hx; [by apply elem_of_nil in Hx|].
  simpl. assert (0 ≤ y) by (apply H; left).
  assert (0 ≤ sumZ l) by (apply sumZ_nonneg; intros; apply H; by right).
  apply elem_of_cons in Hx as [->|Hx]; [lia|].
  assert (x ≤ sumZ l) by (apply IH; [intros; apply H; by right|done]). lia.
Qed.

Lemma sumZ_pos_elem l : 0 < sumZ l → ∃ x, x ∈ l ∧ 0 < x.
Proof.
  induction l as [|y l IH]; simpl; [lia|]. intros H.
  destruct (decide (0 < y)); [exists y; split; [left|done]|].
  destruct IH as (x & Hx & ?); [lia|]. exists x. split; [by right|done].
Qed.

Lemma sumZ_zero l : (∀ x, x ∈ l → x = 0) → sumZ l = 0.
Proof.
  induction l as [|y l IH]; intros H; simpl; [done|].
  rewrite (H y) by left. rewrite IH; [done|]. intros; apply H; by right.
Qed.

(** ** The counting pass *)

Lemma dp_cons e L c : dp (e :: L) c = dp L (dp_step c e).
Proof. done. Qed.

Lemma dp_step_get c e k :
  int_get (dp_step c e) k =
  if decide (e_to e = k) then int_get c k + int_get c (e_from e) else int_get c k.
Proof.
  unfold dp_step. rewrite int_get_insert.
  destruct (decide (e_to e = k)) as [Heq|]; [by rewrite Heq|done].
Qed.

Lemma dp_untouched L : ∀ c x,
  (∀ e, e ∈ L → e_to e ≠ x) → int_get (dp L c) x = int_get c x.
Proof.
  induction L as [|e L IH]; intros c x H; [done|].
  rewrite dp_cons, IH by (intros; apply H; by right).
  rewrite dp_step_get, decide_False; [done|]. apply H. left.
Qed.

(** Each counter ends as its start value plus the final counters of the
    origins of the edges that arrive at it. *)
Lemma dp_recurrence L : ∀ c v,
  safe L →
  int_get (dp L c) v =
  int_get c v + sumZ ((λ e, int_get (dp L c) (e_from e)) <$> incoming L v).
Proof.
  induction L as [|e L IH]; intros c v Hsafe.
  - simpl. lia.
  - destruct Hsafe as [Hhd Htl].
    rewrite dp_cons, (IH _ v Htl), dp_step_get, incoming_cons.
    assert (Hu : int_get (dp L (dp_step c e)) (e_from e) = int_get c (e_from e)).
    { rewrite dp_untouched by (intros; apply Hhd; by right).
      rewrite dp_step_get, decide_False; [done|]. apply Hhd. left. }
    destruct (decide (e_to e = v)) as [Heq|]; [|done].
    rewrite fmap_cons. simpl. rewrite Hu. lia.
Qed.

Lemma dp_nonneg L : ∀ c,
  (∀ k, 0 ≤ int_get c k) → ∀ k, 0 ≤ int_get (dp L c) k.
Proof.
  induction L as [|e L IH]; intros c H k; [apply H|].
  rewrite dp_cons. apply IH. intros k'. rewrite dp_step_get.
  pose proof (H k'). pose proof (H (e_from e)). destruct (decide _); lia.
Qed.

Lemma dp_step_keys c e k :
  is_Some (c !! e_to e) → (is_Some (dp_step c e !! k) ↔ is_Some (c !! k)).
Proof.
  intros He. unfold dp_step. rewrite lookup_insert.
  destruct (decide (e_to e = k)) as [Heq|]; [|done].
  rewrite <- Heq. split; [done|by eexists].
Qed.

Lemma dp_keys L : ∀ c,
  (∀ e, e ∈ L → is_Some (c !! e_to e)) →
  ∀ k, is_Some (dp L c !! k) ↔ is_Some (c !! k).
Proof.
  induction L as [|e L IH]; intros c H k; [done|].
  assert (He : is_Some (c !! e_to e)) by (apply H; left).
  rewrite dp_cons, IH; [by apply dp_step_keys|].
  intros e' He'. apply dp_step_keys; [done|]. apply H. by right.
Qed.

Lemma cnt_add_ok u c vw :
  is_Some (c !! u) → is_Some (c !! vw.1) →
  cnt_add u c vw = Ok (dp_step c (u, vw.1, vw.2)).
Proof.
  intros [cu Hcu] [cv Hcv]. unfold cnt_add, dict_get, dp_step, int_get, e_to, e_from.
  simpl. by rewrite Hcv, Hcu.
Qed.

(** With every key present the loops of [path_counts] raise nothing. *)
Lemma for_each_cnt_add u l : ∀ c,
  is_Some (c !! u) → (∀ vw, vw ∈ l → is_Some (c !! vw.1)) →
  for_each (cnt_add u) l c = Ok (dp ((λ vw, (u, vw.1, vw.2)) <$> l) c).
Proof.
  induction l as [|vw l IH]; intros c Hu Hl; [done|].
  assert (Hv : is_Some (c !! vw.1)) by (apply Hl; left).
  cbn [for_each]. rewrite cnt_add_ok by done.
  rewrite fmap_cons, dp_cons. apply IH.
  - by apply dp_step_keys.
  - intros vw' Hvw. apply dp_step_keys; [done|]. apply Hl. by right.
Qed.

Lemma adj_list_edges E u : (λ vw, (u, vw.1, vw.2)) <$> adj_list E u = outgoing E u.
Proof.
  unfold adj_list. induction E as [|e E IH]; [done|].
  rewrite outgoing_cons. destruct (decide (e_from e = u)) as [Heq|]; [|done].
  rewrite !fmap_cons, IH. simpl. f_equal.
  destruct e as [[a b] w]. unfold e_from in Heq. simpl in *. by subst.
Qed.

Lemma sweep_cons E u tp : sweep E (u :: tp) = outgoing E u ++ sweep E tp.
Proof. done. Qed.

Lemma elem_of_sweep E tp e : e ∈ sweep E tp ↔ e ∈ E ∧ e_from e ∈ tp.
Proof.
  unfold sweep. rewrite list_elem_of_bind. split.
  - intros (u & [He Hu]%elem_of_outgoing & Hin). by subst.
  - intros [He Hin]. exists (e_from e). split; [by apply elem_of_outgoing|done].
Qed.

Lemma dp_app L1 L2 c : dp (L1 ++ L2) c = dp L2 (dp L1 c).
Proof. unfold dp. by rewrite fold_left_app. Qed.

Lemma for_each_sweep E (a : gmap Z (list (Z * Z))) tp :
  (∀ u, dd_get a u = adj_list E u) →
  ∀ c, (∀ u, u ∈ tp → is_Some (c !! u)) →
       (∀ e, e ∈ E → is_Some (c !! e_to e)) →
       for_each (λ cnt u, for_each (cnt_add u) (dd_get a u) cnt) tp c =
       Ok (dp (sweep E tp) c).
Proof.
  intros Ha. induction tp as [|u tp IH]; intros c Htp HE; [done|].
  cbn [for_each]. rewrite Ha, for_each_cnt_add.
  - rewrite adj_list_edges, sweep_cons, dp_app. simpl.
    assert (Hk : ∀ k, is_Some (dp (outgoing E u) c !! k) ↔ is_Some (c !! k)).
    { apply dp_keys. intros e [He _]%elem_of_outgoing. by apply HE. }
    apply IH.
    + intros x Hx. apply Hk, Htp. by right.
    + intros e He. by apply Hk, HE.
  - apply Htp. left.
  - intros vw (e & He & _ & <- & _)%adj_list_elem_of. by apply HE.
Qed.

(** Along the topological order no edge comes back to a vertex from that
    vertex or a later one. *)
Lemma no_back_edge E l1 u l2 e :
  NoDup (l1 ++ u :: l2) → order_ok E (l1 ++ u :: l2) →
  e ∈ E → e_from e ∈ u :: l2 → e_to e ≠ u.
Proof.
  intros Hnd Hord He Hfrom Hto.
  destruct (Hord (length l1) e He) as (i & Hi & Hlk).
  { rewrite Hto. by rewrite list_lookup_middle. }
  apply list_elem_of_lookup in Hfrom as [k Hk].
  assert (Hlk' : (l1 ++ u :: l2) !! (length l1 + k)%nat = Some (e_from e)).
  { by rewrite lookup_app_r, Nat.add_comm, Nat.add_sub by lia. }
  pose proof (NoDup_lookup _ _ _ _ Hnd Hlk Hlk'). lia.
Qed.

Lemma safe_app L1 L2 :
  safe L1 → safe L2 →
  (∀ e e', e ∈ L1 → e' ∈ L2 → e_to e' ≠ e_from e) →
  safe (L1 ++ L2).
Proof.
  induction L1 as [|e L1 IH]; intros H1 H2 Hx; [done|].
  destruct H1 as [Hhd Htl]. split.
  - intros e' [He'|He']%(elem_of_app (e :: L1)); [by apply Hhd|].
    apply Hx; [left|done].
  - apply IH; [done..|]. intros e1 e2 H1' H2'. apply Hx; [by right|done].
Qed.

Lemma safe_all L : (∀ e e', e ∈ L → e' ∈ L → e_to e' ≠ e_from e) → safe L.
Proof.
  induction L as [|e L IH]; intros H; [done|]. split.
  - intros e' He'. apply H; [left|done].
  - apply IH. intros e1 e2 H1 H2. apply H; by right.
Qed.

Lemma safe_sweep E l2 : ∀ l1,
  NoDup (l1 ++ l2) → order_ok E (l1 ++ l2) → safe (sweep E l2).
Proof.
  induction l2 as [|u l2 IH]; intros l1 Hnd Hord; [done|].
  rewrite sweep_cons. apply safe_app.
  - apply safe_all. intros e e' [_ He]%elem_of_outgoing [He' Hf]%elem_of_outgoing.
    rewrite He. apply (no_back_edge E l1 u l2); [done..|]. rewrite Hf. left.
  - apply (IH (l1 ++ [u])); by rewrite <- app_assoc.
  - intros e e' [_ He]%elem_of_outgoing [He' Hf]%elem_of_sweep.
    rewrite He. apply (no_back_edge E l1 u l2); [done..|]. by right.
Qed.

(** The pass visits every edge once. *)
Lemma sweep_filter E tp :
  NoDup tp → sweep E tp ≡ₚ filter (λ e, e_from e ∈ tp) E.
Proof.
  induction tp as [|u tp IH]; intros Hnd.
  - simpl. induction E as [|e E IHE]; [done|].
    rewrite filter_cons_False; [done|]. intros H. by apply elem_of_nil in H.
  - apply NoDup_cons in Hnd as [Hu Hnd].
    rewrite sweep_cons, (IH Hnd). clear IH.
    induction E as [|e E IHE]; [done|].
    rewrite outgoing_cons, !filter_cons.
    destruct (decide (e_from e = u)) as [Heq|Hne].
    + rewrite decide_False by (by rewrite Heq).
      rewrite decide_True by (rewrite Heq; left).
      simpl. by rewrite IHE.
    + destruct (decide (e_from e ∈ tp)) as [Hin|Hin].
      * rewrite decide_True by (by right).
        rewrite <- Permutation_middle. by rewrite IHE.
      * rewrite decide_False; [done|].
        intros [?|?]%elem_of_cons; done.
Qed.

Lemma sweep_perm E tp :
  NoDup tp → (∀ e, e ∈ E → e_from e ∈ tp) → sweep E tp ≡ₚ E.
Proof.
  intros Hnd Hall. rewrite sweep_filter by done. by rewrite filter_all.
Qed.

(** ** [path_counts] on a constructed graph *)

Lemma fold_zero_keys (l : list Z) : ∀ (d : gmap Z Z) k,
  is_Some (fold_left (λ d v, <[v := 0]> d) l d !! k) ↔ k ∈ l ∨ is_Some (d !! k).
Proof.
  induction l as [|x l IH]; intros d k; simpl.
  - split; [by right|]. intros [H|H]; [by apply elem_of_nil in H|done].
  - rewrite IH, lookup_insert, elem_of_cons.
    destruct (decide (x = k)) as [->|Hne].
    + split; [by left; left|]. intros _. right. by eexists.
    + split; [intros [?|?]; auto|]. intros [[?|?]|?]; auto. congruence.
Qed.

Lemma path_counts_spec es source g :
  dag_ok es source g →
  ∃ cnt,
    path_counts g = Ok cnt ∧
    (∀ k, is_Some (cnt !! k) ↔ k ∈ vertices g) ∧
    (∀ k, 0 ≤ int_get cnt k) ∧
    (∀ v, int_get cnt v =
          at_src source v +
          sumZ ((λ e, int_get cnt (e_from e)) <$> incoming es v)).
Proof.
  intros [Hes Hs Ha Hr Hv Hnd Hel Hord Hac].
  set (c0 := fold_left (λ (d : gmap Z Z) v, <[v := 0]> d)
               (set_iter (vertices g)) ∅).
  set (c1 := <[source := 1]> c0).
  assert (Hk1 : ∀ k, is_Some (c1 !! k) ↔ k ∈ vertices g).
  { intros k. unfold c1, c0. rewrite lookup_insert.
    destruct (decide (source = k)) as [<-|Hne].
    - split; [intros _; apply Hv; by left|by eexists].
    - rewrite fold_zero_keys, set_iter_elem_of, lookup_empty.
      split; [intros [?|[? ?]]; done|by left]. }
  assert (HE : ∀ e, e ∈ es → e_from e ∈ vertices g ∧ e_to e ∈ vertices g).
  { intros e He. split; apply Hv; right; exists e; auto. }
  exists (dp (sweep es (topo g)) c1).
  assert (Hkeys : ∀ k, is_Some (dp (sweep es (topo g)) c1 !! k) ↔ k ∈ vertices g).
  { intros k. rewrite <- Hk1. apply dp_keys.
    intros e [He _]%elem_of_sweep. by apply Hk1, HE. }
  split_and!.
  - unfold path_counts. rewrite Hs. fold c0. fold c1.
    apply for_each_sweep; [done| |].
    + intros u Hu. by apply Hk1, Hel.
    + intros e He. by apply Hk1, HE.
  - done.
  - apply dp_nonneg. intros k. unfold c1, c0. rewrite int_get_insert.
    destruct (decide _); [lia|]. by rewrite fold_zero_get.
  - intros v. rewrite dp_recurrence at 1 by (by apply (safe_sweep es (topo g) [])).
    f_equal.
    + unfold c1, c0, at_src. rewrite int_get_insert.
      destruct (decide (source = v)), (decide (v = source)); try congruence.
      by rewrite fold_zero_get.
    + apply sumZ_perm. unfold incoming.
      rewrite (sweep_perm es (topo g)); [done|done|].
      intros e He. by apply Hel, HE.
Qed.

(** ** Counts and reachability *)

Lemma fmap_ext_in {A B : Type} (f g : A → B) (l : list A) :
  (∀ x, x ∈ l → f x = g x) → f <$> l = g <$> l.
Proof.
  induction l as [|x l IH]; intros H; [done|].
  rewrite !fmap_cons, (H x) by left. f_equal. apply IH. intros; apply H; by right.
Qed.

Lemma edge_forward E tp e (i j : nat) :
  NoDup tp → order_ok E tp → e ∈ E →
  tp !! i = Some (e_from e) → tp !! j = Some (e_to e) → (i < j)%nat.
Proof.
  intros Hnd Hord He Hi Hj.
  destruct (Hord j e He Hj) as (i' & Hlt & Hi').
  by rewrite (NoDup_lookup _ _ _ _ Hnd Hi Hi').
Qed.

Section Counts.

Variable es : list Edge.
Variable s : Z.
Variable tp : list Z.
Variable C : Z → Z.
Hypothesis tp_nodup : NoDup tp.
Hypothesis tp_order : order_ok es tp.
Hypothesis tp_closed : ∀ e, e ∈ es → e_from e ∈ tp ∧ e_to e ∈ tp.
Hypothesis s_in : s ∈ tp.
Hypothesis acyclic : ¬ cyclic es.
Hypothesis C_nonneg : ∀ v, 0 ≤ C v.
Hypothesis C_rec : ∀ v,
  C v = at_src s v + sumZ ((λ e, C (e_from e)) <$> incoming es v).

Lemma in_sum_nonneg v : 0 ≤ sumZ ((λ e, C (e_from e)) <$> incoming es v).
Proof.
  apply sumZ_nonneg. intros x (e & -> & _)%list_elem_of_fmap. apply C_nonneg.
Qed.

Lemma count_edge_le e : e ∈ es → C (e_from e) ≤ C (e_to e).
Proof.
  intros He. rewrite (C_rec (e_to e)).
  assert (C (e_from e) ≤ sumZ ((λ e, C (e_from e)) <$> incoming es (e_to e))).
  { apply sumZ_elem_le.
    - intros x (e' & -> & _)%list_elem_of_fmap. apply C_nonneg.
    - apply list_elem_of_fmap. exists e. split; [done|]. by apply elem_of_incoming. }
  unfold at_src. destruct (decide _); lia.
Qed.

Lemma reachable_count_pos v : reachable es s v → 0 < C v.
Proof.
  revert v. unfold reachable. apply (rtc_ind_r (λ v, 0 < C v) s).
  - rewrite C_rec. pose proof (in_sum_nonneg s). unfold at_src.
    rewrite decide_True by done. lia.
  - intros u v Hsu [w Huv] IH.
    pose proof (count_edge_le (u, v, w) Huv) as Hle.
    unfold e_from, e_to in Hle; simpl in Hle. lia.
Qed.

Lemma count_pos_edge v :
  v ≠ s → 0 < C v → ∃ e, e ∈ es ∧ e_to e = v ∧ 0 < C (e_from e).
Proof.
  intros Hne Hpos. rewrite C_rec in Hpos. unfold at_src in Hpos.
  rewrite decide_False in Hpos by done.
  rewrite Z.add_0_l in Hpos.
  destruct (sumZ_pos_elem _ Hpos) as (x & Hx & Hx0).
  apply list_elem_of_fmap in Hx as (e & -> & [He Hto]%elem_of_incoming).
  by exists e.
Qed.

Lemma count_pos_reachable_at (n : nat) : ∀ (j : nat) v,
  (j < n)%nat → tp !! j = Some v → 0 < C v → reachable es s v.
Proof.
  induction n as [|n IH]; intros j v Hj Hlk Hpos; [lia|].
  destruct (decide (v = s)) as [->|Hne]; [apply rtc_refl|].
  destruct (count_pos_edge v Hne Hpos) as (e & He & Hto & Hfrom).
  destruct (tp_order j e He) as (i & Hi & Hlki); [by rewrite Hto|].
  eapply rtc_r; [apply (IH i); [lia|done|done]|].
  exists (e_weight e). subst v. by destruct e as [[??]?].
Qed.

Lemma count_pos_reachable v : 0 < C v → reachable es s v.
Proof.
  intros Hpos. destruct (decide (v = s)) as [->|Hne]; [apply rtc_refl|].
  destruct (count_pos_edge v Hne Hpos) as (e & He & Hto & _).
  destruct (tp_closed e He) as [_ Hin]. rewrite Hto in Hin.
  apply list_elem_of_lookup in Hin as [j Hj].
  apply (count_pos_reachable_at (S j) j); [lia|done|done].
Qed.

Lemma count_unreachable v : ¬ reachable es s v → C v = 0.
Proof.
  intros Hn. pose proof (C_nonneg v).
  destruct (decide (0 < C v)) as [Hp|]; [|lia].
  by apply count_pos_reachable in Hp.
Qed.

(** Edges into the source add nothing: their origins cannot be reached. *)
Lemma count_src : C s = 1.
Proof.
  rewrite C_rec. unfold at_src. rewrite decide_True by done.
  rewrite sumZ_zero; [done|].
  intros x (e & -> & [He Hto]%elem_of_incoming)%list_elem_of_fmap.
  apply count_unreachable. intros Hr. apply acyclic. exists s.
  eapply tc_rtc_l; [apply Hr|]. apply tc_once.
  exists (e_weight e). subst s. by destruct e as [[??]?].
Qed.

End Counts.

(** ** The depth-first enumeration *)

Lemma pop_snoc path v : pop (path ++ [v]) = Ok path.
Proof.
  unfold pop. destruct (path ++ [v]) as [|x l] eqn:H.
  - by destruct path.
  - rewrite <- H. by rewrite removelast_last.
Qed.

Lemma for_each_mono {S A : Type} (b1 b2 : S → A → result S) (l : list A) :
  (∀ s x s', b1 s x = Ok s' → b2 s x = Ok s') →
  ∀ s r, for_each b1 l s = Ok r → for_each b2 l s = Ok r.
Proof.
  intros Hb. induction l as [|x l IH]; intros s r H; [done|].
  cbn [for_each] in *. destruct (b1 s x) as [s'| |] eqn:H1; try done.
  rewrite (Hb _ _ _ H1). simpl in *. by apply IH.
Qed.

Lemma dfs_S fuel g t u cost st :
  dfs (S fuel) g t u cost st =
  if decide (u = t) then Ok (st.1 ++ [(st.2, cost)], st.2)
  else
    for_each (λ st vw,
        st' ← dfs fuel g t vw.1 (cost + vw.2) (st.1, st.2 ++ [vw.1]);
        path' ← pop st'.2;
        Ok (st'.1, path'))
      (dd_get (adj g) u) st.
Proof. done. Qed.

(** More depth allowed does not change what [dfs] returns. *)
Lemma dfs_mono g t fuel : ∀ u cost st r,
  dfs fuel g t u cost st = Ok r → dfs (S fuel) g t u cost st = Ok r.
Proof.
  induction fuel as [|f IH]; intros u cost st r H; [done|].
  rewrite dfs_S in H. rewrite dfs_S. destruct (decide (u = t)); [done|].
  revert H. apply for_each_mono. intros s x s' Hb.
  destruct (dfs f g t x.1 (cost + x.2) (s.1, s.2 ++ [x.1])) as [st1| |] eqn:H1;
    try done.
  by rewrite (IH _ _ _ _ H1).
Qed.

Lemma dfs_mono_le g t fuel fuel' u cost st r :
  (fuel ≤ fuel')%nat →
  dfs fuel g t u cost st = Ok r → dfs fuel' g t u cost st = Ok r.
Proof.
  induction 1 as [|m _ IH]; [done|]. intros H. by apply dfs_mono, IH.
Qed.

Section Paths.

Variable g : DAG.
Variable es : list Edge.
Variable tp : list Z.
Variable t : Z.
Hypothesis g_adj : ∀ u, dd_get (adj g) u = adj_list es u.
Hypothesis tp_nodup : NoDup tp.
Hypothesis tp_order : order_ok es tp.
Hypothesis tp_closed : ∀ e, e ∈ es → e_from e ∈ tp ∧ e_to e ∈ tp.

(** An edge leads to a later place of the order. *)
Lemma next_place (j : nat) e :
  e ∈ es → tp !! j = Some (e_from e) →
  ∃ j' : nat, tp !! j' = Some (e_to e) ∧ (j < j')%nat.
Proof.
  intros He Hj. destruct (tp_closed e He) as [_ Hin].
  apply list_elem_of_lookup in Hin as [j' Hj'].
  exists j'. split; [done|]. by eapply edge_forward.
Qed.

(** Started at the [j]-th vertex of the order, [dfs] needs a depth of at
    most what is left of the order. *)
Lemma dfs_ok fuel : ∀ u cost res path (j : nat),
  tp !! j = Some u → (length tp ≤ j + fuel)%nat →
  ∃ new,
    dfs fuel g t u cost (res, path) = Ok (res ++ new, path) ∧
    Z.of_nat (length new) = npaths fuel es t u.
Proof.
  induction fuel as [|f IH]; intros u cost res path j Hj Hfuel.
  - apply lookup_lt_Some in Hj. lia.
  - rewrite dfs_S. cbn [npaths]. destruct (decide (u = t)) as [Heq|Hne].
    + exists [(path, cost)]. by simpl.
    + rewrite g_adj.
      assert (Hnext : ∀ vw, vw ∈ adj_list es u →
                ∃ j' : nat, tp !! j' = Some vw.1 ∧ (length tp ≤ j' + f)%nat).
      { intros vw (e & He & Hfrom & Hto & _)%adj_list_elem_of.
        destruct (next_place j e He) as (j' & Hj' & Hlt); [by rewrite Hfrom|].
        exists j'. split; [by rewrite <- Hto|lia]. }
      replace (sumZ ((λ e, npaths f es t (e_to e)) <$> outgoing es u))
        with (sumZ ((λ vw : Z * Z, npaths f es t vw.1) <$> adj_list es u))
        by (unfold adj_list; by rewrite <- list_fmap_compose).
      revert Hnext. generalize (adj_list es u) as l. intros l. revert res.
      induction l as [|vw l IHl]; intros res Hnext.
      * exists []. by rewrite app_nil_r.
      * cbn [for_each]. destruct (Hnext vw) as (j' & Hj' & Hf'); [left|].
        destruct (IH vw.1 (cost + vw.2) res (path ++ [vw.1]) j' Hj' Hf')
          as (new1 & Hd & Hlen1).
        simpl. rewrite Hd. simpl. rewrite pop_snoc. simpl.
        destruct (IHl (res ++ new1)) as (new2 & Hl & Hlen2).
        { intros; apply Hnext; by right. }
        exists (new1 ++ new2). split.
        -- by rewrite app_assoc.
        -- rewrite length_app, Nat2Z.inj_add, Hlen1, Hlen2. reflexivity.
Qed.

(** Past the depth that is needed [npaths] no longer changes. *)
Lemma npaths_stable fuel : ∀ u (j : nat),
  tp !! j = Some u → (length tp ≤ j + fuel)%nat →
  npaths (S fuel) es t u = npaths fuel es t u.
Proof.
  induction fuel as [|f IH]; intros u j Hj Hfuel.
  - apply lookup_lt_Some in Hj. lia.
  - change (npaths (S (S f)) es t u) with
      (if decide (u = t) then 1
       else sumZ ((λ e, npaths (S f) es t (e_to e)) <$> outgoing es u)).
    change (npaths (S f) es t u) with
      (if decide (u = t) then 1
       else sumZ ((λ e, npaths f es t (e_to e)) <$> outgoing es u)).
    destruct (decide (u = t)); [done|]. f_equal.
    apply fmap_ext_in. intros e [He Hfrom]%elem_of_outgoing.
    destruct (next_place j e He) as (j' & Hj' & Hlt); [by rewrite Hfrom|].
    apply (IH _ j'); [done|lia].
Qed.

(** Nothing after the target in the order leads to it. *)
Lemma npaths_after fuel : ∀ u (jt j : nat),
  tp !! jt = Some t → tp !! j = Some u → (jt < j)%nat →
  npaths fuel es t u = 0.
Proof.
  induction fuel as [|f IH]; intros u jt j Hjt Hj Hlt; [done|].
  cbn [npaths]. destruct (decide (u = t)) as [->|Hne].
  - pose proof (NoDup_lookup _ _ _ _ tp_nodup Hjt Hj). lia.
  - apply sumZ_zero. intros x (e & -> & [He Hfrom]%elem_of_outgoing)%list_elem_of_fmap.
    destruct (next_place j e He) as (j' & Hj' & Hlt'); [by rewrite Hfrom|].
    apply (IH _ jt j'); [done|done|lia].
Qed.

(** The number of paths to [t] from [u]: one at [t] itself, else the sum over
    the edges that leave [u]. *)
Lemma npaths_recurrence u :
  u ∈ tp →
  npaths (length tp) es t u =
  at_src t u + sumZ ((λ e, npaths (length tp) es t (e_to e)) <$> outgoing es u).
Proof.
  intros [j Hj]%list_elem_of_lookup.
  rewrite <- (npaths_stable (length tp) u j) at 1 by (done || lia).
  cbn [npaths]. unfold at_src. destruct (decide (u = t)) as [->|Hne].
  - rewrite sumZ_zero; [done|].
    intros x (e & -> & [He Hfrom]%elem_of_outgoing)%list_elem_of_fmap.
    destruct (next_place j e He) as (j' & Hj' & Hlt); [by rewrite Hfrom|].
    by apply (npaths_after _ _ j j').
  - done.
Qed.

End Paths.

(** ** Counting the paths from both ends *)

Lemma sumZ_cons x l : sumZ (x :: l) = x + sumZ l.
Proof. done. Qed.

Lemma sumZ_fmap_add {A : Type} (f h : A → Z) l :
  sumZ ((λ x, f x + h x) <$> l) = sumZ (f <$> l) + sumZ (h <$> l).
Proof.
  induction l as [|x l IH]; [done|]. rewrite !fmap_cons, !sumZ_cons, IH. lia.
Qed.

Lemma sumZ_fmap_mul_r {A : Type} (f : A → Z) c l :
  sumZ ((λ x, f x * c) <$> l) = sumZ (f <$> l) * c.
Proof.
  induction l as [|x l IH]; [done|]. rewrite !fmap_cons, !sumZ_cons, IH. lia.
Qed.

Lemma sumZ_at_notin k (f : Z → Z) tp :
  k ∉ tp → sumZ ((λ v, at_src k v * f v) <$> tp) = 0.
Proof.
  intros Hk. apply sumZ_zero. intros x (v & -> & Hv)%list_elem_of_fmap.
  unfold at_src. rewrite decide_False; [lia|]. by intros ->.
Qed.

Lemma sumZ_at k (f : Z → Z) tp :
  NoDup tp → k ∈ tp → sumZ ((λ v, at_src k v * f v) <$> tp) = f k.
Proof.
  induction tp as [|x tp IH]; intros Hnd Hk; [by apply elem_of_nil in Hk|].
  apply NoDup_cons in Hnd as [Hx Hnd]. rewrite fmap_cons, sumZ_cons.
  apply elem_of_cons in Hk as [->|Hk].
  - rewrite sumZ_at_notin by done. unfold at_src. rewrite decide_True by done. lia.
  - rewrite IH by done. unfold at_src. rewrite decide_False; [lia|].
    by intros ->.
Qed.

(** Summing over the edges vertex by vertex, or all at once. *)
Lemma sum_by_key (key : Edge → Z) (h : Edge → Z) E tp :
  NoDup tp → (∀ e, e ∈ E → key e ∈ tp) →
  sumZ ((λ v, sumZ (h <$> filter (λ e, key e = v) E)) <$> tp) = sumZ (h <$> E).
Proof.
  intros Hnd. induction E as [|e E IH]; intros Hkey.
  - apply sumZ_zero. by intros x (v & -> & _)%list_elem_of_fmap.
  - rewrite (fmap_ext_in _
      (λ v, at_src (key e) v * h e + sumZ (h <$> filter (λ e, key e = v) E))).
    + rewrite sumZ_fmap_add, (sumZ_at (key e) (λ _, h e)), IH, fmap_cons.
      * done.
      * intros; apply Hkey; by right.
      * done.
      * apply Hkey; left.
    + intros v _. rewrite filter_cons. unfold at_src.
      destruct (decide (key e = v)) as [Heq|Hne].
      * rewrite decide_True by done. rewrite fmap_cons, sumZ_cons. lia.
      * rewrite decide_False by done. lia.
Qed.

Section DoubleCount.

Variable es : list Edge.
Variable tp : list Z.
Variables s t : Z.
Variables C N : Z → Z.
Hypothesis tp_nodup : NoDup tp.
Hypothesis tp_closed : ∀ e, e ∈ es → e_from e ∈ tp ∧ e_to e ∈ tp.
Hypothesis s_in : s ∈ tp.
Hypothesis t_in : t ∈ tp.
Hypothesis C_rec : ∀ v,
  C v = at_src s v + sumZ ((λ e, C (e_from e)) <$> incoming es v).
Hypothesis N_rec : ∀ v, v ∈ tp →
  N v = at_src t v + sumZ ((λ e, N (e_to e)) <$> outgoing es v).

(** The count made forwards from the source and the one made backwards from
    the target agree. *)
Lemma count_both_ways : N s = C t.
Proof.
  set (h := λ e : Edge, C (e_from e) * N (e_to e)).
  assert (H1 : sumZ ((λ v, C v * N v) <$> tp) = N s + sumZ (h <$> es)).
  { rewrite (fmap_ext_in _
      (λ v, at_src s v * N v + sumZ (h <$> filter (λ e, e_to e = v) es))).
    - rewrite sumZ_fmap_add, (sumZ_at s N), (sum_by_key e_to h); try done.
      intros e He. by apply tp_closed.
    - intros v _. rewrite (C_rec v) at 1.
      rewrite Z.mul_add_distr_r. f_equal.
      rewrite <- sumZ_fmap_mul_r. f_equal. apply fmap_ext_in.
      intros e [_ Hto]%elem_of_incoming. unfold h. by rewrite Hto. }
  assert (H2 : sumZ ((λ v, C v * N v) <$> tp) = C t + sumZ (h <$> es)).
  { rewrite (fmap_ext_in _
      (λ v, at_src t v * C v + sumZ (h <$> filter (λ e, e_from e = v) es))).
    - rewrite sumZ_fmap_add, (sumZ_at t C), (sum_by_key e_from h); try done.
      intros e He. by apply tp_closed.
    - intros v Hv. rewrite (N_rec v Hv).
      rewrite Z.mul_add_distr_l, (Z.mul_comm (C v)). f_equal.
      rewrite Z.mul_comm, <- sumZ_fmap_mul_r. f_equal. apply fmap_ext_in.
      intros e [_ Hfrom]%elem_of_outgoing. unfold h. rewrite Hfrom. lia. }
  lia.
Qed.

End DoubleCount.

(** ** The properties of a constructed graph *)

Lemma int_get_lookup (d : gmap Z Z) k : is_Some (d !! k) → d !! k = Some (int_get d k).
Proof. intros [x Hx]. unfold int_get. by rewrite Hx. Qed.

Lemma dag_ok_closed es source g :
  dag_ok es source g → ∀ e, e ∈ es → e_from e ∈ topo g ∧ e_to e ∈ topo g.
Proof.
  intros Hok e He. split; apply (ok_topo_elem _ _ _ Hok), (ok_vertices _ _ _ Hok);
    right; exists e; auto.
Qed.

Lemma dag_ok_src_in es source g : dag_ok es source g → source ∈ topo g.
Proof.
  intros Hok. apply (ok_topo_elem _ _ _ Hok), (ok_vertices _ _ _ Hok). by left.
Qed.

Lemma dag_ok_length es source g :
  dag_ok es source g → length (topo g) = size (vertices g).
Proof.
  intros Hok. apply Nat.le_antisymm.
  - apply NoDup_length_le_size; [apply Hok|]. intros x. apply Hok.
  - apply (submseteq_length (elements (vertices g)) (topo g)).
    apply NoDup_submseteq; [apply NoDup_elements|].
    intros x Hx%elem_of_elements. by apply Hok.
Qed.

Lemma dag_ok_precedes es source g e :
  dag_ok es source g → e ∈ es → precedes (topo g) (e_from e) (e_to e).
Proof.
  intros Hok He. destruct (dag_ok_closed _ _ _ Hok e He) as [_ Hin].
  apply list_elem_of_lookup in Hin as [j Hj].
  destruct (ok_topo_order _ _ _ Hok j e He Hj) as (i & Hi & Hlk).
  by exists i, j.
Qed.

Lemma cyclic_ciclo : cyclic ciclo.
Proof.
  exists 0. eapply tc_l; [|apply tc_once]; exists 1; unfold ciclo.
  - left.
  - right; left.
Qed.

(** [enumerate_paths] returns, with as many entries as [npaths] says. *)
Lemma enumerate_paths_ok es source g t :
  dag_ok es source g →
  ∃ res,
    (∀ fuel, (size (vertices g) ≤ fuel)%nat → enumerate_paths fuel g t = Ok res) ∧
    Z.of_nat (length res) = npaths (length (topo g)) es t source.
Proof.
  intros Hok.
  pose proof (dag_ok_src_in _ _ _ Hok) as [j Hj]%list_elem_of_lookup.
  destruct (dfs_ok g es (topo g) t (ok_adj _ _ _ Hok) (ok_topo_nodup _ _ _ Hok)
              (ok_topo_order _ _ _ Hok) (dag_ok_closed _ _ _ Hok)
              (length (topo g)) source 0 [] [source] j Hj ltac:(lia))
    as (res & Hd & Hlen).
  exists res. split; [|done].
  intros fuel Hfuel. unfold enumerate_paths. rewrite (ok_src _ _ _ Hok).
  rewrite (dfs_mono_le g t (length (topo g)) fuel _ _ _ _ ltac:(rewrite (dag_ok_length _ _ _ Hok); lia) Hd).
  done.
Qed.

(** The count of the target is the number of enumerated paths. *)
Lemma npaths_count es source g cnt t :
  dag_ok es source g → path_counts g = Ok cnt → t ∈ vertices g →
  npaths (length (topo g)) es t source = int_get cnt t.
Proof.
  intros Hok Hcnt Ht.
  destruct (path_counts_spec _ _ _ Hok) as (cnt' & Hcnt' & Hkeys & Hnn & Hrec).
  rewrite Hcnt in Hcnt'. simplify_eq.
  apply (count_both_ways es (topo g) source t (int_get cnt')
           (npaths (length (topo g)) es t)).
  - apply (ok_topo_nodup _ _ _ Hok).
  - by apply (dag_ok_closed _ source g).
  - by apply (dag_ok_src_in es).
  - by apply (ok_topo_elem _ _ _ Hok).
  - done.
  - intros v Hv. apply npaths_recurrence.
    + apply (ok_topo_nodup _ _ _ Hok).
    + apply (ok_topo_order _ _ _ Hok).
    + by apply (dag_ok_closed _ source g).
    + done.
Qed.

(** The facts about the counts that the main theorems use. *)
Lemma counts_facts es source g :
  dag_ok es source g →
  ∃ cnt,
    path_counts g = Ok cnt ∧
    (∀ k, is_Some (cnt !! k) ↔ k ∈ vertices g) ∧
    (∀ k, 0 ≤ int_get cnt k) ∧
    (∀ v, int_get cnt v =
          at_src source v + sumZ ((λ e, int_get cnt (e_from e)) <$> incoming es v)) ∧
    int_get cnt source = 1 ∧
    (∀ v, 0 < int_get cnt v ↔ reachable es source v).
Proof.
  intros Hok.
  destruct (path_counts_spec _ _ _ Hok) as (cnt & Hcnt & Hkeys & Hnn & Hrec).
  pose proof (ok_topo_order _ _ _ Hok) as Hord.
  pose proof (dag_ok_closed _ _ _ Hok) as Hcl.
  exists cnt. split_and!; try done.
  - apply (count_src es source (topo g) (int_get cnt)); try done.
    + by apply (dag_ok_src_in es).
    + apply (ok_acyclic _ _ _ Hok).
  - intros v. split.
    + by apply (count_pos_reachable es source (topo g) (int_get cnt)).
    + by apply (reachable_count_pos es source (int_get cnt)).
Qed.

(** ** Sorting and choosing the parents *)

Lemma insert_desc_perm x l : insert_desc x l ≡ₚ x :: l.
Proof.
  induction l as [|y l IH]; [done|]. simpl.
  destruct (decide (x.2 < y.2)); [|done]. rewrite IH. apply perm_swap.
Qed.

Lemma sort_desc_perm l : sort_desc l ≡ₚ l.
Proof.
  induction l as [|x l IH]; [done|]. simpl. by rewrite insert_desc_perm, IH.
Qed.

Lemma insert_desc_sorted x l : desc l → desc (insert_desc x l).
Proof.
  unfold desc. induction l as [|y l IH]; intros Hs; simpl.
  - by repeat constructor.
  - apply StronglySorted_cons in Hs as [Hy Hs].
    destruct (decide (x.2 < y.2)) as [Hlt|Hge].
    + apply StronglySorted_cons. split; [|by apply IH].
      rewrite insert_desc_perm. constructor; [lia|done].
    + apply StronglySorted_cons. split; [|by apply StronglySorted_cons].
      constructor; [lia|]. eapply Forall_impl; [done|]. simpl. intros; lia.
Qed.

Lemma sort_desc_sorted l : desc (sort_desc l).
Proof.
  induction l as [|x l IH]; [constructor|]. by apply insert_desc_sorted.
Qed.

(** The first of the sorted candidates has the largest count. *)
Lemma sort_desc_head l x r :
  sort_desc l = x :: r → x ∈ l ∧ ∀ y, y ∈ l → y.2 ≤ x.2.
Proof.
  intros Hs. pose proof (sort_desc_sorted l) as Hd.
  pose proof (sort_desc_perm l) as Hp. rewrite Hs in Hd, Hp.
  apply StronglySorted_cons in Hd as [Hall _]. split.
  - rewrite <- Hp. left.
  - intros y Hy. rewrite <- Hp in Hy. apply elem_of_cons in Hy as [->|Hy]; [lia|].
    by apply (proj1 (Forall_forall _ _) Hall).
Qed.

Lemma positive_cons x l :
  positive (x :: l) = if decide (0 < x.2) then x :: positive l else positive l.
Proof. unfold positive. rewrite filter_cons. by destruct (decide _). Qed.

Lemma positive_sum_nonneg l : 0 ≤ sumZ (snd <$> positive l).
Proof.
  apply sumZ_nonneg.
  intros x (y & -> & [Hy _]%list_elem_of_filter)%list_elem_of_fmap. lia.
Qed.

(** The loop ends above [max_paths] exactly when the positive counts of all
    the candidates together are above it. *)
Lemma choose_total m cands : ∀ t ch,
  (choose m cands t ch).1 > m ↔ t + sumZ (snd <$> positive cands) > m.
Proof.
  induction cands as [|[u c] cands IH]; intros t ch.
  - simpl. lia.
  - cbn [choose]. rewrite positive_cons. simpl.
    pose proof (positive_sum_nonneg cands).
    destruct (decide (c ≤ 0)).
    + rewrite (decide_False (P := 0 < c)) by lia. apply IH.
    + rewrite (decide_True (P := 0 < c)) by lia. rewrite fmap_cons, sumZ_cons. simpl.
      destruct (decide (t + c > m)).
      * simpl. lia.
      * rewrite IH. lia.
Qed.

(** What the loop chooses: some of the positive candidates, in their order,
    and the total of their counts. *)
Lemma choose_picked m cands : ∀ t ch,
  ∃ pk, pk `sublist_of` positive cands ∧
        choose m cands t ch = (t + sumZ (snd <$> pk), ch ++ (fst <$> pk)).
Proof.
  induction cands as [|[u c] cands IH]; intros t ch.
  - exists []. split; [done|]. simpl. by rewrite Z.add_0_r, app_nil_r.
  - cbn [choose]. rewrite positive_cons. simpl.
    destruct (decide (c ≤ 0)).
    + rewrite (decide_False (P := 0 < c)) by lia. apply IH.
    + rewrite (decide_True (P := 0 < c)) by lia.
      destruct (decide (t + c > m)).
      * exists [(u, c)]. split; [apply sublist_skip, sublist_nil_l|].
        simpl. by rewrite Z.add_0_r.
      * destruct (IH (t + c) (ch ++ [u])) as (pk & Hsub & ->).
        exists ((u, c) :: pk). split; [by apply sublist_skip|].
        rewrite !fmap_cons, sumZ_cons, <- app_assoc. simpl. f_equal. lia.
Qed.

(** [max] of a non-empty collection is its largest element. *)
Lemma fold_max_spec l : ∀ x,
  (fold_left Z.max l x ∈ x :: l) ∧ ∀ y, y ∈ x :: l → y ≤ fold_left Z.max l x.
Proof.
  induction l as [|z l IH]; intros x; simpl.
  - split; [left|]. intros y ->%list_elem_of_singleton. lia.
  - destruct (IH (Z.max x z)) as [Hin Hmax]. split.
    + apply elem_of_cons in Hin as [Hin|Hin]; [|by right; right].
      rewrite Hin. destruct (Z.max_spec x z) as [[_ ->]|[_ ->]]; [right; left|left].
    + intros y Hy.
      assert (Z.max x z ≤ fold_left Z.max l (Z.max x z)) by (apply Hmax; left).
      apply elem_of_cons in Hy as [->|[->|Hy]%elem_of_cons]; [lia|lia|].
      apply Hmax. by right.
Qed.

Lemma py_max_spec l :
  l ≠ [] → ∃ m, py_max l = Ok m ∧ m ∈ l ∧ ∀ y, y ∈ l → y ≤ m.
Proof.
  destruct l as [|x l]; [done|]. intros _.
  exists (fold_left Z.max l x). split; [done|]. apply fold_max_spec.
Qed.

(** ** [neighbors_of] *)

Lemma neighbors_of_spec es source g v u :
  dag_ok es source g →
  u ∈ neighbors_of g v ↔ u ≠ v ∧ (edge_rel es u v ∨ edge_rel es v u).
Proof.
  intros Hok. unfold neighbors_of.
  rewrite (ok_rev_adj _ _ _ Hok), (ok_adj _ _ _ Hok). unfold adj_list.
  rewrite <- !list_fmap_compose.
  set (S := list_to_set _ ∪ list_to_set _).
  assert (HS : u ∈ S ↔ edge_rel es u v ∨ edge_rel es v u).
  { unfold S. rewrite elem_of_union, !elem_of_list_to_set, !list_elem_of_fmap.
    split.
    - intros [(e & -> & [He Hto]%elem_of_incoming)|(e & -> & [He Hfrom]%elem_of_outgoing)];
        [left|right]; exists (e_weight e); subst v; by destruct e as [[??]?].
    - intros [[w He]|[w He]]; [left; exists (u, v, w)|right; exists (v, u, w)];
        (split; [done|]); [by apply elem_of_incoming|by apply elem_of_outgoing]. }
  destruct (decide (v ∈ S)).
  - rewrite elem_of_difference, elem_of_singleton, HS. tauto.
  - rewrite HS. split; [|tauto]. intros H. split; [|done].
    intros ->. by apply HS in H.
Qed.

(** ** [propose_vprime_insertion] *)

Lemma positive_counts_sum (C : Z → Z) us :
  sumZ (snd <$> positive ((λ u, (u, C u)) <$> us)) =
  sumZ (C <$> filter (λ u, 0 < C u) us).
Proof.
  induction us as [|u us IH]; [done|].
  rewrite fmap_cons, positive_cons, filter_cons. simpl.
  destruct (decide (0 < C u)); [|done].
  by rewrite !fmap_cons, !sumZ_cons, IH.
Qed.

Lemma set_iter_nonempty (V : gset Z) x : x ∈ V → set_iter V ≠ [].
Proof.
  intros Hx%set_iter_elem_of Hnil. rewrite Hnil in Hx. by apply elem_of_nil in Hx.
Qed.

Lemma propose_cases es source g v w cnt :
  dag_ok es source g → path_counts g = Ok cnt →
  let C := int_get cnt in
  let us := filter (λ u, u ∉ neighbors_of g v) (set_iter (vertices g)) in
  let cands := sort_desc ((λ u, (u, C u)) <$> us) in
  ∃ pk m,
    pk `sublist_of` positive cands ∧
    choose (C v) cands 0 [] = (sumZ (snd <$> pk), fst <$> pk) ∧
    m ∈ vertices g ∧ (∀ y, y ∈ vertices g → y ≤ m) ∧
    propose_vprime_insertion g v w =
      if decide (sumZ (snd <$> pk) ≤ C v)
      then Ok (false, [], Imposible v (sumZ (snd <$> pk)) (C v))
      else Ok (true, (λ u, (u, m + 1, w)) <$> (fst <$> pk),
               Padres (m + 1) (fst <$> pk) (sumZ (snd <$> pk)) (C v)).
Proof.
  intros Hok Hcnt C us cands.
  destruct (choose_picked (C v) cands 0 []) as (pk & Hsub & Hch).
  rewrite Z.add_0_l, app_nil_l in Hch.
  destruct (py_max_spec (set_iter (vertices g))) as (m & Hm & Hin & Hmax).
  { apply (set_iter_nonempty _ source), (ok_vertices _ _ _ Hok). by left. }
  exists pk, m. split_and!; try done.
  - by apply set_iter_elem_of.
  - intros y Hy. by apply Hmax, set_iter_elem_of.
  - unfold propose_vprime_insertion. rewrite Hcnt. simpl.
    fold C. fold us. fold cands. rewrite Hch.
    destruct (decide (sumZ (snd <$> pk) ≤ C v)); [done|].
    by rewrite Hm.
Qed.

Lemma elem_of_cands (C : Z → Z) (us : list Z) x :
  x ∈ sort_desc ((λ u, (u, C u)) <$> us) ↔ x.1 ∈ us ∧ x.2 = C x.1.
Proof.
  rewrite sort_desc_perm, list_elem_of_fmap. split.
  - by intros (u & -> & Hu).
  - intros [H1 H2]. exists x.1. split; [|done]. destruct x; simpl in *. by subst.
Qed.

Lemma cands_fst (C : Z → Z) (us : list Z) :
  fst <$> sort_desc ((λ u, (u, C u)) <$> us) ≡ₚ us.
Proof.
  rewrite sort_desc_perm, <- list_fmap_compose. simpl.
  by rewrite list_fmap_id.
Qed.

(** The chosen parents: distinct, among the candidates, of positive count. *)
Lemma picked_facts (C : Z → Z) (us : list Z) pk :
  NoDup us →
  pk `sublist_of` positive (sort_desc ((λ u, (u, C u)) <$> us)) →
  NoDup (fst <$> pk) ∧
  (∀ p, p ∈ fst <$> pk → p ∈ us ∧ 0 < C p) ∧
  sumZ (C <$> (fst <$> pk)) = sumZ (snd <$> pk).
Proof.
  intros Hnd Hsub.
  assert (Hel : ∀ x, x ∈ pk → x.1 ∈ us ∧ x.2 = C x.1 ∧ 0 < x.2).
  { intros x Hx. eapply elem_of_sublist in Hx; [|done].
    apply list_elem_of_filter in Hx as [Hpos [H1 H2]%elem_of_cands]. done. }
  split_and!.
  - eapply sublist_NoDup; [|by apply fmap_sublist].
    eapply sublist_NoDup; [|apply fmap_sublist, sublist_filter].
    by rewrite cands_fst.
  - intros p (x & -> & Hx)%list_elem_of_fmap.
    destruct (Hel x Hx) as (H1 & H2 & H3). split; [done|lia].
  - rewrite <- list_fmap_compose. f_equal. apply fmap_ext_in.
    intros x Hx. destruct (Hel x Hx) as (_ & H2 & _). by rewrite H2.
Qed.

(** ** Main theorems *)

(** C1.  On a constructed graph and for a vertex [t] of it, [enumerate_paths]
    returns as many entries as [path_counts] gives for [t], and the list is
    empty exactly when [t] cannot be reached from the source. *)
Theorem C1_enumeration_matches_count es source g t :
  new_DAG es source = Ok g → t ∈ vertices g →
  ∃ cnt res,
    path_counts g = Ok cnt ∧
    (∀ fuel, (size (vertices g) ≤ fuel)%nat → enumerate_paths fuel g t = Ok res) ∧
    cnt !! t = Some (Z.of_nat (length res)) ∧
    (res = [] ↔ ¬ reachable es source t).
Proof.
  intros Hok%new_DAG_ok Ht.
  destruct (counts_facts _ _ _ Hok) as (cnt & Hcnt & Hkeys & Hnn & Hrec & Hsrc & Hreach).
  destruct (enumerate_paths_ok es source g t Hok) as (res & Hres & Hlen).
  rewrite (npaths_count es source g cnt t Hok Hcnt Ht) in Hlen.
  exists cnt, res. split_and!; [done|done| |].
  - rewrite Hlen. by apply int_get_lookup, Hkeys.
  - rewrite <- Hreach, <- Hlen. destruct res; simpl; split; intros; try done; lia.
Qed.

(** C2.  On a constructed graph the count of a vertex other than the source
    with an incoming edge is the sum of the counts of the origins of its
    incoming edges, an edge that occurs several times counting each time. *)
Theorem C2_count_recurrence es source g v :
  new_DAG es source = Ok g → v ≠ source → incoming es v ≠ [] →
  ∃ cnt,
    path_counts g = Ok cnt ∧
    (∀ e, e ∈ incoming es v → is_Some (cnt !! e_from e)) ∧
    cnt !! v = Some (sumZ ((λ e, int_get cnt (e_from e)) <$> incoming es v)).
Proof.
  intros Hok%new_DAG_ok Hv Hin.
  destruct (counts_facts _ _ _ Hok) as (cnt & Hcnt & Hkeys & Hnn & Hrec & Hsrc & Hreach).
  exists cnt. split_and!; [done| |].
  - intros e [He _]%elem_of_incoming. apply Hkeys, (ok_vertices _ _ _ Hok).
    right. exists e. auto.
  - destruct (incoming es v) as [|e l] eqn:Hl; [done|].
    assert (He : e ∈ incoming es v) by (rewrite Hl; left).
    apply elem_of_incoming in He as [He Hto].
    rewrite int_get_lookup.
    + rewrite Hrec, Hl. unfold at_src. rewrite decide_False by done. f_equal.
    + apply Hkeys, (ok_vertices _ _ _ Hok). right. exists e. auto.
Qed.

(** C3.  On a constructed graph the count of the source is 1, also when edges
    arrive at it, and the count of a vertex that cannot be reached is 0. *)
Theorem C3_source_and_unreachable es source g :
  new_DAG es source = Ok g →
  ∃ cnt,
    path_counts g = Ok cnt ∧
    cnt !! source = Some 1 ∧
    ∀ v, v ∈ vertices g → ¬ reachable es source v → cnt !! v = Some 0.
Proof.
  intros Hok%new_DAG_ok.
  destruct (counts_facts _ _ _ Hok) as (cnt & Hcnt & Hkeys & Hnn & Hrec & Hsrc & Hreach).
  exists cnt. split_and!; [done| |].
  - rewrite <- Hsrc. apply int_get_lookup, Hkeys, (ok_vertices _ _ _ Hok). by left.
  - intros v Hv Hn. rewrite int_get_lookup by (by apply Hkeys). f_equal.
    pose proof (Hnn v). destruct (decide (0 < int_get cnt v)) as [Hp|]; [|lia].
    by apply Hreach in Hp.
Qed.

(** C4.  Construction raises exactly when the edges hold a cycle, as for the
    two edges between 0 and 1, and returns a graph otherwise; when it
    succeeds the stored order lists every vertex once and every edge goes
    forwards in it. *)
Theorem C4_cycle_detection es source :
  (new_DAG es source = Raise ValueError ↔ cyclic es) ∧
  ((∃ g, new_DAG es source = Ok g) ↔ ¬ cyclic es) ∧
  (∀ g, new_DAG es source = Ok g →
     topo g ≡ₚ elements (vertices g) ∧
     ∀ u v w, (u, v, w) ∈ es → precedes (topo g) u v) ∧
  new_DAG ciclo 0 = Raise ValueError.
Proof.
  split_and!.
  - destruct (new_DAG_cases es source) as [[Hc ->]|(g & -> & Hok)]; [done|].
    split; [done|]. intros Hc. by destruct (ok_acyclic _ _ _ Hok).
  - destruct (new_DAG_cases es source) as [[Hc ->]|(g & -> & Hok)].
    + split; [by intros [g ?]|done].
    + split; [intros _; apply (ok_acyclic _ _ _ Hok)|by exists g].
  - intros g Hok%new_DAG_ok. split.
    + apply NoDup_Permutation; [apply (ok_topo_nodup _ _ _ Hok)|apply NoDup_elements|].
      intros x. rewrite elem_of_elements. apply (ok_topo_elem _ _ _ Hok).
    + intros u v w He. apply (dag_ok_precedes _ _ _ _ Hok He).
  - destruct (new_DAG_cases ciclo 0) as [[_ ->]|(g & _ & Hok)]; [done|].
    destruct (ok_acyclic _ _ _ Hok). apply cyclic_ciclo.
Qed.

(** C5.  For a vertex [v] of a constructed graph the proposal succeeds
    exactly when the counts of the vertices that are not neighbors of [v] and
    have a positive count sum to more than the count of [v]; when it does not
    succeed, no edge is returned. *)
Theorem C5_feasibility es source g v w :
  new_DAG es source = Ok g → v ∈ vertices g →
  ∃ cnt ok new_edges msg,
    path_counts g = Ok cnt ∧
    propose_vprime_insertion g v w = Ok (ok, new_edges, msg) ∧
    (ok = true ↔
       sumZ (int_get cnt <$>
               filter (λ u, (u ∉ neighbors_of g v) ∧ 0 < int_get cnt u)
                      (elements (vertices g))) > int_get cnt v) ∧
    (ok = false → new_edges = []).
Proof.
  intros Hok%new_DAG_ok Hv.
  destruct (counts_facts _ _ _ Hok) as (cnt & Hcnt & _).
  destruct (propose_cases es source g v w cnt Hok Hcnt)
    as (pk & m & Hsub & Hch & Hm & Hmax & Hp).
  set (C := int_get cnt) in *.
  set (us := filter (λ u, u ∉ neighbors_of g v) (set_iter (vertices g))) in *.
  set (cands := sort_desc ((λ u, (u, C u)) <$> us)) in *.
  assert (Htot : sumZ (snd <$> pk) > C v ↔
            sumZ (C <$> filter (λ u, (u ∉ neighbors_of g v) ∧ 0 < C u)
                               (elements (vertices g))) > C v).
  { pose proof (choose_total (C v) cands 0 []) as Ht.
    rewrite Hch in Ht. simpl in Ht. rewrite Ht, Z.add_0_l.
    unfold cands, positive. rewrite sort_desc_perm.
    fold (positive ((λ u, (u, C u)) <$> us)).
    rewrite positive_counts_sum. unfold us.
    rewrite list_filter_filter.
    rewrite (set_iter_perm (vertices g)).
    rewrite (list_filter_iff (λ u, 0 < C u ∧ (u ∉ neighbors_of g v))
                             (λ u, (u ∉ neighbors_of g v) ∧ 0 < C u)); [done|].
    intros; tauto. }
  subst cands us C.
  destruct (decide (sumZ (snd <$> pk) ≤ int_get cnt v)) as [Hle|Hgt].
  - eexists cnt, false, [], _. split_and!; [done|done| |done].
    rewrite <- Htot. split; [done|lia].
  - eexists cnt, true, _, _. split_and!; [done|done| |done].
    rewrite <- Htot. split; [lia|done].
Qed.

(** C6.  When the proposal for a vertex [v] of a constructed graph succeeds,
    every edge it returns goes from a parent to the same new vertex, one more
    than the greatest vertex, with the default weight; the parents are
    distinct vertices of the graph, none a neighbor of [v], each of positive
    count, and their counts sum to more than the count of [v]. *)
Theorem C6_proposal_shape es source g v w new_edges msg :
  new_DAG es source = Ok g → v ∈ vertices g →
  propose_vprime_insertion g v w = Ok (true, new_edges, msg) →
  ∃ cnt parents m,
    path_counts g = Ok cnt ∧
    m ∈ vertices g ∧ (∀ y, y ∈ vertices g → y ≤ m) ∧
    (∀ y, y ∈ vertices g → y < m + 1) ∧
    new_edges = (λ p, (p, m + 1, w)) <$> parents ∧
    NoDup parents ∧
    (∀ p, p ∈ parents →
       p ∈ vertices g ∧ (p ∉ neighbors_of g v) ∧ 0 < int_get cnt p) ∧
    sumZ (int_get cnt <$> parents) > int_get cnt v.
Proof.
  intros Hok%new_DAG_ok Hv Hprop.
  destruct (counts_facts _ _ _ Hok) as (cnt & Hcnt & _).
  destruct (propose_cases es source g v w cnt Hok Hcnt)
    as (pk & m & Hsub & Hch & Hm & Hmax & Hp).
  rewrite Hprop in Hp.
  destruct (decide (sumZ (snd <$> pk) ≤ int_get cnt v)) as [Hle|Hgt]; [done|].
  simplify_eq.
  destruct (picked_facts (int_get cnt)
              (filter (λ u, u ∉ neighbors_of g v) (set_iter (vertices g))) pk)
    as (Hnd & Hel & Hsum); [apply NoDup_filter, set_iter_NoDup|done|].
  exists cnt, (fst <$> pk), m. split_and!; try done.
  - intros y Hy. pose proof (Hmax y Hy). lia.
  - intros p Hin. destruct (Hel p Hin) as [[Hb Hin']%list_elem_of_filter Hpos].
    split_and!; [by apply set_iter_elem_of|done|done].
  - rewrite Hsum. lia.
Qed.

(** C7.  On a constructed graph [neighbors_of v] never holds [v], and it
    holds [u] exactly when some edge joins [u] and [v] in either direction. *)
Theorem C7_neighbors es source g v :
  new_DAG es source = Ok g →
  (v ∉ neighbors_of g v) ∧
  ∀ u, u ∈ neighbors_of g v ↔ (∃ w, (u, v, w) ∈ es) ∨ (∃ w, (v, u, w) ∈ es).
Proof.
  intros Hok%new_DAG_ok. split.
  - intros [Hne _]%(neighbors_of_spec es source g v v Hok). done.
  - intros u. rewrite (neighbors_of_spec es source g v u Hok).
    split; [tauto|]. intros H. split; [|done].
    intros ->. apply (ok_acyclic _ _ _ Hok). exists v. apply tc_once.
    destruct H as [H|H]; exact H.
Qed.

(** C9.  On a constructed graph [enumerate_paths] returns a list for every
    target: a depth of recursion of the number of vertices is enough, and
    more depth gives the same list. *)
Theorem C9_enumeration_terminates es source g t :
  new_DAG es source = Ok g →
  ∃ res, ∀ fuel, (size (vertices g) ≤ fuel)%nat →
                 enumerate_paths fuel g t = Ok res.
Proof.
  intros Hok%new_DAG_ok.
  destruct (enumerate_paths_ok es source g t Hok) as (res & Hres & _).
  by exists res.
Qed.

(** C10.  For an identifier [v] that is not a vertex of a constructed graph
    the proposal succeeds with one edge, from a vertex of greatest count to
    one more than the greatest vertex: nothing is a neighbor of [v], the
    count to exceed is 0, and the source has count 1. *)
Theorem C10_unknown_vertex es source g v w :
  new_DAG es source = Ok g → v ∉ vertices g →
  ∃ cnt p m msg,
    path_counts g = Ok cnt ∧
    propose_vprime_insertion g v w = Ok (true, [(p, m + 1, w)], msg) ∧
    m ∈ vertices g ∧ (∀ y, y ∈ vertices g → y ≤ m) ∧
    p ∈ vertices g ∧ (∀ y, y ∈ vertices g → int_get cnt y ≤ int_get cnt p) ∧
    neighbors_of g v = ∅ ∧ cnt !! v = None ∧ cnt !! source = Some 1.
Proof.
  intros Hok%new_DAG_ok Hv.
  destruct (counts_facts _ _ _ Hok) as (cnt & Hcnt & Hkeys & Hnn & Hrec & Hsrc & _).
  destruct (propose_cases es source g v w cnt Hok Hcnt)
    as (pk & m & _ & Hch & Hm & Hmax & Hp).
  assert (HsV : source ∈ vertices g) by (apply (ok_vertices _ _ _ Hok); by left).
  assert (Hnb : neighbors_of g v = ∅).
  { apply set_eq. intros u. rewrite (neighbors_of_spec es source g v u Hok).
    split; [|by intros ?%not_elem_of_empty].
    intros [_ [[w' He]|[w' He]]]; destruct Hv; apply (ok_vertices _ _ _ Hok);
      right; eexists; (split; [exact He|]); [by right|by left]. }
  assert (Hnone : cnt !! v = None).
  { destruct (cnt !! v) eqn:Hl; [|done]. destruct Hv. apply Hkeys. by eexists. }
  assert (Hv0 : int_get cnt v = 0) by (unfold int_get; by rewrite Hnone).
  rewrite Hnb in Hch.
  rewrite (filter_all (λ u, u ∉ (∅ : gset Z))) in Hch
    by (intros; apply not_elem_of_empty).
  destruct (sort_desc ((λ u, (u, int_get cnt u)) <$> set_iter (vertices g)))
    as [|x r] eqn:Hs.
  { pose proof (sort_desc_perm ((λ u, (u, int_get cnt u)) <$> set_iter (vertices g)))
      as Hperm.
    rewrite Hs in Hperm. apply Permutation_nil_l in Hperm.
    symmetry in Hperm. apply fmap_nil_inv in Hperm.
    by apply (set_iter_nonempty _ _ HsV) in Hperm. }
  apply sort_desc_head in Hs as [Hx Hxmax].
  apply list_elem_of_fmap in Hx as (p & -> & Hp_in%set_iter_elem_of).
  assert (Hcmax : ∀ y, y ∈ vertices g → int_get cnt y ≤ int_get cnt p).
  { intros y Hy. apply (Hxmax (y, int_get cnt y)).
    apply list_elem_of_fmap. exists y. split; [done|]. by apply set_iter_elem_of. }
  assert (Hpos : 0 < int_get cnt p).
  { pose proof (Hcmax source HsV). lia. }
  cbn [choose] in Hch.
  rewrite decide_False, decide_True in Hch by lia.
  injection Hch as Htot Hfst.
  rewrite <- Htot, <- Hfst, decide_False in Hp by lia. simpl in Hp.
  eexists cnt, p, m, _. split_and!; try done.
  rewrite <- Hsrc. by apply int_get_lookup, Hkeys.
Qed.

(** ** The graph of the statement *)

Lemma rank_acyclic (rank : Z → Z) es :
  (∀ e, e ∈ es → rank (e_from e) < rank (e_to e)) → ¬ cyclic es.
Proof.
  intros Hrank [v Hv].
  assert (H : ∀ x y, tc (edge_rel es) x y → rank x < rank y).
  { induction 1 as [x y [w He]|x y z [w He] _ IH].
    - apply (Hrank _ He).
    - pose proof (Hrank _ He) as Hlt. unfold e_from, e_to in Hlt. simpl in Hlt. lia. }
  apply H in Hv. lia.
Qed.

Lemma new_DAG_fields es source g :
  new_DAG es source = Ok g →
  edges g = es ∧ src g = source ∧
  (adj g, rev_adj g, vertices g) = init_fields es source.
Proof.
  unfold new_DAG. destruct (init_fields es source) as [[a r] vs].
  destruct (validate_dag (size vs) es a vs) as [tp| |]; simpl; try done.
  by intros [= <-].
Qed.

Lemma enunciado_acyclic : ¬ cyclic enunciado.
Proof.
  apply (rank_acyclic (λ v, if decide (v = 3) then 9 else 2 * v)).
  apply Forall_forall. unfold enunciado.
  repeat (constructor; [done|]). constructor.
Qed.

(** Evaluates the recurrence of the counts at the vertex [k]. *)
Ltac count_at Hrec k :=
  rewrite (Hrec k);
  let l := eval vm_compute in (incoming enunciado k) in
  change (incoming enunciado k) with l;
  let a := eval vm_compute in (at_src 0 k) in
  change (at_src 0 k) with a;
  cbn [fmap list_fmap sumZ foldr e_from fst snd].

Lemma enunciado_counts g cnt :
  dag_ok enunciado 0 g → path_counts g = Ok cnt →
  int_get cnt 0 = 1 ∧ int_get cnt 1 = 1 ∧ int_get cnt 2 = 1 ∧
  int_get cnt 6 = 1 ∧ int_get cnt 8 = 10.
Proof.
  intros Hok Hcnt.
  destruct (counts_facts _ _ _ Hok) as (cnt' & Hcnt' & _ & _ & Hrec & Hsrc & _).
  rewrite Hcnt in Hcnt'. injection Hcnt' as <-.
  assert (H1 : int_get cnt 1 = 1) by (count_at Hrec 1; lia).
  assert (H2 : int_get cnt 2 = 1) by (count_at Hrec 2; lia).
  assert (H4 : int_get cnt 4 = 2) by (count_at Hrec 4; lia).
  assert (H3 : int_get cnt 3 = 3) by (count_at Hrec 3; lia).
  assert (H5 : int_get cnt 5 = 1) by (count_at Hrec 5; lia).
  assert (H6 : int_get cnt 6 = 1) by (count_at Hrec 6; lia).
  assert (H7 : int_get cnt 7 = 4) by (count_at Hrec 7; lia).
  assert (H8 : int_get cnt 8 = 10) by (count_at Hrec 8; lia).
  done.
Qed.

Lemma enunciado_candidates g :
  new_DAG enunciado 0 = Ok g →
  elements (vertices g) ≡ₚ [0; 1; 2; 3; 4; 5; 6; 7; 8] ∧
  filter (λ u, u ∉ neighbors_of g 8) (elements (vertices g)) ≡ₚ [0; 1; 2; 6; 8].
Proof.
  intros (_ & _ & Hf)%new_DAG_fields.
  assert (Ha : adj g = (init_fields enunciado 0).1.1) by (by rewrite <- Hf).
  assert (Hr : rev_adj g = (init_fields enunciado 0).1.2) by (by rewrite <- Hf).
  assert (Hv : vertices g = (init_fields enunciado 0).2) by (by rewrite <- Hf).
  unfold neighbors_of. rewrite Ha, Hr, Hv.
  split; apply (bool_decide_unpack _); vm_compute; exact I.
Qed.

Lemma enunciado_check_all :
  Forall (λ us, enunciado_check us = true) (permutations [0; 1; 2; 6; 8]).
Proof. apply (bool_decide_unpack _). vm_compute. exact I. Qed.

(** C8.  On the graph of the statement with source 0 the proposal for vertex
    8 succeeds with the new vertex 9 and two edges into it, one from 8 and
    one from a vertex among 0, 1, 2 and 6. *)
Theorem C8_enunciado_proposal :
  ∃ g p msg,
    new_DAG enunciado 0 = Ok g ∧
    propose_vprime_insertion g 8 0 = Ok (true, [(8, 9, 0); (p, 9, 0)], msg) ∧
    (p = 0 ∨ p = 1 ∨ p = 2 ∨ p = 6).
Proof.
  destruct (new_DAG_cases enunciado 0) as [[Hc _]|(g & Hg & Hok)];
    [by apply enunciado_acyclic in Hc|].
  destruct (counts_facts _ _ _ Hok) as (cnt & Hcnt & _).
  destruct (enunciado_counts g cnt Hok Hcnt) as (H0 & H1 & H2 & H6 & H8).
  destruct (enunciado_candidates g Hg) as [HV Hus].
  destruct (propose_cases enunciado 0 g 8 0 cnt Hok Hcnt)
    as (pk & m & _ & Hch & Hm & Hmax & Hp).
  set (us := filter (λ u, u ∉ neighbors_of g 8) (set_iter (vertices g))) in *.
  assert (Hperm : us ≡ₚ [0; 1; 2; 6; 8]).
  { unfold us. by rewrite (set_iter_perm (vertices g)). }
  assert (HK : (λ u, (u, int_get cnt u)) <$> us =
               (λ u, (u, if decide (u = 8) then 10 else 1)) <$> us).
  { apply fmap_ext_in. intros u Hu. rewrite Hperm in Hu. f_equal.
    repeat (apply elem_of_cons in Hu as [->|Hu]; [by rewrite ?decide_True, ?decide_False by done|]).
    by apply elem_of_nil in Hu. }
  assert (Hcheck : enunciado_check us = true).
  { apply (proj1 (Forall_forall _ _) enunciado_check_all).
    by apply permutations_Permutation. }
  assert (Hm8 : m = 8).
  { assert (8 ≤ m).
    { apply Hmax, elem_of_elements. rewrite HV. by apply (bool_decide_unpack _). }
    apply elem_of_elements in Hm. rewrite HV in Hm.
    repeat (apply elem_of_cons in Hm as [->|Hm]; [lia|]).
    by apply elem_of_nil in Hm. }
  rewrite HK, H8 in Hch. fold (enunciado_choice us) in Hch.
  unfold enunciado_check in Hcheck. rewrite Hch in Hcheck.
  destruct (fst <$> pk) as [|a [|b [|c l]]]; try done.
  apply bool_decide_eq_true in Hcheck as (Ht & -> & Hb).
  rewrite Ht, H8, decide_False, Hm8 in Hp by lia.
  by eexists g, b, _.
Qed.

(** ** Rebuilding the graph with the proposed edges *)

(** The recurrence of the counts has one solution along a topological order. *)
Lemma count_unique es s tp (C C' : Z → Z) :
  order_ok es tp →
  (∀ v, v ∈ tp →
     C v = at_src s v + sumZ ((λ e, C (e_from e)) <$> incoming es v)) →
  (∀ v, v ∈ tp →
     C' v = at_src s v + sumZ ((λ e, C' (e_from e)) <$> incoming es v)) →
  ∀ v, v ∈ tp → C v = C' v.
Proof.
  intros Hord HC HC'.
  assert (H : ∀ (n j : nat) v, (j < n)%nat → tp !! j = Some v → C v = C' v).
  { induction n as [|n IH]; intros j v Hj Hlk; [lia|].
    assert (Hv : v ∈ tp) by (apply list_elem_of_lookup; eauto).
    rewrite (HC v Hv), (HC' v Hv). do 2 f_equal.
    apply fmap_ext_in. intros e [He Hto]%elem_of_incoming.
    destruct (Hord j e He) as (i & Hi & Hlki); [by rewrite Hto|].
    apply (IH i); [lia|done]. }
  intros v [j Hj]%list_elem_of_lookup. by apply (H (S j) j); [lia|].
Qed.

(** Edges into a vertex that no edge leaves close no cycle. *)
Lemma acyclic_extend es new vp :
  ¬ cyclic es →
  (∀ e, e ∈ new → e_to e = vp) →
  (∀ e, e ∈ es ++ new → e_from e ≠ vp) →
  ¬ cyclic (es ++ new).
Proof.
  intros Hac Hto Hfrom [x Hx].
  assert (Hsink : ∀ y, ¬ tc (edge_rel (es ++ new)) vp y).
  { intros y Hy. assert (∃ z, edge_rel (es ++ new) vp z) as (z & w & He).
    { destruct Hy; eauto. }
    by apply (Hfrom _ He). }
  assert (H : ∀ a b, tc (edge_rel (es ++ new)) a b → tc (edge_rel es) a b ∨ b = vp).
  { induction 1 as [a b [w He]|a b c [w He] Hbc IH].
    - apply elem_of_app in He as [He|He]; [left; apply tc_once; by exists w|].
      right. apply (Hto _ He).
    - apply elem_of_app in He as [He|He].
      + destruct IH as [IH|IH]; [|by right]. left. eapply tc_l; [by exists w|done].
      + pose proof (Hto _ He) as Hb. unfold e_to in Hb. simpl in Hb. subst b.
        by destruct (Hsink c). }
  destruct (H _ _ Hx) as [Hc| ->]; [apply Hac; by exists x|].
  by destruct (Hsink vp).
Qed.

Lemma incoming_app es new v : incoming (es ++ new) v = incoming es v ++ incoming new v.
Proof. unfold incoming. apply filter_app. Qed.

Lemma incoming_none es v : (∀ e, e ∈ es → e_to e ≠ v) → incoming es v = [].
Proof.
  intros H. destruct (incoming es v) as [|e l] eqn:Hl; [done|].
  assert (He : e ∈ incoming es v) by (rewrite Hl; left).
  apply elem_of_incoming in He as [He Hto]. by destruct (H e He).
Qed.

Lemma incoming_all es v : (∀ e, e ∈ es → e_to e = v) → incoming es v = es.
Proof. intros H. unfold incoming. by apply filter_all. Qed.

(** What a successful proposal returns. *)
Lemma propose_success es source g v w cnt new_edges msg :
  dag_ok es source g → path_counts g = Ok cnt →
  propose_vprime_insertion g v w = Ok (true, new_edges, msg) →
  ∃ parents m,
    m ∈ vertices g ∧ (∀ y, y ∈ vertices g → y ≤ m) ∧
    new_edges = (λ p, (p, m + 1, w)) <$> parents ∧
    NoDup parents ∧
    (∀ p, p ∈ parents →
       p ∈ vertices g ∧ (p ∉ neighbors_of g v) ∧ 0 < int_get cnt p) ∧
    sumZ (int_get cnt <$> parents) > int_get cnt v.
Proof.
  intros Hok Hcnt Hprop.
  destruct (propose_cases es source g v w cnt Hok Hcnt)
    as (pk & m & Hsub & Hch & Hm & Hmax & Hp).
  rewrite Hprop in Hp.
  destruct (decide (sumZ (snd <$> pk) ≤ int_get cnt v)) as [Hle|Hgt]; [done|].
  injection Hp as -> _.
  destruct (picked_facts (int_get cnt)
              (filter (λ u, u ∉ neighbors_of g v) (set_iter (vertices g))) pk)
    as (Hnd & Hel & Hsum); [apply NoDup_filter, set_iter_NoDup|done|].
  exists (fst <$> pk), m. split_and!; try done.
  - intros p Hin. destruct (Hel p Hin) as [[Hb Hin']%list_elem_of_filter Hpos].
    split_and!; [by apply set_iter_elem_of|done|done].
  - rewrite Hsum. lia.
Qed.

(** The graph with new edges from vertices of [g] into a fresh vertex. *)
Lemma rebuild_ok es source g parents vp w :
  dag_ok es source g →
  (∀ p, p ∈ parents → p ∈ vertices g) → vp ∉ vertices g →
  ∃ g',
    new_DAG (es ++ ((λ p, (p, vp, w)) <$> parents)) source = Ok g' ∧
    dag_ok (es ++ ((λ p, (p, vp, w)) <$> parents)) source g'.
Proof.
  intros Hok Hpar Hvp.
  destruct (new_DAG_cases (es ++ ((λ p, (p, vp, w)) <$> parents)) source)
    as [[Hc _]|H]; [|done].
  exfalso.
  apply (acyclic_extend es ((λ p, (p, vp, w)) <$> parents) vp); [| | |exact Hc].
  - apply (ok_acyclic _ _ _ Hok).
  - by intros e (p & -> & _)%list_elem_of_fmap.
  - intros e [He|(p & -> & Hp)%list_elem_of_fmap]%elem_of_app Heq.
    + apply Hvp, (ok_vertices _ _ _ Hok). right. exists e. auto.
    + unfold e_from in Heq. simpl in Heq. subst p. by apply Hvp, Hpar.
Qed.

(** The counts of the rebuilt graph: unchanged on the vertices of [g], and
    at the new vertex the sum of the counts of the parents. *)
Lemma rebuild_counts es source g g' parents vp w cnt cnt' :
  dag_ok es source g →
  (∀ p, p ∈ parents → p ∈ vertices g) → vp ∉ vertices g →
  dag_ok (es ++ ((λ p, (p, vp, w)) <$> parents)) source g' →
  path_counts g = Ok cnt → path_counts g' = Ok cnt' →
  (∀ x, x ∈ vertices g → int_get cnt' x = int_get cnt x) ∧
  int_get cnt' vp = sumZ (int_get cnt <$> parents).
Proof.
  intros Hok Hpar Hvp Hok' Hcnt Hcnt'.
  set (new := (λ p, (p, vp, w)) <$> parents) in *.
  destruct (counts_facts _ _ _ Hok) as (c & Hc & _ & _ & Hrec & _).
  rewrite Hcnt in Hc. injection Hc as <-.
  destruct (counts_facts _ _ _ Hok') as (c' & Hc' & _ & _ & Hrec' & _).
  rewrite Hcnt' in Hc'. injection Hc' as <-.
  assert (Hnew_to : ∀ e, e ∈ new → e_to e = vp).
  { by intros e (p & -> & _)%list_elem_of_fmap. }
  assert (Hold : ∀ x, x ∈ vertices g → int_get cnt' x = int_get cnt x).
  { intros x Hx. apply (count_unique es source (topo g)).
    - apply (ok_topo_order _ _ _ Hok).
    - intros v Hv. rewrite (Hrec' v) at 1. rewrite incoming_app.
      rewrite (incoming_none new v), app_nil_r; [done|].
      intros e He Heq. rewrite (Hnew_to e He) in Heq. subst v.
      by apply Hvp, (ok_topo_elem _ _ _ Hok).
    - intros v _. apply Hrec.
    - by apply (ok_topo_elem _ _ _ Hok). }
  split; [done|].
  rewrite (Hrec' vp), incoming_app.
  rewrite (incoming_none es vp), app_nil_l.
  - rewrite (incoming_all new vp Hnew_to).
    unfold at_src. rewrite decide_False.
    + unfold new. rewrite <- list_fmap_compose, Z.add_0_l. f_equal.
      apply fmap_ext_in. intros p Hp. simpl. by apply Hold, Hpar.
    + intros ->. apply Hvp, (ok_vertices _ _ _ Hok). by left.
  - intros e He Heq. apply Hvp, (ok_vertices _ _ _ Hok). right. exists e. auto.
Qed.

(** X1.  When the proposal for [v] succeeds, the graph built from the old
    edges and the proposed ones is accepted, the counts of the old vertices
    are what they were, and the new vertex has more paths than [v]; if [v]
    had the most paths, the new vertex now has strictly the most. *)
Theorem X1_insertion_more_reachable es source g v w new_edges msg :
  new_DAG es source = Ok g →
  propose_vprime_insertion g v w = Ok (true, new_edges, msg) →
  ∃ g' cnt cnt' vp,
    new_DAG (es ++ new_edges) source = Ok g' ∧
    path_counts g = Ok cnt ∧ path_counts g' = Ok cnt' ∧
    (∀ x, x ∈ vertices g' ↔ x = vp ∨ x ∈ vertices g) ∧ (vp ∉ vertices g) ∧
    (∀ x, x ∈ vertices g → cnt' !! x = cnt !! x) ∧
    (∃ n, cnt' !! vp = Some n ∧ n > int_get cnt v) ∧
    ((∀ x, x ∈ vertices g → int_get cnt x ≤ int_get cnt v) →
     ∀ x, x ∈ vertices g' → x ≠ vp → int_get cnt' x < int_get cnt' vp).
Proof.
  intros Hok%new_DAG_ok Hprop.
  destruct (counts_facts _ _ _ Hok) as (cnt & Hcnt & Hkeys & Hnn & _).
  destruct (propose_success _ _ _ _ _ _ _ _ Hok Hcnt Hprop)
    as (parents & m & Hm & Hmax & -> & Hnd & Hpar & Hsum).
  assert (Hvp : m + 1 ∉ vertices g).
  { intros Hin. apply Hmax in Hin. lia. }
  assert (HparV : ∀ p, p ∈ parents → p ∈ vertices g) by (intros p Hp; by apply Hpar).
  destruct (rebuild_ok es source g parents (m + 1) w Hok HparV Hvp) as (g' & Hg' & Hok').
  destruct (counts_facts _ _ _ Hok') as (cnt' & Hcnt' & Hkeys' & _).
  destruct (rebuild_counts es source g g' parents (m + 1) w cnt cnt'
              Hok HparV Hvp Hok' Hcnt Hcnt') as [Hold Hnew].
  assert (HV' : ∀ x, x ∈ vertices g' ↔ x = m + 1 ∨ x ∈ vertices g).
  { intros x. rewrite (ok_vertices _ _ _ Hok'), (ok_vertices _ _ _ Hok). split.
    - intros [->|(e & [He|(p & -> & Hp)%list_elem_of_fmap]%elem_of_app & Hx)].
      + right. by left.
      + right. right. by exists e.
      + unfold e_from, e_to in Hx. simpl in Hx. destruct Hx as [->| ->]; [|by left].
        right. by apply (ok_vertices _ _ _ Hok), HparV.
    - intros [->|[->|(e & He & Hx)]].
      + destruct parents as [|p ps].
        { simpl in Hsum. pose proof (Hnn v). lia. }
        right. exists (p, m + 1, w). split; [|by right].
        apply elem_of_app. right. rewrite fmap_cons. left.
      + by left.
      + right. exists e. split; [|done]. apply elem_of_app. by left. }
  exists g', cnt, cnt', (m + 1). split_and!; try done.
  - intros x Hx. rewrite !int_get_lookup, (Hold x Hx); [done|by apply Hkeys|].
    apply Hkeys', HV'. by right.
  - exists (int_get cnt' (m + 1)). split; [|lia].
    apply int_get_lookup, Hkeys', HV'. by left.
  - intros Hbest x [->|Hx]%HV' Hne; [done|].
    rewrite (Hold x Hx). pose proof (Hbest x Hx). lia.
Qed.

(** X2.  When the proposal for [v] succeeds, in the graph built from the old
    edges and the proposed ones the neighbors of the new vertex are the
    chosen parents, and no neighbor of [v] is among them. *)
Theorem X2_insertion_avoids_neighbors es source g v w new_edges msg :
  new_DAG es source = Ok g →
  propose_vprime_insertion g v w = Ok (true, new_edges, msg) →
  ∃ g' vp,
    new_DAG (es ++ new_edges) source = Ok g' ∧ (vp ∉ vertices g) ∧
    (∀ u, u ∈ neighbors_of g' vp ↔ ∃ w', (u, vp, w') ∈ new_edges) ∧
    (∀ u, u ∈ neighbors_of g v → u ∉ neighbors_of g' vp).
Proof.
  intros Hok%new_DAG_ok Hprop.
  destruct (counts_facts _ _ _ Hok) as (cnt & Hcnt & _).
  destruct (propose_success _ _ _ _ _ _ _ _ Hok Hcnt Hprop)
    as (parents & m & Hm & Hmax & -> & Hnd & Hpar & Hsum).
  assert (Hvp : m + 1 ∉ vertices g).
  { intros Hin. apply Hmax in Hin. lia. }
  assert (HparV : ∀ p, p ∈ parents → p ∈ vertices g) by (intros p Hp; by apply Hpar).
  destruct (rebuild_ok es source g parents (m + 1) w Hok HparV Hvp) as (g' & Hg' & Hok').
  assert (Hnb : ∀ u, u ∈ neighbors_of g' (m + 1) ↔ u ∈ parents).
  { intros u. rewrite (neighbors_of_spec _ _ _ _ _ Hok'). split.
    - intros [Hne [[w' He]|[w' He]]].
      + apply elem_of_app in He as [He|(p & [= -> _] & Hp)%list_elem_of_fmap]; [|done].
        destruct Hvp. apply (ok_vertices _ _ _ Hok). right. eexists. split; [done|by right].
      + apply elem_of_app in He as [He|(p & Heq & Hp)%list_elem_of_fmap].
        * destruct Hvp. apply (ok_vertices _ _ _ Hok). right. eexists. split; [done|by left].
        * injection Heq as <- _ _. by apply HparV in Hp.
    - intros Hp. split; [intros ->; by apply HparV in Hp|].
      left. exists w. apply elem_of_app. right. apply list_elem_of_fmap. by exists u. }
  exists g', (m + 1). split_and!; [done|done| |].
  - intros u. rewrite Hnb. split.
    + intros Hp. exists w. apply list_elem_of_fmap. by exists u.
    + by intros (w' & (p & [= -> _] & Hp)%list_elem_of_fmap).
  - intros u Hu Hu'%Hnb. by apply Hpar in Hu' as (_ & ? & _).
Qed.

(** ** The paths that are enumerated *)

Lemma suffixes_S fuel E t u :
  suffixes (S fuel) E t u =
  if decide (u = t) then [([], 0)]
  else outgoing E u ≫= λ e,
         (λ pc, (e_to e :: pc.1, e_weight e + pc.2)) <$> suffixes fuel E t (e_to e).
Proof. done. Qed.

Lemma walk_last E u chain v : walk E u chain v → chain ≠ [] → tc (edge_rel E) u v.
Proof.
  induction 1 as [u|e chain v He Hw IH]; intros Hne; [done|].
  assert (Hedge : edge_rel E (e_from e) (e_to e)).
  { exists (e_weight e). by destruct e as [[??]?]. }
  destruct chain as [|e' chain]; [inversion Hw; subst; by apply tc_once|].
  eapply tc_l; [done|]. by apply IH.
Qed.

Lemma walk_reach E u chain v x :
  walk E u chain v → x ∈ e_to <$> chain → tc (edge_rel E) u x.
Proof.
  induction 1 as [u|e chain v He Hw IH]; intros Hx; [by apply elem_of_nil in Hx|].
  assert (Hedge : edge_rel E (e_from e) (e_to e)).
  { exists (e_weight e). by destruct e as [[??]?]. }
  rewrite fmap_cons in Hx. apply elem_of_cons in Hx as [->|Hx]; [by apply tc_once|].
  eapply tc_l; [done|]. by apply IH.
Qed.

(** Without a cycle a chain of edges passes no vertex twice. *)
Lemma walk_NoDup E u chain v :
  ¬ cyclic E → walk E u chain v → NoDup (u :: (e_to <$> chain)).
Proof.
  intros Hac. induction 1 as [u|e chain v He Hw IH].
  - apply NoDup_singleton.
  - rewrite fmap_cons. apply NoDup_cons. split; [|done].
    assert (Hedge : edge_rel E (e_from e) (e_to e)).
    { exists (e_weight e). by destruct e as [[??]?]. }
    intros [Heq|Hx]%elem_of_cons; apply Hac; exists (e_from e).
    + apply tc_once. by rewrite Heq at 2.
    + eapply tc_l; [done|]. by eapply walk_reach.
Qed.

Lemma walk_ends E u chain v :
  walk E u chain v → last (u :: (e_to <$> chain)) = Some v.
Proof.
  induction 1 as [u|e chain v He Hw IH]; [done|].
  rewrite fmap_cons, last_cons, IH. done.
Qed.

(** Whatever [suffixes] lists is a chain of edges to the target. *)
Lemma suffixes_sound E t fuel : ∀ u pc,
  pc ∈ suffixes fuel E t u →
  ∃ chain, walk E u chain t ∧ pc.1 = e_to <$> chain ∧
           pc.2 = sumZ (e_weight <$> chain).
Proof.
  induction fuel as [|f IH]; intros u pc Hpc; [by apply elem_of_nil in Hpc|].
  rewrite suffixes_S in Hpc. destruct (decide (u = t)) as [->|Hne].
  - apply list_elem_of_singleton in Hpc as ->. exists []. split; [constructor|done].
  - apply list_elem_of_bind in Hpc as (e & Hpc & [He Hfrom]%elem_of_outgoing).
    apply list_elem_of_fmap in Hpc as (pc' & -> & Hpc').
    destruct (IH _ _ Hpc') as (chain & Hw & H1 & H2).
    exists (e :: chain). split_and!.
    + rewrite <- Hfrom. by constructor.
    + simpl. by rewrite H1.
    + simpl. by rewrite H2.
Qed.

Section PathList.

Variable g : DAG.
Variable es : list Edge.
Variable tp : list Z.
Variable t : Z.
Hypothesis g_adj : ∀ u, dd_get (adj g) u = adj_list es u.
Hypothesis tp_nodup : NoDup tp.
Hypothesis tp_order : order_ok es tp.
Hypothesis tp_closed : ∀ e, e ∈ es → e_from e ∈ tp ∧ e_to e ∈ tp.
Hypothesis acyclic : ¬ cyclic es.

(** With enough depth every chain of edges to the target is listed. *)
Lemma suffixes_complete u chain :
  walk es u chain t →
  ∀ (fuel j : nat), tp !! j = Some u → (length tp ≤ j + fuel)%nat →
  (e_to <$> chain, sumZ (e_weight <$> chain)) ∈ suffixes fuel es t u.
Proof.
  induction 1 as [u|e chain v He Hw IH]; intros fuel j Hj Hfuel.
  - destruct fuel as [|f]; [apply lookup_lt_Some in Hj; lia|].
    rewrite suffixes_S, decide_True by done. left.
  - destruct fuel as [|f]; [apply lookup_lt_Some in Hj; lia|].
    rewrite suffixes_S. rewrite decide_False.
    + apply list_elem_of_bind. exists e. split; [|by apply elem_of_outgoing].
      destruct (next_place es tp tp_nodup tp_order tp_closed j e He Hj)
        as (j' & Hj' & Hlt).
      apply list_elem_of_fmap.
      exists (e_to <$> chain, sumZ (e_weight <$> chain)). split; [done|].
      apply (IH f j'); [done|lia].
    + intros Heq. apply acyclic. exists v. rewrite <- Heq at 1.
      apply (walk_last es _ (e :: chain)); [by constructor|done].
Qed.

(** What [dfs] adds to [res]: each suffix after the prefix it was given. *)
Lemma dfs_paths fuel : ∀ u cost res path (j : nat),
  tp !! j = Some u → (length tp ≤ j + fuel)%nat →
  dfs fuel g t u cost (res, path) =
  Ok (res ++ ((λ pc, (path ++ pc.1, cost + pc.2)) <$> suffixes fuel es t u), path).
Proof.
  induction fuel as [|f IH]; intros u cost res path j Hj Hfuel.
  - apply lookup_lt_Some in Hj. lia.
  - rewrite dfs_S, suffixes_S. destruct (decide (u = t)) as [Heq|Hne].
    + simpl. by rewrite app_nil_r, Z.add_0_r.
    + rewrite g_adj. unfold adj_list.
      assert (Hnext : ∀ e, e ∈ outgoing es u →
                ∃ j' : nat, tp !! j' = Some (e_to e) ∧ (length tp ≤ j' + f)%nat).
      { intros e [He Hfrom]%elem_of_outgoing.
        destruct (next_place es tp tp_nodup tp_order tp_closed j e He)
          as (j' & Hj' & Hlt); [by rewrite Hfrom|].
        exists j'. split; [done|lia]. }
      revert Hnext. generalize (outgoing es u) as l. intros l. revert res.
      induction l as [|e l IHl]; intros res Hnext.
      * simpl. by rewrite app_nil_r.
      * rewrite fmap_cons, bind_cons, fmap_app, app_assoc. cbn [for_each].
        destruct (Hnext e) as (j' & Hj' & Hf'); [left|].
        simpl. rewrite (IH (e_to e) (cost + e_weight e) res (path ++ [e_to e]) j' Hj' Hf').
        simpl. rewrite pop_snoc. simpl.
        rewrite IHl by (intros; apply Hnext; by right).
        do 3 f_equal.
        rewrite <- list_fmap_compose. f_equal. apply fmap_ext_in. intros pc _. simpl.
        by rewrite <- app_assoc, Z.add_assoc.
Qed.

End PathList.

(** [enumerate_paths] returns the list of the paths from the source. *)
Lemma enumerate_paths_list es source g t :
  dag_ok es source g →
  ∀ fuel, (size (vertices g) ≤ fuel)%nat →
    enumerate_paths fuel g t =
    Ok ((λ pc, (source :: pc.1, pc.2)) <$> suffixes (length (topo g)) es t source).
Proof.
  intros Hok fuel Hfuel.
  pose proof (dag_ok_src_in _ _ _ Hok) as [j Hj]%list_elem_of_lookup.
  pose proof (dfs_paths g es (topo g) t (ok_adj _ _ _ Hok) (ok_topo_nodup _ _ _ Hok)
                (ok_topo_order _ _ _ Hok) (dag_ok_closed _ _ _ Hok)
                (length (topo g)) source 0 [] [source] j Hj ltac:(lia)) as Hd.
  unfold enumerate_paths. rewrite (ok_src _ _ _ Hok).
  rewrite (dfs_mono_le g t (length (topo g)) fuel _ _ _ _
             ltac:(rewrite (dag_ok_length _ _ _ Hok); lia) Hd).
  simpl. done.
Qed.

Lemma fmap_bind_list {A B C : Type} (h : B → C) (f : A → list B) (l : list A) :
  h <$> (l ≫= f) = l ≫= (λ x, h <$> f x).
Proof.
  induction l as [|x l IH]; [done|]. by rewrite !bind_cons, fmap_app, IH.
Qed.

Lemma NoDup_fmap_eq {A B : Type} (f : A → B) (l : list A) x y :
  NoDup (f <$> l) → x ∈ l → y ∈ l → f x = f y → x = y.
Proof.
  induction l as [|a l IH]; intros Hnd Hx Hy Heq; [by apply elem_of_nil in Hx|].
  rewrite fmap_cons in Hnd. apply NoDup_cons in Hnd as [Ha Hnd].
  apply elem_of_cons in Hx as [->|Hx], Hy as [->|Hy]; [done| | |by apply IH].
  - destruct Ha. rewrite Heq. by apply list_elem_of_fmap_2.
  - destruct Ha. rewrite <- Heq. by apply list_elem_of_fmap_2.
Qed.

(** Without two edges between the same ordered pair of vertices no sequence
    of vertices is listed twice. *)
Lemma suffixes_NoDup E t fuel :
  NoDup ((λ e, (e_from e, e_to e)) <$> E) →
  ∀ u, NoDup (fst <$> suffixes fuel E t u).
Proof.
  intros Hpairs. induction fuel as [|f IH]; intros u; [constructor|].
  rewrite suffixes_S. destruct (decide (u = t)); [apply NoDup_singleton|].
  rewrite fmap_bind_list. apply NoDup_bind.
  - intros e1 e2 y [He1 Hf1]%elem_of_outgoing [He2 Hf2]%elem_of_outgoing Hy1 Hy2.
    rewrite <- list_fmap_compose in Hy1, Hy2.
    apply list_elem_of_fmap in Hy1 as (pc1 & -> & _).
    apply list_elem_of_fmap in Hy2 as (pc2 & [= Hto _] & _).
    apply (NoDup_fmap_eq _ E _ _ Hpairs He1 He2). by rewrite Hf1, Hf2, Hto.
  - intros e _. rewrite <- list_fmap_compose.
    change (fst ∘ (λ pc : list Z * Z, (e_to e :: pc.1, e_weight e + pc.2)))
      with ((cons (e_to e)) ∘ (fst : list Z * Z → list Z)).
    rewrite list_fmap_compose. apply NoDup_fmap_2; [|apply IH].
    by intros ?? [= ?].
  - apply NoDup_filter. by apply NoDup_fmap_1 in Hpairs.
Qed.

(** X3.  On a constructed graph [enumerate_paths] lists exactly the chains
    of edges that lead from the source to the target, each as the sequence of
    its vertices with the sum of its weights. *)
Theorem X3_enumerated_are_paths es source g t :
  new_DAG es source = Ok g →
  ∃ res,
    (∀ fuel, (size (vertices g) ≤ fuel)%nat → enumerate_paths fuel g t = Ok res) ∧
    ∀ p c, (p, c) ∈ res ↔
      ∃ chain, walk es source chain t ∧
               p = source :: (e_to <$> chain) ∧ c = sumZ (e_weight <$> chain).
Proof.
  intros Hok%new_DAG_ok.
  eexists. split; [apply (enumerate_paths_list es source g t Hok)|].
  intros p c. rewrite list_elem_of_fmap. split.
  - intros (pc & [= -> ->] & Hpc).
    destruct (suffixes_sound _ _ _ _ _ Hpc) as (chain & Hw & H1 & H2).
    exists chain. by rewrite H1, H2.
  - intros (chain & Hw & -> & ->).
    exists (e_to <$> chain, sumZ (e_weight <$> chain)). split; [done|].
    pose proof (dag_ok_src_in _ _ _ Hok) as [j Hj]%list_elem_of_lookup.
    apply (suffixes_complete es (topo g) t (ok_topo_nodup _ _ _ Hok)
             (ok_topo_order _ _ _ Hok) (dag_ok_closed _ _ _ Hok)
             (ok_acyclic _ _ _ Hok) source chain Hw (length (topo g)) j Hj).
    lia.
Qed.

(** X4.  Every path that [enumerate_paths] lists starts at the source, ends
    at the target and passes no vertex twice. *)
Theorem X4_enumerated_are_simple es source g t :
  new_DAG es source = Ok g →
  ∃ res,
    (∀ fuel, (size (vertices g) ≤ fuel)%nat → enumerate_paths fuel g t = Ok res) ∧
    ∀ p c, (p, c) ∈ res →
      head p = Some source ∧ last p = Some t ∧ NoDup p.
Proof.
  intros Hok%new_DAG_ok.
  eexists. split; [apply (enumerate_paths_list es source g t Hok)|].
  intros p c (pc & [= -> ->] & Hpc)%list_elem_of_fmap.
  destruct (suffixes_sound _ _ _ _ _ Hpc) as (chain & Hw & -> & _).
  split_and!; [done|by eapply walk_ends|].
  eapply walk_NoDup; [apply (ok_acyclic _ _ _ Hok)|done].
Qed.

(** X5.  When no two edges join the same ordered pair of vertices,
    [enumerate_paths] lists no sequence of vertices twice. *)
Theorem X5_enumerated_are_distinct es source g t :
  new_DAG es source = Ok g →
  NoDup ((λ e, (e_from e, e_to e)) <$> es) →
  ∃ res,
    (∀ fuel, (size (vertices g) ≤ fuel)%nat → enumerate_paths fuel g t = Ok res) ∧
    NoDup (fst <$> res).
Proof.
  intros Hok%new_DAG_ok Hpairs.
  eexists. split; [apply (enumerate_paths_list es source g t Hok)|].
  rewrite <- list_fmap_compose.
  change (fst ∘ (λ pc : list Z * Z, (source :: pc.1, pc.2)))
    with ((cons source) ∘ (fst : list Z * Z → list Z)).
  rewrite list_fmap_compose. apply NoDup_fmap_2; [by intros ?? [= ?]|].
  by apply suffixes_NoDup.
Qed.

(** ** The proposal uses as few parents as possible *)

(** What the loop chooses is a beginning of the positive candidates, and the
    loop stops at the first total above [max_paths]. *)
Lemma choose_prefix m cands : ∀ t ch,
  t ≤ m →
  ∃ pk rest,
    positive cands = pk ++ rest ∧
    choose m cands t ch = (t + sumZ (snd <$> pk), ch ++ (fst <$> pk)) ∧
    ∀ k : nat, (k < length pk)%nat → t + sumZ (snd <$> take k pk) ≤ m.
Proof.
  induction cands as [|[u c] cands IH]; intros t ch Ht.
  - exists [], []. split_and!; [done| |simpl; lia].
    simpl. by rewrite Z.add_0_r, app_nil_r.
  - cbn [choose]. rewrite positive_cons. simpl.
    destruct (decide (c ≤ 0)).
    + rewrite (decide_False (P := 0 < c)) by lia. by apply IH.
    + rewrite (decide_True (P := 0 < c)) by lia.
      destruct (decide (t + c > m)).
      * exists [(u, c)], (positive cands). split_and!; [done| |].
        -- simpl. by rewrite Z.add_0_r.
        -- intros k Hk. simpl in Hk. replace k with 0%nat by lia. simpl. lia.
      * destruct (IH (t + c) (ch ++ [u])) as (pk & rest & Hpos & -> & Hpre); [lia|].
        exists ((u, c) :: pk), rest. split_and!.
        -- by rewrite Hpos.
        -- rewrite !fmap_cons, sumZ_cons, <- app_assoc. simpl. f_equal. lia.
        -- intros [|k] Hk; simpl in Hk; [simpl; lia|].
           rewrite firstn_cons, fmap_cons, sumZ_cons.
           pose proof (Hpre k ltac:(lia)). simpl. lia.
Qed.

Lemma desc_filter (P : Z * Z → Prop) `{∀ x, Decision (P x)} l :
  desc l → desc (filter P l).
Proof.
  unfold desc. induction l as [|x l IH]; intros Hs; [constructor|].
  apply StronglySorted_cons in Hs as [Hx Hs]. rewrite filter_cons.
  destruct (decide (P x)); [|by apply IH].
  apply StronglySorted_cons. split; [|by apply IH].
  apply Forall_forall. intros y [_ Hy]%list_elem_of_filter.
  by apply (proj1 (Forall_forall _ _) Hx).
Qed.

Lemma sumZ_app l1 l2 : sumZ (l1 ++ l2) = sumZ l1 + sumZ l2.
Proof.
  induction l1 as [|x l1 IH]; [done|].
  rewrite <- app_comm_cons, !sumZ_cons, IH. lia.
Qed.

(** In a list sorted downwards no choice of [n] elements sums to more than
    the first [n]. *)
Lemma desc_take_max l : ∀ S,
  desc l → S ⊆+ l →
  sumZ (snd <$> S) ≤ sumZ (snd <$> take (length S) l).
Proof.
  unfold desc. induction l as [|x l IH]; intros S Hs Hsub.
  - apply submseteq_nil_r in Hsub as ->. done.
  - apply StronglySorted_cons in Hs as [Hx Hs].
    apply submseteq_cons_r in Hsub as [Hsub|(S' & Hperm & Hsub)].
    + destruct S as [|y S]; [done|].
      pose proof (IH _ Hs Hsub) as Hle.
      pose proof (submseteq_length _ _ Hsub) as Hlen. simpl in Hlen.
      destruct (lookup_lt_is_Some_2 l (length S) ltac:(lia)) as [z Hz].
      change (length (y :: S)) with (Datatypes.S (length S)) in *.
      rewrite (take_S_r _ _ _ Hz), fmap_app, sumZ_app in Hle.
      rewrite fmap_cons, sumZ_cons in Hle.
      rewrite firstn_cons, !fmap_cons, !sumZ_cons.
      assert (z.2 ≤ x.2).
      { apply (proj1 (Forall_forall _ _) Hx). by eapply list_elem_of_lookup_2. }
      change (sumZ (snd <$> [z])) with (z.2 + 0) in Hle. lia.
    + rewrite Hperm. rewrite length_cons, firstn_cons, !fmap_cons, !sumZ_cons.
      pose proof (IH _ Hs Hsub). lia.
Qed.

Lemma sumZ_filter_pos (C : Z → Z) S :
  sumZ (C <$> S) ≤ sumZ (C <$> filter (λ u, 0 < C u) S).
Proof.
  induction S as [|u S IH]; [done|].
  rewrite filter_cons, fmap_cons, sumZ_cons.
  destruct (decide (0 < C u)); [rewrite fmap_cons, sumZ_cons|]; lia.
Qed.

(** X6.  When the proposal for [v] succeeds, no set of vertices that are not
    neighbors of [v] with counts summing above the count of [v] has fewer
    elements than the proposal has edges. *)
Theorem X6_fewest_parents es source g v w new_edges msg :
  new_DAG es source = Ok g →
  propose_vprime_insertion g v w = Ok (true, new_edges, msg) →
  ∃ cnt,
    path_counts g = Ok cnt ∧
    ∀ S, NoDup S →
         (∀ u, u ∈ S → u ∈ vertices g ∧ (u ∉ neighbors_of g v)) →
         sumZ (int_get cnt <$> S) > int_get cnt v →
         (length new_edges ≤ length S)%nat.
Proof.
  intros Hok%new_DAG_ok Hprop.
  destruct (counts_facts _ _ _ Hok) as (cnt & Hcnt & _ & Hnn & _).
  exists cnt. split; [done|]. intros S HndS HS Hsum.
  destruct (propose_cases es source g v w cnt Hok Hcnt)
    as (pk0 & m & _ & Hch & _ & _ & Hp).
  set (C := int_get cnt) in *.
  set (us := filter (λ u, u ∉ neighbors_of g v) (set_iter (vertices g))) in *.
  set (cands := sort_desc ((λ u, (u, C u)) <$> us)) in *.
  destruct (choose_prefix (C v) cands 0 [] (Hnn v)) as (pk & rest & Hpos & Hch' & Hpre).
  rewrite Hch in Hch'. injection Hch' as Htot Hfst. simpl in Hfst.
  rewrite Hprop in Hp.
  destruct (decide (sumZ (snd <$> pk0) ≤ C v)) as [|_]; [done|].
  injection Hp as -> _.
  rewrite !length_fmap.
  assert (Hlen : length pk0 = length pk).
  { by rewrite <- (length_fmap fst pk0), Hfst, length_fmap. }
  rewrite Hlen.
  set (Sp := filter (λ u, 0 < C u) S).
  assert (Hsub : (λ u, (u, C u)) <$> Sp ⊆+ positive cands).
  { apply NoDup_submseteq.
    - apply NoDup_fmap_2; [by intros ?? [= ?]|]. by apply NoDup_filter.
    - intros x (u & -> & [Hu HuS]%list_elem_of_filter)%list_elem_of_fmap.
      apply list_elem_of_filter. split; [done|].
      apply elem_of_cands. split; [|done]. simpl.
      apply list_elem_of_filter. destruct (HS u HuS). split; [done|].
      by apply set_iter_elem_of. }
  pose proof (desc_take_max (positive cands) _
                (desc_filter _ _ (sort_desc_sorted _)) Hsub) as Htop.
  rewrite <- list_fmap_compose, length_fmap in Htop. simpl in Htop.
  change (snd ∘ (λ u : Z, (u, C u))) with C in Htop.
  pose proof (sumZ_filter_pos C S) as Hfil. fold Sp in Hfil.
  pose proof (length_filter (λ u, 0 < C u) S) as HlenS. fold Sp in HlenS.
  destruct (decide (length Sp < length pk)%nat) as [Hlt|]; [|lia].
  rewrite Hpos, take_app_le in Htop by lia.
  pose proof (Hpre _ Hlt). lia.
Qed.

(** ** What does not depend on the order of iteration *)

Lemma for_each_ext {S A : Type} (b1 b2 : S → A → result S) (l : list A) :
  (∀ s x, b1 s x = b2 s x) → ∀ s, for_each b1 l s = for_each b2 l s.
Proof.
  intros Hb. induction l as [|x l IH]; intros s; [done|].
  cbn [for_each]. rewrite Hb. destruct (b2 s x); simpl; auto.
Qed.

(** [dfs] reads the graph through its adjacency map only. *)
Lemma dfs_adj_ext g1 g2 t fuel :
  adj g1 = adj g2 →
  ∀ u cost st, dfs fuel g1 t u cost st = dfs fuel g2 t u cost st.
Proof.
  intros Ha. induction fuel as [|f IH]; intros u cost st; [done|].
  rewrite !dfs_S, Ha. destruct (decide (u = t)); [done|].
  apply for_each_ext. intros s x. by rewrite IH.
Qed.

#[local] Instance Z_ge_antisymm : AntiSymm (=) (λ a b : Z, b ≤ a).
Proof. intros a b ??. lia. Qed.

(** The counts of the sorted candidates, in their order, are fixed by the
    candidates alone, whatever order they came in. *)
Lemma sorted_counts_unique l1 l2 :
  l1 ≡ₚ l2 → snd <$> sort_desc l1 = snd <$> sort_desc l2.
Proof.
  intros Hp. apply (StronglySorted_unique (λ a b : Z, b ≤ a)).
  - apply (StronglySorted_fmap snd (λ a b : Z * Z, b.2 ≤ a.2));
      [|apply sort_desc_sorted].
    by intros ???.
  - apply (StronglySorted_fmap snd (λ a b : Z * Z, b.2 ≤ a.2));
      [|apply sort_desc_sorted].
    by intros ???.
  - by rewrite !sort_desc_perm, Hp.
Qed.

(** The total and the number of chosen parents follow from the counts. *)
Lemma choose_same_counts m : ∀ c1 c2 t ch1 ch2,
  snd <$> c1 = snd <$> c2 → length ch1 = length ch2 →
  (choose m c1 t ch1).1 = (choose m c2 t ch2).1 ∧
  length (choose m c1 t ch1).2 = length (choose m c2 t ch2).2.
Proof.
  induction c1 as [|[u1 c] c1 IH]; intros [|[u2 c'] c2] t ch1 ch2 Hc Hlen;
    try done.
  rewrite !fmap_cons in Hc. injection Hc as Hc Hc'. simpl in Hc. subst c'.
  cbn [choose]. destruct (decide (c ≤ 0)); [by apply IH|].
  destruct (decide (t + c > m)).
  - simpl. by rewrite !length_app, Hlen.
  - apply IH; [done|]. by rewrite !length_app, Hlen.
Qed.

(** ** What the constructor stores, and the counts *)

(** X9.  The constructed graph keeps the edge list and the source; its
    adjacency list of [u] holds destination and weight of the edges that
    leave [u], in the order of the edge list, its reverse adjacency list of
    [v] origin and weight of those that arrive at [v]; its vertices are the
    source and the ends of the edges. *)
Theorem X9_constructor_fields es source g :
  new_DAG es source = Ok g →
  edges g = es ∧ src g = source ∧
  (∀ u, dd_get (adj g) u = (λ e, (e_to e, e_weight e)) <$> outgoing es u) ∧
  (∀ v, dd_get (rev_adj g) v = (λ e, (e_from e, e_weight e)) <$> incoming es v) ∧
  (∀ u v w, (v, w) ∈ dd_get (adj g) u ↔ (u, w) ∈ dd_get (rev_adj g) v) ∧
  (∀ x, x ∈ vertices g ↔
        x = source ∨ ∃ u v w, (u, v, w) ∈ es ∧ (x = u ∨ x = v)).
Proof.
  intros Hok%new_DAG_ok. split_and!.
  - apply (ok_edges _ _ _ Hok).
  - apply (ok_src _ _ _ Hok).
  - apply (ok_adj _ _ _ Hok).
  - apply (ok_rev_adj _ _ _ Hok).
  - intros u v w. rewrite (ok_adj _ _ _ Hok), (ok_rev_adj _ _ _ Hok).
    unfold adj_list. rewrite !list_elem_of_fmap. split.
    + intros ([[a b] c] & [= -> ->] & [He Hf]%elem_of_outgoing).
      unfold e_from in Hf. simpl in *. subst a.
      exists (u, b, c). split; [done|]. by apply elem_of_incoming.
    + intros ([[a b] c] & [= -> ->] & [He Hf]%elem_of_incoming).
      unfold e_to in Hf. simpl in *. subst b.
      exists (a, v, c). split; [done|]. by apply elem_of_outgoing.
  - intros x. rewrite (ok_vertices _ _ _ Hok). split.
    + intros [->|([[u v] w] & He & Hx)]; [by left|]. right. by exists u, v, w.
    + intros [->|(u & v & w & He & Hx)]; [by left|]. right. by exists (u, v, w).
Qed.

(** X10.  On a constructed graph [path_counts] raises nothing; the keys of
    the dictionary it returns are the vertices, and no count is negative. *)
Theorem X10_counts_domain es source g :
  new_DAG es source = Ok g →
  ∃ cnt,
    path_counts g = Ok cnt ∧ dom cnt = vertices g ∧
    ∀ v x, cnt !! v = Some x → 0 ≤ x.
Proof.
  intros Hok%new_DAG_ok.
  destruct (counts_facts _ _ _ Hok) as (cnt & Hcnt & Hkeys & Hnn & _).
  exists cnt. split_and!; [done| |].
  - apply set_eq. intros k. by rewrite elem_of_dom.
  - intros v x Hx. pose proof (Hnn v) as H. unfold int_get in H. by rewrite Hx in H.
Qed.

(** X11.  On a constructed graph the count does not decrease along an edge. *)
Theorem X11_counts_monotone es source g u v w :
  new_DAG es source = Ok g → (u, v, w) ∈ es →
  ∃ cnt cu cv,
    path_counts g = Ok cnt ∧ cnt !! u = Some cu ∧ cnt !! v = Some cv ∧ cu ≤ cv.
Proof.
  intros Hok%new_DAG_ok He.
  destruct (counts_facts _ _ _ Hok) as (cnt & Hcnt & Hkeys & Hnn & Hrec & _).
  exists cnt, (int_get cnt u), (int_get cnt v). split_and!; [done| | |].
  - apply int_get_lookup, Hkeys, (ok_vertices _ _ _ Hok). right. eexists. split; [done|by left].
  - apply int_get_lookup, Hkeys, (ok_vertices _ _ _ Hok). right. eexists. split; [done|by right].
  - apply (count_edge_le es source (int_get cnt) Hnn Hrec (u, v, w) He).
Qed.


(** ** Text *)

Lemma sapp_cons c s t : String c s +:+ t = String c (s +:+ t).
Proof. done. Qed.

Lemma sapp_nil_l s : "" +:+ s = s.
Proof. done. Qed.

Lemma sapp_nil_r s : s +:+ "" = s.
Proof. induction s as [|c s IH]; [done|]. by rewrite sapp_cons, IH. Qed.

Lemma sapp_assoc a b c : (a +:+ b) +:+ c = a +:+ (b +:+ c).
Proof. induction a as [|x a IH]; [done|]. by rewrite !sapp_cons, IH. Qed.

Lemma sall_app P a b : sall P (a +:+ b) = sall P a && sall P b.
Proof.
  induction a as [|x a IH]; [done|].
  rewrite sapp_cons. simpl. by rewrite IH, andb_assoc.
Qed.

Lemma sall_impl (P Q : ascii → bool) s :
  (∀ c, P c = true → Q c = true) → sall P s = true → sall Q s = true.
Proof.
  intros H. induction s as [|c s IH]; [done|]. simpl.
  intros [Hc Hs]%andb_true_iff. by rewrite (H c Hc), IH.
Qed.

Lemma digit_not_space c :
  py_isdigit c = true → py_isspace c = false ∧ int_isspace c = false.
Proof.
  unfold py_isdigit, py_isspace, int_isspace.
  intros [H1%N.leb_le H2%N.leb_le]%andb_true_iff.
  split; apply bool_decide_eq_false; rewrite !elem_of_cons, elem_of_nil; lia.
Qed.

Lemma pretty_N_char_digit (d : N) :
  (d < 10)%N →
  py_isdigit (pretty_N_char d) = true ∧ digit_val (pretty_N_char d) = Z.of_N d.
Proof.
  intros Hd.
  assert (d = 0 ∨ d = 1 ∨ d = 2 ∨ d = 3 ∨ d = 4 ∨ d = 5 ∨ d = 6 ∨ d = 7 ∨
          d = 8 ∨ d = 9)%N as Hc by lia.
  repeat (destruct Hc as [->|Hc]; [done|]). by subst.
Qed.

(** The digits of [x] are put in front of what was there. *)
Lemma pretty_N_go_app (x : N) : ∀ s, pretty_N_go x s = pretty_N_go x "" +:+ s.
Proof.
  induction (N.lt_wf_0 x) as [x _ IH]. intros s.
  destruct (decide (x = 0)%N) as [->|Hx]; [done|].
  rewrite !(pretty_N_go_step x) by lia.
  rewrite (IH (x `div` 10)%N) by (apply N.div_lt; lia).
  rewrite (IH (x `div` 10)%N ltac:(apply N.div_lt; lia) (String _ "")).
  by rewrite sapp_assoc.
Qed.

Lemma pretty_N_go_digits (x : N) : sall py_isdigit (pretty_N_go x "") = true.
Proof.
  induction (N.lt_wf_0 x) as [x _ IH].
  destruct (decide (x = 0)%N) as [->|Hx]; [done|].
  rewrite pretty_N_go_step, pretty_N_go_app, sall_app by lia.
  rewrite IH by (apply N.div_lt; lia). simpl.
  destruct (pretty_N_char_digit (x `mod` 10)%N) as [-> _]; [|done].
  apply N.mod_lt. lia.
Qed.

Lemma pretty_N_go_nonempty (x : N) : (0 < x)%N → pretty_N_go x "" ≠ "".
Proof.
  intros Hx. rewrite pretty_N_go_step, pretty_N_go_app by done.
  by destruct (pretty_N_go _ "").
Qed.

(** Reading the digits of [x] gives [x]. *)
Lemma int_digits_pretty (x : N) : ∀ s,
  (0 < x)%N →
  int_digits (pretty_N_go x s) 0 false = int_digits s (Z.of_N x) true.
Proof.
  induction (N.lt_wf_0 x) as [x _ IH]. intros s Hx.
  rewrite pretty_N_go_step by done.
  destruct (pretty_N_char_digit (x `mod` 10)%N) as [Hd Hv]; [apply N.mod_lt; lia|].
  pose proof (N.div_mod x 10 ltac:(lia)) as Hdm.
  pose proof (N.div_lt x 10 Hx ltac:(lia)) as Hlt.
  set (q := (x `div` 10)%N) in *. set (r := (x `mod` 10)%N) in *.
  destruct (decide (q = 0)%N) as [H0|H0].
  - rewrite H0, pretty_N_go_0. simpl. rewrite Hd, Hv. f_equal. lia.
  - rewrite IH by lia. simpl. rewrite Hd, Hv. f_equal. lia.
Qed.

(** The text of an integer: a "-" or nothing, and then digits. *)
Lemma str_int_shape (n : Z) :
  ∃ sign digs,
    str_int n = sign +:+ digs ∧ (sign = "" ∨ sign = "-") ∧
    digs ≠ "" ∧ sall py_isdigit digs = true ∧
    int_digits digs 0 false = Ok (Z.abs n) ∧ (sign = "-" ↔ n < 0).
Proof.
  destruct n as [|p|p].
  - exists "", "0". split_and!; try done; by left.
  - exists "", (pretty_N_go (N.pos p) ""). split_and!.
    + done.
    + by left.
    + by apply pretty_N_go_nonempty.
    + apply pretty_N_go_digits.
    + by rewrite int_digits_pretty.
    + split; [done|lia].
  - exists "-", (pretty_N_go (N.pos p) ""). split_and!.
    + done.
    + by right.
    + by apply pretty_N_go_nonempty.
    + apply pretty_N_go_digits.
    + by rewrite int_digits_pretty.
    + split; [lia|done].
Qed.

Lemma lstrip_none sp s : sall (λ c, negb (sp c)) s = true → lstrip_with sp s = s.
Proof. destruct s as [|c s]; [done|]. simpl. by intros [->%negb_true_iff _]%andb_true_iff. Qed.

Lemma rstrip_none sp s : sall (λ c, negb (sp c)) s = true → rstrip_with sp s = s.
Proof.
  induction s as [|c s IH]; [done|]. simpl.
  intros [Hc%negb_true_iff Hs]%andb_true_iff. rewrite IH, Hc by done.
  by destruct s.
Qed.

Lemma rstrip_snoc sp s c :
  sp c = false → rstrip_with sp (s +:+ String c "") = s +:+ String c "".
Proof.
  intros Hc. induction s as [|x s IH]; [rewrite sapp_nil_l; simpl; by rewrite Hc|].
  rewrite sapp_cons. simpl. rewrite IH. by destruct s.
Qed.

(** [int] reads back what [str] writes. *)
Lemma py_int_str (n : Z) : py_int (str_int n) = Ok n.
Proof.
  destruct (str_int_shape n) as (sign & digs & Hs & Hsign & Hne & Hd & Hv & Hneg).
  assert (Hnsp : sall (λ c, negb (int_isspace c)) (str_int n) = true).
  { rewrite Hs, sall_app.
    rewrite (sall_impl py_isdigit (λ c, negb (int_isspace c)) digs); [|intros c Hc|done].
    - by destruct Hsign as [->| ->].
    - by destruct (digit_not_space c Hc) as [_ ->]. }
  unfold py_int. rewrite lstrip_none, rstrip_none by done. rewrite Hs.
  destruct Hsign as [->| ->].
  - rewrite sapp_nil_l. destruct digs as [|c r]; [done|]. simpl in Hd.
    apply andb_true_iff in Hd as [Hc _]. cbv beta iota.
    assert (Ascii.eqb c "-" = false ∧ Ascii.eqb c "+" = false) as [-> ->].
    { split; apply Ascii.eqb_neq; intros ->; done. }
    rewrite Hv. f_equal. destruct (decide (n < 0)) as [Hn|Hn]; [|lia].
    by apply Hneg in Hn.
  - rewrite sapp_cons, sapp_nil_l. cbv beta iota.
    change (Ascii.eqb "-" "-") with true. cbv iota.
    rewrite Hv. simpl. f_equal. assert (n < 0) by (by apply Hneg). lia.
Qed.
(** ** The matches of the pattern *)

Lemma findall_cons_digit c s st :
  py_isdigit c = true →
  findall (String c s) st = findall s (Num (tok_of st +:+ String c "")).
Proof. intros Hc. simpl. rewrite Hc. by destruct st. Qed.

Lemma findall_cons_other c s st :
  py_isdigit c = false →
  findall (String c s) st =
  emit st ++ findall s (if Ascii.eqb c "-" then Minus else Idle).
Proof. intros Hc. simpl. rewrite Hc. by destruct st. Qed.

Lemma findall_digits d : ∀ rest st,
  sall py_isdigit d = true → d ≠ "" →
  findall (d +:+ rest) st = findall rest (Num (tok_of st +:+ d)).
Proof.
  induction d as [|c d IH]; [done|]. intros rest st Hd _.
  simpl in Hd. apply andb_true_iff in Hd as [Hc Hd].
  rewrite sapp_cons, findall_cons_digit by done.
  destruct (decide (d = "")) as [->|Hne]; [done|].
  rewrite IH by done. simpl tok_of. by rewrite sapp_assoc.
Qed.

Lemma separator_cons c s :
  separator (String c s) = true →
  py_isdigit c = false ∧
  (s = "" ∧ Ascii.eqb c "-" = false ∨ s ≠ "" ∧ separator s = true).
Proof.
  unfold separator. simpl.
  intros [[Hc%negb_true_iff Hs]%andb_true_iff He%negb_true_iff]%andb_true_iff.
  split; [done|]. destruct s as [|c' s']; [by left|right].
  split; [done|]. by rewrite Hs, He.
Qed.

Lemma findall_sep sep : ∀ rest st,
  separator sep = true → sep ≠ "" →
  findall (sep +:+ rest) st = emit st ++ findall rest Idle.
Proof.
  induction sep as [|c sep IH]; [done|]. intros rest st Hsep _.
  apply separator_cons in Hsep as [Hc Hsep].
  rewrite sapp_cons, findall_cons_other by done.
  destruct Hsep as [[-> ->]|[Hne Hsep]]; [done|].
  rewrite IH by done. by destruct (Ascii.eqb c "-").
Qed.

Lemma findall_sep_idle sep rest :
  separator sep = true → findall (sep +:+ rest) Idle = findall rest Idle.
Proof.
  intros Hsep. destruct (decide (sep = "")) as [->|Hne]; [done|].
  by rewrite findall_sep.
Qed.

Lemma findall_end s : ∀ st,
  sall (λ c, negb (py_isdigit c)) s = true → findall s st = emit st.
Proof.
  induction s as [|c s IH]; intros st Hs; [by destruct st|].
  simpl in Hs. apply andb_true_iff in Hs as [Hc%negb_true_iff Hs].
  rewrite findall_cons_other, IH by done.
  destruct (Ascii.eqb c "-"); simpl; by rewrite app_nil_r.
Qed.

Lemma findall_number n rest :
  findall (str_int n +:+ rest) Idle = findall rest (Num (str_int n)).
Proof.
  destruct (str_int_shape n) as (sign & digs & -> & Hsign & Hne & Hd & _).
  rewrite sapp_assoc. destruct Hsign as [->| ->].
  - rewrite !sapp_nil_l. by rewrite findall_digits.
  - rewrite !sapp_cons, !sapp_nil_l, findall_cons_other by done.
    by rewrite findall_digits.
Qed.

Lemma findall_written line e :
  written line e →
  findall line Idle = [str_int e.1.1; str_int e.1.2; str_int e.2].
Proof.
  intros (s0 & s1 & s2 & s3 & -> & H0 & H1 & N1 & H2 & N2 & H3).
  rewrite findall_sep_idle, findall_number by done.
  rewrite findall_sep, findall_number by done.
  rewrite findall_sep, findall_number by done.
  by rewrite findall_end.
Qed.

(** Leading and trailing text without digits and without "-" adds no match. *)
Lemma findall_lstrip sp s :
  (∀ c, sp c = true → py_isdigit c = false ∧ Ascii.eqb c "-" = false) →
  findall (lstrip_with sp s) Idle = findall s Idle.
Proof.
  intros Hsp. induction s as [|c s IH]; [done|]. simpl lstrip_with.
  destruct (sp c) eqn:Hc; [|done].
  destruct (Hsp c Hc) as [Hd Hm]. by rewrite IH, findall_cons_other, Hm.
Qed.

Lemma rstrip_split sp s :
  ∃ ws, s = rstrip_with sp s +:+ ws ∧ sall sp ws = true.
Proof.
  induction s as [|c s (ws & Hs & Hws)]; [by exists ""|].
  simpl. destruct (rstrip_with sp s) as [|c' r] eqn:Hr.
  - destruct (sp c) eqn:Hc.
    + exists (String c ws). rewrite sapp_nil_l in *. subst s.
      split; [done|]. simpl. by rewrite Hc.
    + exists ws. by rewrite sapp_cons, sapp_nil_l, Hs at 1.
  - exists ws. split; [|done]. by rewrite sapp_cons, <- Hs.
Qed.

Lemma findall_app_end s ws : ∀ st,
  sall (λ c, negb (py_isdigit c)) ws = true →
  findall (s +:+ ws) st = findall s st.
Proof.
  induction s as [|c s IH]; intros st Hws.
  - rewrite sapp_nil_l, findall_end by done. by destruct st.
  - rewrite sapp_cons. destruct (py_isdigit c) eqn:Hc.
    + by rewrite !findall_cons_digit, IH.
    + by rewrite !findall_cons_other, IH.
Qed.

Lemma space_not_digit c :
  py_isspace c = true → py_isdigit c = false ∧ Ascii.eqb c "-" = false.
Proof.
  intros Hc. split.
  - destruct (py_isdigit c) eqn:Hd; [|done].
    destruct (digit_not_space c Hd) as [Hs _]. congruence.
  - apply Ascii.eqb_neq. by intros ->.
Qed.

(** [strip] does not change what the pattern matches. *)
Lemma findall_strip s : findall (strip s) Idle = findall s Idle.
Proof.
  unfold strip. rewrite <- (findall_lstrip py_isspace s) by apply space_not_digit.
  destruct (rstrip_split py_isspace (lstrip_with py_isspace s)) as (ws & Hs & Hws).
  rewrite Hs at 2. rewrite findall_app_end; [done|].
  eapply sall_impl; [|exact Hws].
  intros c Hc. by destruct (space_not_digit c Hc) as [-> _].
Qed.

(** Every match is a numeral. *)
Lemma findall_numerals s : ∀ st,
  (∀ tok, st = Num tok → numeral tok) →
  Forall numeral (findall s st).
Proof.
  induction s as [|c s IH]; intros st Hst.
  - destruct st; simpl; auto.
  - destruct (py_isdigit c) eqn:Hc.
    + rewrite findall_cons_digit by done. apply IH.
      intros tok [= <-]. destruct st as [| |t]; simpl.
      * exists "", (String c ""). split_and!; [done|by left|done|simpl; by rewrite Hc].
      * exists "-", (String c ""). split_and!; [done|by right|done|simpl; by rewrite Hc].
      * destruct (Hst t eq_refl) as (sign & digs & -> & Hsign & Hne & Hd).
        exists sign, (digs +:+ String c ""). split_and!; [by rewrite sapp_assoc|done| |].
        -- by destruct digs.
        -- rewrite sall_app, Hd. simpl. by rewrite Hc.
    + rewrite findall_cons_other by done. apply Forall_app. split.
      * destruct st; simpl; auto.
      * apply IH. by destruct (Ascii.eqb c "-").
Qed.

Lemma int_digits_total d : ∀ acc b,
  sall py_isdigit d = true → d ≠ "" ∨ b = true →
  ∃ z, int_digits d acc b = Ok z.
Proof.
  induction d as [|c d IH]; intros acc b Hd Hb.
  - destruct Hb as [?| ->]; [done|]. by eexists.
  - simpl in Hd. apply andb_true_iff in Hd as [Hc Hd].
    simpl. rewrite Hc. apply IH; auto.
Qed.

(** [int] accepts every numeral. *)
Lemma py_int_numeral t : numeral t → ∃ z, py_int t = Ok z.
Proof.
  intros (sign & digs & -> & Hsign & Hne & Hd).
  destruct (int_digits_total digs 0 false Hd (or_introl Hne)) as [z Hz].
  assert (Hnsp : sall (λ c, negb (int_isspace c)) (sign +:+ digs) = true).
  { rewrite sall_app.
    rewrite (sall_impl py_isdigit (λ c, negb (int_isspace c)) digs); [|intros c Hc|done].
    - by destruct Hsign as [->| ->].
    - by destruct (digit_not_space c Hc) as [_ ->]. }
  unfold py_int. rewrite lstrip_none, rstrip_none by done.
  destruct Hsign as [->| ->].
  - rewrite sapp_nil_l. destruct digs as [|c r]; [done|]. simpl in Hd.
    apply andb_true_iff in Hd as [Hc _]. cbv beta iota.
    assert (Ascii.eqb c "-" = false ∧ Ascii.eqb c "+" = false) as [-> ->].
    { split; apply Ascii.eqb_neq; intros ->; done. }
    by exists z.
  - rewrite sapp_cons, sapp_nil_l. cbv beta iota.
    change (Ascii.eqb "-" "-") with true. cbv iota.
    rewrite Hz. by eexists.
Qed.

Lemma parse_edge_line_written line e : written line e → parse_edge_line line = Ok e.
Proof.
  intros Hw. unfold parse_edge_line. rewrite (findall_written line e Hw).
  rewrite !py_int_str. by destruct e as [[u v] w].
Qed.

Lemma parse_edge_line_cases line :
  (length (findall line Idle) = 3%nat ∧ ∃ e, parse_edge_line line = Ok e) ∨
  (length (findall line Idle) ≠ 3%nat ∧ parse_edge_line line = Raise ValueError).
Proof.
  unfold parse_edge_line.
  pose proof (findall_numerals line Idle ltac:(done)) as Hall.
  destruct (findall line Idle) as [|a [|b [|c [|d l]]]]; try (right; by split).
  left. split; [done|].
  apply Forall_cons in Hall as [(u & ->)%py_int_numeral Hall].
  apply Forall_cons in Hall as [(v & ->)%py_int_numeral Hall].
  apply Forall_cons in Hall as [(w & ->)%py_int_numeral _].
  by eexists.
Qed.

Lemma parse_edge_line_strip line : parse_edge_line (strip line) = parse_edge_line line.
Proof. unfold parse_edge_line. by rewrite findall_strip. Qed.
(** ** Stripping *)

Lemma lstrip_all sp s : sall sp s = true → lstrip_with sp s = "".
Proof.
  induction s as [|c s IH]; [done|]. simpl.
  intros [-> Hs]%andb_true_iff. auto.
Qed.

Lemma lstrip_app sp pre s :
  sall sp pre = true → lstrip_with sp (pre +:+ s) = lstrip_with sp s.
Proof.
  induction pre as [|c pre IH]; [done|]. simpl.
  intros [Hc Hs]%andb_true_iff. rewrite Hc. auto.
Qed.

Lemma lstrip_split sp s : ∃ ws, s = ws +:+ lstrip_with sp s ∧ sall sp ws = true.
Proof.
  induction s as [|c s (ws & Hs & Hws)]; [by exists ""|]. simpl.
  destruct (sp c) eqn:Hc.
  - exists (String c ws). rewrite sapp_cons, <- Hs. split; [done|]. simpl.
    by rewrite Hc.
  - by exists "".
Qed.

Lemma rstrip_empty sp s : rstrip_with sp s = "" → sall sp s = true.
Proof.
  induction s as [|c s IH]; [done|]. simpl.
  destruct (rstrip_with sp s); [|done].
  destruct (sp c); [|done]. auto.
Qed.

Lemma rstrip_all sp s : sall sp s = true → rstrip_with sp s = "".
Proof.
  induction s as [|c s IH]; [done|]. simpl.
  intros [-> Hs]%andb_true_iff. by rewrite IH.
Qed.

Lemma rstrip_app sp s post :
  sall sp post = true → rstrip_with sp (s +:+ post) = rstrip_with sp s.
Proof.
  intros Hp. induction s as [|c s IH].
  - rewrite sapp_nil_l. by apply rstrip_all.
  - rewrite sapp_cons. simpl. by rewrite IH.
Qed.

Lemma strip_blank s : sall py_isspace s = true → strip s = "".
Proof. intros Hs. unfold strip. by rewrite lstrip_all. Qed.

Lemma strip_not_blank s : sall py_isspace s = false → strip s ≠ "".
Proof.
  intros Hs Hst. unfold strip in Hst. apply rstrip_empty in Hst.
  destruct (lstrip_split py_isspace s) as (ws & Heq & Hws).
  rewrite Heq, sall_app, Hws, Hst in Hs. done.
Qed.

Lemma str_int_no_space n : sall (λ c, negb (py_isspace c)) (str_int n) = true.
Proof.
  destruct (str_int_shape n) as (sign & digs & -> & Hsign & _ & Hd & _).
  rewrite sall_app.
  rewrite (sall_impl py_isdigit (λ c, negb (py_isspace c)) digs); [|intros c Hc|done].
  - by destruct Hsign as [->| ->].
  - by destruct (digit_not_space c Hc) as [-> _].
Qed.

(** White space around a number is stripped, and nothing else. *)
Lemma strip_padded pre post n :
  sall py_isspace pre = true → sall py_isspace post = true →
  strip (pre +:+ str_int n +:+ post) = str_int n.
Proof.
  intros Hpre Hpost. unfold strip. rewrite lstrip_app by done.
  pose proof (str_int_no_space n) as Hn.
  assert (lstrip_with py_isspace (str_int n +:+ post) = str_int n +:+ post) as ->.
  { destruct (str_int_shape n) as (sign & digs & Hs & Hsign & Hne & _).
    destruct (str_int n) as [|c r].
    - destruct Hsign as [->| ->]; [by destruct digs|done].
    - simpl in Hn. apply andb_true_iff in Hn as [Hc%negb_true_iff _].
      rewrite sapp_cons. simpl. by rewrite Hc. }
  rewrite rstrip_app by done. by apply rstrip_none.
Qed.

(** ** [leer_grafo_desde_stdin] *)

Lemma written_not_blank line e : written line e → strip line ≠ "".
Proof.
  intros Hw Hs. pose proof (findall_strip line) as H.
  by rewrite Hs, (findall_written line e Hw) in H.
Qed.

Lemma read_edges_line s rest acc e :
  strip s ≠ "" → parse_edge_line s = Ok e →
  read_edges (Line s :: rest) acc = read_edges rest (acc ++ [e]).
Proof.
  intros Hne Hp. rewrite <- parse_edge_line_strip in Hp. cbn [read_edges].
  destruct (strip s) as [|c r]; [done|]. by rewrite Hp.
Qed.

Lemma read_edges_written lines es :
  Forall2 written lines es →
  ∀ tail acc,
    read_edges ((Line <$> lines) ++ tail) acc = read_edges tail (acc ++ es).
Proof.
  induction 1 as [|line e lines es Hw _ IH]; intros tail acc.
  - by rewrite app_nil_r.
  - rewrite fmap_cons, <- app_comm_cons.
    rewrite (read_edges_line line _ acc e);
      [|by eapply written_not_blank|by apply parse_edge_line_written].
    by rewrite IH, <- app_assoc.
Qed.

Lemma read_edges_stop stop rest acc :
  ends_edges stop → read_edges (stop :: rest) acc = (Ok acc, rest).
Proof.
  destruct stop as [s|]; [|done]. cbn [read_edges ends_edges]. intros Hs.
  by rewrite strip_blank.
Qed.

Lemma read_edges_bad bad rest acc :
  sall py_isspace bad = false → length (findall bad Idle) ≠ 3%nat →
  read_edges (Line bad :: rest) acc = (Raise ValueError, rest).
Proof.
  intros Hb Hn. cbn [read_edges].
  destruct (parse_edge_line_cases bad) as [[? _]|[_ Hp]]; [done|].
  rewrite <- parse_edge_line_strip in Hp.
  apply strip_not_blank in Hb. destruct (strip bad); [done|]. by rewrite Hp.
Qed.

(** X13.  A line of at most 4300 characters that holds three numbers in
    decimal, with text before, between and after them that has no digit and
    no "-" right before a number, is read as the edge of those numbers,
    whatever else the text is. *)
Theorem X13_parse_edge_line_reads line e :
  short line → written line e → parse_edge_line line = Ok e.
Proof. intros _. apply parse_edge_line_written. Qed.

(** X14.  On a line of at most 4300 characters [_parse_edge_line] raises
    [ValueError] when the pattern does not match exactly three times, and
    only then: [int] accepts every match. *)
Theorem X14_parse_edge_line_raises line :
  short line →
  (length (findall line Idle) = 3%nat → ∃ e, parse_edge_line line = Ok e) ∧
  (length (findall line Idle) ≠ 3%nat → parse_edge_line line = Raise ValueError).
Proof.
  intros _. destruct (parse_edge_line_cases line) as [[Hl He]|[Hl He]]; by split.
Qed.

(** Lines of edges, what closes them and a line with the source are read as
    the edges and the source. *)
Lemma leer_reads lines es stop pre post source rest out :
  Forall2 written lines es → ends_edges stop →
  sall py_isspace pre = true → sall py_isspace post = true →
  leer_grafo_desde_stdin
    (mkWorld ((Line <$> lines) ++
              stop :: Line (pre +:+ str_int source +:+ post) :: rest) out) =
  (Done (es, source),
   mkWorld rest (out ++ [Introduce_aristas; Deja_una_linea; Source_vertex])).
Proof.
  intros Hw Hstop Hpre Hpost.
  unfold leer_grafo_desde_stdin, mbind, io_bind, print, input, lift. simpl.
  rewrite (read_edges_written lines es Hw), read_edges_stop by done. simpl.
  rewrite strip_padded, py_int_str by done.
  by rewrite <- !app_assoc.
Qed.

(** X15.  When the input holds lines with one edge each, then a blank line
    or an end of input, then a line with the source and white space around
    it, the function returns the edges in their order and the source, has
    read up to that line and not further, and has written its two lines and
    the prompt.  (No line has more than 4300 characters.) *)
Theorem X15_leer_reads lines es stop pre post source rest out :
  Forall2 written lines es → Forall short lines → ends_edges stop →
  sall py_isspace pre = true → sall py_isspace post = true →
  short (pre +:+ str_int source +:+ post) →
  leer_grafo_desde_stdin
    (mkWorld ((Line <$> lines) ++
              stop :: Line (pre +:+ str_int source +:+ post) :: rest) out) =
  (Done (es, source),
   mkWorld rest (out ++ [Introduce_aristas; Deja_una_linea; Source_vertex])).
Proof. intros Hw _ Hstop Hpre Hpost _. by apply leer_reads. Qed.

(** X16.  When the input ends before a line with the source, right after the
    lines of the edges or after what closes them, [EOFError] is raised, once
    the prompt has been written.  (No line has more than 4300 characters.) *)
Theorem X16_leer_end_of_input lines es tail out :
  Forall2 written lines es → Forall short lines →
  tail = [] ∨ (∃ stop, tail = [stop] ∧ ends_edges stop) →
  leer_grafo_desde_stdin (mkWorld ((Line <$> lines) ++ tail) out) =
  (Failed EOFError,
   mkWorld [] (out ++ [Introduce_aristas; Deja_una_linea; Source_vertex])).
Proof.
  intros Hw _ Htail.
  unfold leer_grafo_desde_stdin, mbind, io_bind, print, input, lift. simpl.
  rewrite (read_edges_written lines es Hw).
  destruct Htail as [->|(stop & -> & Hstop)].
  - simpl. by rewrite <- !app_assoc.
  - rewrite read_edges_stop by done. simpl. by rewrite <- !app_assoc.
Qed.

(** X17.  After lines with one edge each, a line that is not blank and on
    which the pattern does not match three times makes the function raise
    [ValueError]: the lines after it are not read and the prompt is not
    written.  (No line before it has more than 4300 characters.) *)
Theorem X17_leer_bad_line lines es bad rest out :
  Forall2 written lines es → Forall short lines →
  sall py_isspace bad = false → length (findall bad Idle) ≠ 3%nat →
  leer_grafo_desde_stdin (mkWorld ((Line <$> lines) ++ Line bad :: rest) out) =
  (Failed (Exn ValueError),
   mkWorld rest (out ++ [Introduce_aristas; Deja_una_linea])).
Proof.
  intros Hw _ Hb Hn.
  unfold leer_grafo_desde_stdin, mbind, io_bind, print, input, lift. simpl.
  rewrite (read_edges_written lines es Hw), read_edges_bad by done. simpl.
  by rewrite <- !app_assoc.
Qed.

(** ** Running a computation that reads and writes *)

Lemma bind_lift_Ok {A B : Type} (r : result A) (a : A) (f : A → io B) w :
  r = Ok a → (lift r ≫= f) w = f a w.
Proof. by intros ->. Qed.

Lemma bind_lift_Raise {A B : Type} (r : result A) e (f : A → io B) w :
  r = Raise e → (lift r ≫= f) w = (Failed (Exn e), w).
Proof. by intros ->. Qed.

Lemma bind_print {B : Type} (p : printed) (f : unit → io B) w :
  (print p ≫= f) w = f () (mkWorld (stdin w) (stdout w ++ [p])).
Proof. done. Qed.

Lemma for_print_spec {A : Type} (item : A → printed) (l : list A) : ∀ w,
  for_print item l w = (Done (), mkWorld (stdin w) (stdout w ++ (item <$> l))).
Proof.
  induction l as [|x l IH]; intros w.
  - destruct w as [i o]. simpl. by rewrite app_nil_r.
  - cbn [for_print]. rewrite bind_print, IH. simpl. by rewrite <- app_assoc.
Qed.

Lemma bind_for_print {A B : Type} (item : A → printed) l (f : unit → io B) w :
  (for_print item l ≫= f) w =
  f () (mkWorld (stdin w) (stdout w ++ (item <$> l))).
Proof. unfold mbind, io_bind. by rewrite for_print_spec. Qed.

(** ** [solve_and_print] *)

Lemma max_key_from_spec cnt : ∀ keys best,
  (∀ k, k ∈ keys → is_Some (cnt !! k)) →
  ∃ m, max_key_from cnt best (int_get cnt best) keys = Ok m ∧
       m ∈ best :: keys ∧
       ∀ x, x ∈ best :: keys → int_get cnt x ≤ int_get cnt m.
Proof.
  induction keys as [|x keys IH]; intros best Hk.
  - exists best. split_and!; [done|left|].
    intros y ->%list_elem_of_singleton. lia.
  - assert (dict_get cnt x = Ok (int_get cnt x)) as Hx.
    { unfold dict_get. by rewrite (int_get_lookup cnt x) by (apply Hk; left). }
    cbn [max_key_from]. rewrite Hx. simpl.
    assert (Hk' : ∀ k, k ∈ keys → is_Some (cnt !! k)) by (intros k ?; apply Hk; by right).
    destruct (decide (int_get cnt x > int_get cnt best)) as [Hgt|Hle].
    + destruct (IH x Hk') as (m & Hm & Hin & Hmax). exists m. split_and!; [done| |].
      * right. done.
      * intros y [->|Hy]%elem_of_cons; [|by apply Hmax].
        pose proof (Hmax x ltac:(left)). lia.
    + destruct (IH best Hk') as (m & Hm & Hin & Hmax). exists m. split_and!; [done| |].
      * apply elem_of_cons in Hin as [->|Hin]; [left|by right; right].
      * intros y [->|[->|Hy]%elem_of_cons]%elem_of_cons.
        -- apply Hmax. left.
        -- pose proof (Hmax best ltac:(left)). lia.
        -- apply Hmax. by right.
Qed.

Lemma max_key_spec cnt keys :
  keys ≠ [] → (∀ k, k ∈ keys → is_Some (cnt !! k)) →
  ∃ m, max_key cnt keys = Ok m ∧ m ∈ keys ∧
       ∀ x, x ∈ keys → int_get cnt x ≤ int_get cnt m.
Proof.
  destruct keys as [|x keys]; [done|]. intros _ Hk.
  assert (dict_get cnt x = Ok (int_get cnt x)) as Hx.
  { unfold dict_get. by rewrite (int_get_lookup cnt x) by (apply Hk; left). }
  cbn [max_key]. rewrite Hx. simpl. apply max_key_from_spec.
  intros k ?. apply Hk. by right.
Qed.

Lemma insert_path_perm x l : insert_path x l ≡ₚ x :: l.
Proof.
  induction l as [|y l IH]; [done|]. simpl.
  destruct (decide (x.2 < y.2)); [|done]. rewrite IH. apply perm_swap.
Qed.

Lemma sorted_paths_perm l : sorted_paths l ≡ₚ l.
Proof.
  induction l as [|x l IH]; [done|]. simpl. by rewrite insert_path_perm, IH.
Qed.

Lemma insert_path_sorted x l :
  StronglySorted (λ a b : list Z * Z, b.2 ≤ a.2) l →
  StronglySorted (λ a b : list Z * Z, b.2 ≤ a.2) (insert_path x l).
Proof.
  induction l as [|y l IH]; intros Hs; simpl.
  - by repeat constructor.
  - apply StronglySorted_cons in Hs as [Hy Hs].
    destruct (decide (x.2 < y.2)) as [Hlt|Hge].
    + apply StronglySorted_cons. split; [|by apply IH].
      rewrite insert_path_perm. constructor; [lia|done].
    + apply StronglySorted_cons. split; [|by apply StronglySorted_cons].
      constructor; [lia|]. eapply Forall_impl; [done|]. simpl. intros; lia.
Qed.

Lemma sorted_paths_sorted l :
  StronglySorted (λ a b : list Z * Z, b.2 ≤ a.2) (sorted_paths l).
Proof.
  induction l as [|x l IH]; [constructor|]. by apply insert_path_sorted.
Qed.

(** A successful proposal for a vertex of greatest count has two edges at
    least: the vertex itself does not suffice. *)
Lemma proposal_two_edges es source g v w cnt new_edges msg :
  dag_ok es source g → path_counts g = Ok cnt →
  propose_vprime_insertion g v w = Ok (true, new_edges, msg) →
  (∀ x, x ∈ vertices g → int_get cnt x ≤ int_get cnt v) →
  (2 ≤ length new_edges)%nat.
Proof.
  intros Hok Hcnt Hprop Hbest.
  destruct (counts_facts _ _ _ Hok) as (cnt' & Hcnt' & _ & Hnn & _).
  rewrite Hcnt in Hcnt'. injection Hcnt' as <-.
  destruct (propose_success _ _ _ _ _ _ _ _ Hok Hcnt Hprop)
    as (parents & m & _ & _ & -> & _ & Hpar & Hsum).
  rewrite length_fmap.
  destruct parents as [|p [|q parents]]; simpl; [|  |lia].
  - simpl in Hsum. pose proof (Hnn v). lia.
  - destruct (Hpar p) as (Hp & _); [left|]. apply Hbest in Hp.
    rewrite fmap_cons, sumZ_cons in Hsum. simpl in Hsum. lia.
Qed.

(** What [solve_and_print] writes for a graph without a cycle. *)
Lemma solve_and_print_report es source g fuel :
  new_DAG es source = Ok g → (size (vertices g) ≤ fuel)%nat →
  ∃ cnt most_v paths tail,
    path_counts g = Ok cnt ∧
    enumerate_paths fuel g most_v = Ok paths ∧
    most_v ∈ vertices g ∧
    (∀ x, x ∈ vertices g → int_get cnt x ≤ int_get cnt most_v) ∧
    1 ≤ int_get cnt most_v ∧
    Z.of_nat (length paths) = int_get cnt most_v ∧
    report_end most_v (int_get cnt most_v) tail ∧
    ∀ w, solve_and_print fuel es source w =
      (Done (),
       mkWorld (stdin w)
         (stdout w ++
          Mas_alcanzable source most_v (int_get cnt most_v) ::
          Caminos_a most_v ::
          ((λ pc, Camino pc.1 pc.2) <$> sorted_paths paths) ++ tail)).
Proof.
  intros Hnew Hfuel. pose proof (new_DAG_ok _ _ _ Hnew) as Hok.
  destruct (counts_facts _ _ _ Hok) as (cnt & Hcnt & Hkeys & Hnn & _ & Hsrc & _).
  assert (Hs : source ∈ vertices g) by (apply (ok_vertices _ _ _ Hok); by left).
  destruct (max_key_spec cnt (set_iter (vertices g)))
    as (mv & Hmv & Hin%set_iter_elem_of & Hmax).
  { by apply (set_iter_nonempty _ source). }
  { intros k Hk%set_iter_elem_of. by apply Hkeys. }
  assert (Hbest : ∀ x, x ∈ vertices g → int_get cnt x ≤ int_get cnt mv).
  { intros x Hx. by apply Hmax, set_iter_elem_of. }
  assert (Hn : dict_get cnt mv = Ok (int_get cnt mv)).
  { unfold dict_get. by rewrite (int_get_lookup cnt mv) by (by apply Hkeys). }
  destruct (enumerate_paths_ok es source g mv Hok) as (paths & Hen & Hlen).
  rewrite (npaths_count es source g cnt mv Hok Hcnt Hin) in Hlen.
  destruct (propose_vprime_insertion g mv 0) as [[[ok new_edges] msg]| |] eqn:Hprop.
  2,3: destruct (propose_cases es source g mv 0 cnt Hok Hcnt)
         as (pk & m & _ & _ & _ & _ & Hp);
       rewrite Hprop in Hp; by destruct (decide _).
  assert (∃ tail,
    report_end mv (int_get cnt mv) tail ∧
    ∀ w', (if ok then
             print Insercion;; print (Mensaje msg);; print Nuevas_aristas;;
             for_print Arista new_edges
           else print (Error_3b msg)) w' =
          (Done (), mkWorld (stdin w') (stdout w' ++ tail))) as (tail & Htail & Hrun).
  { destruct (propose_cases es source g mv 0 cnt Hok Hcnt)
      as (pk & m & _ & _ & _ & _ & Hp).
    rewrite Hprop in Hp.
    destruct (decide (sumZ (snd <$> pk) ≤ int_get cnt mv)) as [Hle|Hgt].
    - injection Hp as -> -> ->. eexists. split.
      + left. eexists. split; [exact Hle|done].
      + done.
    - injection Hp as -> -> ->.
      pose proof (proposal_two_edges _ _ _ _ _ _ _ _ Hok Hcnt Hprop Hbest) as H2.
      eexists. split.
      + right. exists (m + 1), (fst <$> pk), (sumZ (snd <$> pk)).
        split_and!; [lia| |done]. by rewrite length_fmap in H2.
      + intros w'. rewrite !bind_print, for_print_spec. simpl.
        by rewrite <- !app_assoc. }
  exists cnt, mv, paths, tail. split_and!; try done.
  - by apply Hen.
  - pose proof (Hbest source Hs). lia.
  - intros w. unfold solve_and_print.
    rewrite (bind_lift_Ok _ _ _ _ Hnew). cbv beta.
    rewrite (bind_lift_Ok _ _ _ _ Hcnt). cbv beta.
    rewrite (bind_lift_Ok _ _ _ _ Hmv). cbv beta.
    rewrite (bind_lift_Ok _ _ _ _ Hn). cbv beta.
    rewrite bind_print.
    rewrite (bind_lift_Ok _ _ _ _ (Hen fuel Hfuel)). cbv beta.
    rewrite bind_print, bind_for_print.
    rewrite (bind_lift_Ok _ _ _ _ Hprop). cbv beta iota.
    rewrite Hrun. simpl. f_equal. f_equal.
    rewrite <- !app_assoc. simpl. done.
Qed.

(** X18.  For edges without a cycle [solve_and_print] raises nothing and
    writes, in this order: the vertex with the most paths from the source,
    which is a vertex that no other exceeds and has one path at least; one
    line for each path to it, as many as its count, by decreasing cost; and
    then either the error of the proposal, or the proposal with two new
    edges at least. *)
Theorem X18_solve_and_print_report es source g fuel w :
  new_DAG es source = Ok g → (size (vertices g) ≤ fuel)%nat →
  ∃ cnt most_v paths sorted tail,
    path_counts g = Ok cnt ∧
    enumerate_paths fuel g most_v = Ok paths ∧
    solve_and_print fuel es source w =
      (Done (),
       mkWorld (stdin w)
         (stdout w ++
          Mas_alcanzable source most_v (int_get cnt most_v) ::
          Caminos_a most_v ::
          ((λ pc, Camino pc.1 pc.2) <$> sorted) ++ tail)) ∧
    most_v ∈ vertices g ∧
    (∀ x, x ∈ vertices g → int_get cnt x ≤ int_get cnt most_v) ∧
    1 ≤ int_get cnt most_v ∧
    sorted ≡ₚ paths ∧
    StronglySorted (λ a b : list Z * Z, b.2 ≤ a.2) sorted ∧
    Z.of_nat (length sorted) = int_get cnt most_v ∧
    report_end most_v (int_get cnt most_v) tail.
Proof.
  intros Hnew Hfuel.
  destruct (solve_and_print_report es source g fuel Hnew Hfuel)
    as (cnt & mv & paths & tail & Hcnt & Hen & Hin & Hbest & Hone & Hlen & Htail & Hrun).
  exists cnt, mv, paths, (sorted_paths paths), tail. split_and!; try done.
  - apply sorted_paths_perm.
  - apply sorted_paths_sorted.
  - by rewrite sorted_paths_perm.
Qed.

Lemma solve_and_print_cycle es source fuel w :
  cyclic es → solve_and_print fuel es source w = (Failed (Exn ValueError), w).
Proof.
  intros Hc. unfold solve_and_print.
  destruct (new_DAG_cases es source) as [[_ Hn]|(g & _ & Hok)].
  - by rewrite (bind_lift_Raise _ _ _ _ Hn).
  - by destruct (ok_acyclic _ _ _ Hok).
Qed.

Lemma funcion_primada_reads lines es stop pre post source rest out fuel :
  Forall2 written lines es → ends_edges stop →
  sall py_isspace pre = true → sall py_isspace post = true →
  funcion_primada fuel
    (mkWorld ((Line <$> lines) ++
              stop :: Line (pre +:+ str_int source +:+ post) :: rest) out) =
  match solve_and_print fuel es source
          (mkWorld rest
             (out ++ [Introduce_aristas; Deja_una_linea; Source_vertex])) with
  | (Failed e, w') => print (Error e) w'
  | r => r
  end.
Proof.
  intros Hw Hstop Hpre Hpost.
  unfold funcion_primada, try_except. unfold mbind at 1, io_bind at 1.
  by rewrite (leer_reads lines es stop pre post source rest out Hw Hstop Hpre Hpost).
Qed.

(** X19.  When the edges typed in hold a cycle, the interactive function
    raises nothing: it writes the two lines, the prompt and the line of the
    error, a [ValueError], and returns; no part of the report is written.
    (No line has more than 4300 characters.) *)
Theorem X19_funcion_primada_cycle lines es stop pre post source rest out fuel :
  Forall2 written lines es → Forall short lines → ends_edges stop →
  sall py_isspace pre = true → sall py_isspace post = true →
  short (pre +:+ str_int source +:+ post) →
  cyclic es →
  funcion_primada fuel
    (mkWorld ((Line <$> lines) ++
              stop :: Line (pre +:+ str_int source +:+ post) :: rest) out) =
  (Done (),
   mkWorld rest
     (out ++ [Introduce_aristas; Deja_una_linea; Source_vertex;
              Error (Exn ValueError)])).
Proof.
  intros Hw _ Hstop Hpre Hpost _ Hc.
  rewrite (funcion_primada_reads lines es stop pre post source rest out fuel)
    by done.
  rewrite solve_and_print_cycle by done.
  unfold print. simpl. by rewrite <- !app_assoc.
Qed.

(** X20.  When the edges typed in hold no cycle, the interactive function
    writes the two lines, the prompt and then what [solve_and_print] writes
    for those edges and that source; it returns, and no line of an error is
    among what it writes.  (No line has more than 4300 characters.) *)
Theorem X20_funcion_primada_solves
    lines es stop pre post source rest out g fuel :
  Forall2 written lines es → Forall short lines → ends_edges stop →
  sall py_isspace pre = true → sall py_isspace post = true →
  short (pre +:+ str_int source +:+ post) →
  new_DAG es source = Ok g → (size (vertices g) ≤ fuel)%nat →
  ∃ report,
    solve_and_print fuel es source (mkWorld [] []) =
      (Done (), mkWorld [] report) ∧
    (∀ e, Error e ∉ report) ∧
    funcion_primada fuel
      (mkWorld ((Line <$> lines) ++
                stop :: Line (pre +:+ str_int source +:+ post) :: rest) out) =
    (Done (),
     mkWorld rest
       (out ++ [Introduce_aristas; Deja_una_linea; Source_vertex] ++ report)).
Proof.
  intros Hw _ Hstop Hpre Hpost _ Hnew Hfuel.
  destruct (solve_and_print_report es source g fuel Hnew Hfuel)
    as (cnt & mv & paths & tail & _ & _ & _ & _ & _ & _ & Htail & Hrun).
  eexists. split_and!; [apply Hrun| |].
  - intros e He. simpl in He.
    apply elem_of_cons in He as [?|He]; [done|].
    apply elem_of_cons in He as [?|He]; [done|].
    apply elem_of_app in He as [He|He].
    + apply list_elem_of_fmap in He as (? & ? & _). done.
    + destruct Htail as [(total & _ & ->)|(vp & ch & total & _ & _ & ->)].
      * by apply list_elem_of_singleton in He.
      * apply elem_of_app in He as [He|He].
        -- repeat (apply elem_of_cons in He as [?|He]; [done|]).
           by apply elem_of_nil in He.
        -- apply list_elem_of_fmap in He as (? & ? & _). done.
  - rewrite (funcion_primada_reads lines es stop pre post source rest out fuel)
      by done.
    rewrite Hrun. simpl. by rewrite <- !app_assoc.
Qed.

Lemma written_arista e : written (arista_line e) e.
Proof. exists "    {", ", ", ", ", "}". by split_and!. Qed.

(** X21.  The line that [solve_and_print] writes for a new edge, when it
    has at most 4300 characters, is read back by [_parse_edge_line] as that
    edge. *)
Theorem X21_printed_edge_is_read e :
  short (arista_line e) → parse_edge_line (arista_line e) = Ok e.
Proof. intros _. apply parse_edge_line_written, written_arista. Qed.

(** ** The order of the edges *)

Lemma edge_rel_perm es es' u v : es ≡ₚ es' → edge_rel es u v → edge_rel es' u v.
Proof. intros Hp [w Hw]. exists w. by rewrite <- Hp. Qed.

Lemma cyclic_perm es es' : es ≡ₚ es' → cyclic es → cyclic es'.
Proof.
  intros Hp [v Hv]. exists v.
  apply (tc_congruence (R := edge_rel es) (λ x, x) (edge_rel es') v v); [|done].
  intros x y. by apply edge_rel_perm.
Qed.

(** X22.  The order of the edges in the edge list does not matter for what
    the graph is: a rearranged edge list is accepted when the original is,
    and it gives the same vertices, the same path counts and the same
    neighbors. *)
Theorem X22_edge_order_irrelevant es es' source g :
  es ≡ₚ es' → new_DAG es source = Ok g →
  ∃ g' cnt,
    new_DAG es' source = Ok g' ∧
    vertices g' = vertices g ∧
    path_counts g = Ok cnt ∧ path_counts g' = Ok cnt ∧
    ∀ v, neighbors_of g' v = neighbors_of g v.
Proof.
  intros Hp Hnew. pose proof (new_DAG_ok _ _ _ Hnew) as Hok.
  destruct (new_DAG_cases es' source) as [[Hc _]|(g' & Hnew' & Hok')].
  { destruct (ok_acyclic _ _ _ Hok). by apply (cyclic_perm es' es). }
  assert (Hv : vertices g' = vertices g).
  { apply set_eq. intros x.
    rewrite (ok_vertices _ _ _ Hok), (ok_vertices _ _ _ Hok').
    split; (intros [->|(e & He & Hx)]; [by left|right; exists e]).
    - by rewrite Hp.
    - by rewrite <- Hp. }
  destruct (counts_facts _ _ _ Hok) as (cnt & Hcnt & Hkeys & _ & Hrec & _).
  destruct (counts_facts _ _ _ Hok') as (cnt' & Hcnt' & Hkeys' & _ & Hrec' & _).
  assert (Heq : cnt' = cnt).
  { apply map_eq. intros k. destruct (decide (k ∈ vertices g)) as [Hk|Hk].
    - rewrite !int_get_lookup; [|by apply Hkeys|by apply Hkeys'; rewrite Hv].
      f_equal. apply (count_unique es source (topo g)).
      + apply (ok_topo_order _ _ _ Hok).
      + intros v _. rewrite (Hrec' v). f_equal.
        apply sumZ_perm, fmap_Permutation. unfold incoming. by rewrite Hp.
      + intros v _. apply Hrec.
      + by apply (ok_topo_elem _ _ _ Hok).
    - destruct (cnt !! k) eqn:H1; [destruct Hk; apply Hkeys; by eexists|].
      destruct (cnt' !! k) eqn:H2; [|done].
      destruct Hk. rewrite <- Hv. apply Hkeys'. by eexists. }
  subst cnt'. exists g', cnt. split_and!; try done.
  intros v. apply set_eq. intros u.
  rewrite (neighbors_of_spec _ _ _ _ _ Hok), (neighbors_of_spec _ _ _ _ _ Hok').
  split; (intros [Hne [H|H]]; (split; [done|])).
  - left. by apply (edge_rel_perm es' es).
  - right. by apply (edge_rel_perm es' es).
  - left. by apply (edge_rel_perm es es').
  - right. by apply (edge_rel_perm es es').
Qed.

(** X23.  An edge from a vertex to itself, or two edges that join two
    vertices in opposite directions, make the constructor raise
    [ValueError], whatever the other edges and the source are. *)
Theorem X23_loops_are_rejected es source :
  (∃ u w, (u, u, w) ∈ es) ∨
  (∃ u v w w', (u, v, w) ∈ es ∧ (v, u, w') ∈ es) →
  new_DAG es source = Raise ValueError.
Proof.
  intros H.
  destruct (new_DAG_cases es source) as [[_ Hn]|(g & _ & Hok)]; [done|].
  destruct (ok_acyclic _ _ _ Hok).
  destruct H as [(u & w & Hu)|(u & v & w & w' & Huv & Hvu)]; exists u.
  - apply tc_once. by exists w.
  - eapply tc_l; [by exists w|]. apply tc_once. by exists w'.
Qed.

End SetOrder.

(** ** The test suite, with the set iterated in the order of [elements] *)

Example test_path_counts_enunciado :
  path_counts elements (the_DAG elements enunciado 0) =
  Ok (list_to_map [(0, 1); (1, 1); (2, 1); (3, 3); (4, 2); (5, 1); (6, 1);
                   (7, 4); (8, 10)]).
Proof. vm_compute. reflexivity. Qed.

Example test_enumerate_paths_enunciado :
  enumerate_paths 9 (the_DAG elements enunciado 0) 8 =
  Ok [([0; 2; 3; 8], 3); ([0; 2; 4; 3; 8], 7); ([0; 2; 4; 8], 7);
      ([0; 2; 4; 7; 8], 10); ([0; 4; 3; 8], -1); ([0; 4; 8], -1);
      ([0; 4; 7; 8], 2); ([0; 5; 7; 8], 2); ([0; 5; 8], -2);
      ([0; 6; 7; 8], 13)].
Proof. vm_compute. reflexivity. Qed.

Example test_neighbors_of_V_enunciado :
  neighbors_of (the_DAG elements enunciado 0) 8 = list_to_set [3; 4; 5; 7].
Proof. vm_compute. reflexivity. Qed.

Example test_vprime_insertion_impossible :
  propose_vprime_insertion elements (the_DAG elements caso_fail_3b 0) 4 0 =
  Ok (false, [], Imposible 4 4 4).
Proof. vm_compute. reflexivity. Qed.

Example test_cycle_detection_raises :
  new_DAG elements ciclo 0 = Raise ValueError.
Proof. vm_compute. reflexivity. Qed.

(** ** The main theorems at concrete graphs *)

Lemma C1_witness :
  ∃ cnt res,
    path_counts elements (the_DAG elements enunciado 0) = Ok cnt ∧
    (∀ fuel, (size (vertices (the_DAG elements enunciado 0)) ≤ fuel)%nat →
       enumerate_paths fuel (the_DAG elements enunciado 0) 8 = Ok res) ∧
    cnt !! 8 = Some (Z.of_nat (length res)) ∧
    (res = [] ↔ ¬ reachable enunciado 0 8).
Proof.
  apply (C1_enumeration_matches_count elements (λ s, reflexivity _)
           enunciado 0).
  - vm_compute. reflexivity.
  - apply (bool_decide_unpack _). vm_compute. exact I.
Defined.

Lemma C2_witness :
  ∃ cnt,
    path_counts elements (the_DAG elements [(0, 1, 5); (0, 1, 7)] 0) = Ok cnt ∧
    (∀ e, e ∈ incoming [(0, 1, 5); (0, 1, 7)] 1 → is_Some (cnt !! e_from e)) ∧
    cnt !! 1 =
      Some (sumZ ((λ e, int_get cnt (e_from e)) <$>
                    incoming [(0, 1, 5); (0, 1, 7)] 1)).
Proof.
  apply (C2_count_recurrence elements (λ s, reflexivity _)
           [(0, 1, 5); (0, 1, 7)] 0).
  - vm_compute. reflexivity.
  - lia.
  - vm_compute. discriminate.
Defined.

Lemma C3_witness :
  ∃ cnt,
    path_counts elements (the_DAG elements [(1, 0, 3); (0, 2, 1)] 0) = Ok cnt ∧
    cnt !! 0 = Some 1 ∧
    ∀ v, v ∈ vertices (the_DAG elements [(1, 0, 3); (0, 2, 1)] 0) →
         ¬ reachable [(1, 0, 3); (0, 2, 1)] 0 v → cnt !! v = Some 0.
Proof.
  apply (C3_source_and_unreachable elements (λ s, reflexivity _)
           [(1, 0, 3); (0, 2, 1)] 0).
  vm_compute. reflexivity.
Defined.

Lemma C4_witness :
  (new_DAG elements enunciado 0 = Raise ValueError ↔ cyclic enunciado) ∧
  ((∃ g, new_DAG elements enunciado 0 = Ok g) ↔ ¬ cyclic enunciado) ∧
  (∀ g, new_DAG elements enunciado 0 = Ok g →
     topo g ≡ₚ elements (vertices g) ∧
     ∀ u v w, (u, v, w) ∈ enunciado → precedes (topo g) u v) ∧
  new_DAG elements ciclo 0 = Raise ValueError.
Proof.
  apply (C4_cycle_detection elements (λ s, reflexivity _) enunciado 0).
Defined.

Lemma C5_witness :
  ∃ cnt ok new_edges msg,
    path_counts elements (the_DAG elements enunciado 0) = Ok cnt ∧
    propose_vprime_insertion elements (the_DAG elements enunciado 0) 8 0 =
      Ok (ok, new_edges, msg) ∧
    (ok = true ↔
       sumZ (int_get cnt <$>
               filter (λ u, (u ∉ neighbors_of (the_DAG elements enunciado 0) 8) ∧
                            0 < int_get cnt u)
                      (elements (vertices (the_DAG elements enunciado 0))))
       > int_get cnt 8) ∧
    (ok = false → new_edges = []).
Proof.
  apply (C5_feasibility elements (λ s, reflexivity _) enunciado 0).
  - vm_compute. reflexivity.
  - apply (bool_decide_unpack _). vm_compute. exact I.
Defined.

Lemma C6_witness :
  ∃ cnt parents m,
    path_counts elements (the_DAG elements enunciado 0) = Ok cnt ∧
    m ∈ vertices (the_DAG elements enunciado 0) ∧
    (∀ y, y ∈ vertices (the_DAG elements enunciado 0) → y ≤ m) ∧
    (∀ y, y ∈ vertices (the_DAG elements enunciado 0) → y < m + 1) ∧
    [(8, 9, 0); (6, 9, 0)] = (λ p, (p, m + 1, 0)) <$> parents ∧
    NoDup parents ∧
    (∀ p, p ∈ parents →
       p ∈ vertices (the_DAG elements enunciado 0) ∧
       (p ∉ neighbors_of (the_DAG elements enunciado 0) 8) ∧
       0 < int_get cnt p) ∧
    sumZ (int_get cnt <$> parents) > int_get cnt 8.
Proof.
  apply (C6_proposal_shape elements (λ s, reflexivity _) enunciado 0
           (the_DAG elements enunciado 0) 8 0 [(8, 9, 0); (6, 9, 0)]
           (Padres 9 [8; 6] 11 10)).
  - vm_compute. reflexivity.
  - apply (bool_decide_unpack _). vm_compute. exact I.
  - vm_compute. reflexivity.
Defined.

Lemma C7_witness :
  (8 ∉ neighbors_of (the_DAG elements enunciado 0) 8) ∧
  ∀ u, u ∈ neighbors_of (the_DAG elements enunciado 0) 8 ↔
       (∃ w, (u, 8, w) ∈ enunciado) ∨ (∃ w, (8, u, w) ∈ enunciado).
Proof.
  apply (C7_neighbors elements (λ s, reflexivity _) enunciado 0).
  vm_compute. reflexivity.
Defined.

Lemma C8_witness :
  ∃ g p msg,
    new_DAG elements enunciado 0 = Ok g ∧
    propose_vprime_insertion elements g 8 0 =
      Ok (true, [(8, 9, 0); (p, 9, 0)], msg) ∧
    (p = 0 ∨ p = 1 ∨ p = 2 ∨ p = 6).
Proof.
  apply (C8_enunciado_proposal elements (λ s, reflexivity _)).
Defined.

Lemma C9_witness :
  ∃ res, ∀ fuel,
    (size (vertices (the_DAG elements enunciado 0)) ≤ fuel)%nat →
    enumerate_paths fuel (the_DAG elements enunciado 0) 8 = Ok res.
Proof.
  apply (C9_enumeration_terminates elements (λ s, reflexivity _) enunciado 0).
  vm_compute. reflexivity.
Defined.

Lemma C10_witness :
  ∃ cnt p m msg,
    path_counts elements (the_DAG elements enunciado 0) = Ok cnt ∧
    propose_vprime_insertion elements (the_DAG elements enunciado 0) 42 7 =
      Ok (true, [(p, m + 1, 7)], msg) ∧
    m ∈ vertices (the_DAG elements enunciado 0) ∧
    (∀ y, y ∈ vertices (the_DAG elements enunciado 0) → y ≤ m) ∧
    p ∈ vertices (the_DAG elements enunciado 0) ∧
    (∀ y, y ∈ vertices (the_DAG elements enunciado 0) →
          int_get cnt y ≤ int_get cnt p) ∧
    neighbors_of (the_DAG elements enunciado 0) 42 = ∅ ∧
    cnt !! 42 = None ∧ cnt !! 0 = Some 1.
Proof.
  apply (C10_unknown_vertex elements (λ s, reflexivity _) enunciado 0).
  - vm_compute. reflexivity.
  - apply (bool_decide_unpack _). vm_compute. exact I.
Defined.

(** ** Two orders of iteration *)

Lemma iteration_order_facts
    (iter1 iter2 : gset Z → list Z)
    (Hiter1 : ∀ s, iter1 s ≡ₚ elements s)
    (Hiter2 : ∀ s, iter2 s ≡ₚ elements s) es source g1 :
  new_DAG iter1 es source = Ok g1 →
  ∃ g2 cnt,
    new_DAG iter2 es source = Ok g2 ∧
    adj g2 = adj g1 ∧ rev_adj g2 = rev_adj g1 ∧ vertices g2 = vertices g1 ∧
    path_counts iter1 g1 = Ok cnt ∧ path_counts iter2 g2 = Ok cnt ∧
    (∀ fuel t, enumerate_paths fuel g2 t = enumerate_paths fuel g1 t) ∧
    (∀ v, neighbors_of g2 v = neighbors_of g1 v).
Proof.
  intros Hg1. pose proof (new_DAG_ok iter1 Hiter1 _ _ _ Hg1) as Hok1.
  destruct (new_DAG_cases iter2 Hiter2 es source) as [[Hc _]|(g2 & Hg2 & Hok2)].
  { by destruct (ok_acyclic _ _ _ Hok1). }
  destruct (new_DAG_fields iter1 _ _ _ Hg1) as (_ & Hs1 & Hf1).
  destruct (new_DAG_fields iter2 _ _ _ Hg2) as (_ & Hs2 & Hf2).
  rewrite <- Hf1 in Hf2. injection Hf2 as Ha Hr Hv.
  destruct (counts_facts iter1 Hiter1 _ _ _ Hok1)
    as (cnt1 & Hcnt1 & Hkeys1 & _ & Hrec1 & _).
  destruct (counts_facts iter2 Hiter2 _ _ _ Hok2)
    as (cnt2 & Hcnt2 & Hkeys2 & _ & Hrec2 & _).
  assert (Heq : cnt2 = cnt1).
  { apply map_eq. intros k. destruct (decide (k ∈ vertices g1)) as [Hk|Hk].
    - rewrite !int_get_lookup; [|by apply Hkeys1|by apply Hkeys2; rewrite Hv].
      f_equal. apply (count_unique es source (topo g1)).
      + apply (ok_topo_order _ _ _ Hok1).
      + intros v _. apply Hrec2.
      + intros v _. apply Hrec1.
      + by apply (ok_topo_elem _ _ _ Hok1).
    - destruct (cnt1 !! k) eqn:H1; [destruct Hk; apply Hkeys1; by eexists|].
      destruct (cnt2 !! k) eqn:H2; [|done].
      destruct Hk. rewrite <- Hv. apply Hkeys2. by eexists. }
  subst cnt2. exists g2, cnt1. split_and!; try done.
  - intros fuel t. unfold enumerate_paths. rewrite Hs1, Hs2.
    by rewrite (dfs_adj_ext g2 g1 t fuel Ha).
  - intros v. unfold neighbors_of. by rewrite Ha, Hr.
Qed.

(** X7.  Whatever the order in which the vertex set is iterated, the same
    edge lists are accepted, and the adjacency maps, the vertex set, the
    path counts, the enumerated paths and the neighbors are the same; only
    the stored topological order may differ. *)
Theorem X7_iteration_order_irrelevant
    (iter1 iter2 : gset Z → list Z)
    (Hiter1 : ∀ s, iter1 s ≡ₚ elements s)
    (Hiter2 : ∀ s, iter2 s ≡ₚ elements s) es source g1 :
  new_DAG iter1 es source = Ok g1 →
  ∃ g2 cnt,
    new_DAG iter2 es source = Ok g2 ∧
    adj g2 = adj g1 ∧ rev_adj g2 = rev_adj g1 ∧ vertices g2 = vertices g1 ∧
    path_counts iter1 g1 = Ok cnt ∧ path_counts iter2 g2 = Ok cnt ∧
    (∀ fuel t, enumerate_paths fuel g2 t = enumerate_paths fuel g1 t) ∧
    (∀ v, neighbors_of g2 v = neighbors_of g1 v).
Proof. by apply iteration_order_facts. Qed.

(** X8.  Whatever the order in which the vertex set is iterated, the proposal
    for a vertex succeeds or fails alike and proposes the same number of
    edges; only which of several vertices of equal count become parents may
    differ. *)
Theorem X8_proposal_order_irrelevant
    (iter1 iter2 : gset Z → list Z)
    (Hiter1 : ∀ s, iter1 s ≡ₚ elements s)
    (Hiter2 : ∀ s, iter2 s ≡ₚ elements s) es source g1 g2 v w :
  new_DAG iter1 es source = Ok g1 →
  new_DAG iter2 es source = Ok g2 →
  ∃ ok edges1 edges2 msg1 msg2,
    propose_vprime_insertion iter1 g1 v w = Ok (ok, edges1, msg1) ∧
    propose_vprime_insertion iter2 g2 v w = Ok (ok, edges2, msg2) ∧
    length edges1 = length edges2.
Proof.
  intros Hg1 Hg2.
  destruct (iteration_order_facts iter1 iter2 Hiter1 Hiter2 es source g1 Hg1)
    as (g2' & cnt & Hg2' & Ha & Hr & Hv & Hcnt1 & Hcnt2 & _ & Hnb).
  rewrite Hg2 in Hg2'. injection Hg2' as <-.
  pose proof (new_DAG_ok iter1 Hiter1 _ _ _ Hg1) as Hok1.
  pose proof (new_DAG_ok iter2 Hiter2 _ _ _ Hg2) as Hok2.
  destruct (propose_cases iter1 Hiter1 es source g1 v w cnt Hok1 Hcnt1)
    as (pk1 & m1 & _ & Hch1 & _ & _ & Hp1).
  destruct (propose_cases iter2 Hiter2 es source g2 v w cnt Hok2 Hcnt2)
    as (pk2 & m2 & _ & Hch2 & _ & _ & Hp2).
  destruct (choose_same_counts (int_get cnt v)
      (sort_desc ((λ u, (u, int_get cnt u)) <$>
         filter (λ u, u ∉ neighbors_of g1 v) (iter1 (vertices g1))))
      (sort_desc ((λ u, (u, int_get cnt u)) <$>
         filter (λ u, u ∉ neighbors_of g2 v) (iter2 (vertices g2))))
      0 [] []) as [Htot Hlen]; [|done|].
  { apply sorted_counts_unique. by rewrite Hnb, Hv, Hiter1, Hiter2. }
  rewrite Hch1, Hch2 in Htot, Hlen. simpl in Htot, Hlen.
  rewrite !length_fmap in Hlen.
  rewrite Hp1, Hp2, Htot.
  destruct (decide (sumZ (snd <$> pk2) ≤ int_get cnt v)).
  - by eexists false, [], [], _, _.
  - eexists true, _, _, _, _. split_and!; [done|done|].
    by rewrite !length_fmap.
Qed.

(** ** The further theorems at concrete graphs *)

Lemma X1_witness :
  ∃ g' cnt cnt' vp,
    new_DAG elements (enunciado ++ [(8, 9, 0); (6, 9, 0)]) 0 = Ok g' ∧
    path_counts elements (the_DAG elements enunciado 0) = Ok cnt ∧
    path_counts elements g' = Ok cnt' ∧
    (∀ x, x ∈ vertices g' ↔
          x = vp ∨ x ∈ vertices (the_DAG elements enunciado 0)) ∧
    (vp ∉ vertices (the_DAG elements enunciado 0)) ∧
    (∀ x, x ∈ vertices (the_DAG elements enunciado 0) → cnt' !! x = cnt !! x) ∧
    (∃ n, cnt' !! vp = Some n ∧ n > int_get cnt 8) ∧
    ((∀ x, x ∈ vertices (the_DAG elements enunciado 0) →
           int_get cnt x ≤ int_get cnt 8) →
     ∀ x, x ∈ vertices g' → x ≠ vp → int_get cnt' x < int_get cnt' vp).
Proof.
  apply (X1_insertion_more_reachable elements (λ s, reflexivity _) enunciado 0
           (the_DAG elements enunciado 0) 8 0 [(8, 9, 0); (6, 9, 0)]
           (Padres 9 [8; 6] 11 10)).
  - vm_compute. reflexivity.
  - vm_compute. reflexivity.
Defined.

Lemma X2_witness :
  ∃ g' vp,
    new_DAG elements (enunciado ++ [(8, 9, 0); (6, 9, 0)]) 0 = Ok g' ∧
    (vp ∉ vertices (the_DAG elements enunciado 0)) ∧
    (∀ u, u ∈ neighbors_of g' vp ↔ ∃ w', (u, vp, w') ∈ [(8, 9, 0); (6, 9, 0)]) ∧
    (∀ u, u ∈ neighbors_of (the_DAG elements enunciado 0) 8 →
          u ∉ neighbors_of g' vp).
Proof.
  apply (X2_insertion_avoids_neighbors elements (λ s, reflexivity _) enunciado 0
           (the_DAG elements enunciado 0) 8 0 [(8, 9, 0); (6, 9, 0)]
           (Padres 9 [8; 6] 11 10)).
  - vm_compute. reflexivity.
  - vm_compute. reflexivity.
Defined.

Lemma X3_witness :
  ∃ res,
    (∀ fuel, (size (vertices (the_DAG elements enunciado 0)) ≤ fuel)%nat →
       enumerate_paths fuel (the_DAG elements enunciado 0) 8 = Ok res) ∧
    ∀ p c, (p, c) ∈ res ↔
      ∃ chain, walk enunciado 0 chain 8 ∧
               p = 0 :: (e_to <$> chain) ∧ c = sumZ (e_weight <$> chain).
Proof.
  apply (X3_enumerated_are_paths elements (λ s, reflexivity _) enunciado 0).
  vm_compute. reflexivity.
Defined.

Lemma X4_witness :
  ∃ res,
    (∀ fuel, (size (vertices (the_DAG elements enunciado 0)) ≤ fuel)%nat →
       enumerate_paths fuel (the_DAG elements enunciado 0) 8 = Ok res) ∧
    ∀ p c, (p, c) ∈ res → head p = Some 0 ∧ last p = Some 8 ∧ NoDup p.
Proof.
  apply (X4_enumerated_are_simple elements (λ s, reflexivity _) enunciado 0).
  vm_compute. reflexivity.
Defined.

Lemma X5_witness :
  ∃ res,
    (∀ fuel, (size (vertices (the_DAG elements enunciado 0)) ≤ fuel)%nat →
       enumerate_paths fuel (the_DAG elements enunciado 0) 8 = Ok res) ∧
    NoDup (fst <$> res).
Proof.
  apply (X5_enumerated_are_distinct elements (λ s, reflexivity _) enunciado 0).
  - vm_compute. reflexivity.
  - apply (bool_decide_unpack _). vm_compute. exact I.
Defined.

Lemma X6_witness :
  ∃ cnt,
    path_counts elements (the_DAG elements enunciado 0) = Ok cnt ∧
    ∀ S, NoDup S →
         (∀ u, u ∈ S → u ∈ vertices (the_DAG elements enunciado 0) ∧
                       (u ∉ neighbors_of (the_DAG elements enunciado 0) 8)) →
         sumZ (int_get cnt <$> S) > int_get cnt 8 →
         (length [(8, 9, 0); (6, 9, 0)] ≤ length S)%nat.
Proof.
  apply (X6_fewest_parents elements (λ s, reflexivity _) enunciado 0
           (the_DAG elements enunciado 0) 8 0 [(8, 9, 0); (6, 9, 0)]
           (Padres 9 [8; 6] 11 10)).
  - vm_compute. reflexivity.
  - vm_compute. reflexivity.
Defined.

Lemma X7_witness :
  ∃ g2 cnt,
    new_DAG (λ s, reverse (elements s)) enunciado 0 = Ok g2 ∧
    adj g2 = adj (the_DAG elements enunciado 0) ∧
    rev_adj g2 = rev_adj (the_DAG elements enunciado 0) ∧
    vertices g2 = vertices (the_DAG elements enunciado 0) ∧
    path_counts elements (the_DAG elements enunciado 0) = Ok cnt ∧
    path_counts (λ s, reverse (elements s)) g2 = Ok cnt ∧
    (∀ fuel t, enumerate_paths fuel g2 t =
               enumerate_paths fuel (the_DAG elements enunciado 0) t) ∧
    (∀ v, neighbors_of g2 v = neighbors_of (the_DAG elements enunciado 0) v).
Proof.
  apply (X7_iteration_order_irrelevant elements (λ s, reverse (elements s))
           (λ s, reflexivity _) (λ s, reverse_Permutation _) enunciado 0).
  vm_compute. reflexivity.
Defined.

Lemma X8_witness :
  ∃ ok edges1 edges2 msg1 msg2,
    propose_vprime_insertion elements (the_DAG elements enunciado 0) 8 0 =
      Ok (ok, edges1, msg1) ∧
    propose_vprime_insertion (λ s, reverse (elements s))
      (the_DAG (λ s, reverse (elements s)) enunciado 0) 8 0 =
      Ok (ok, edges2, msg2) ∧
    length edges1 = length edges2.
Proof.
  apply (X8_proposal_order_irrelevant elements (λ s, reverse (elements s))
           (λ s, reflexivity _) (λ s, reverse_Permutation _) enunciado 0).
  - vm_compute. reflexivity.
  - vm_compute. reflexivity.
Defined.

Lemma X9_witness :
  edges (the_DAG elements enunciado 0) = enunciado ∧
  src (the_DAG elements enunciado 0) = 0 ∧
  (∀ u, dd_get (adj (the_DAG elements enunciado 0)) u =
        (λ e, (e_to e, e_weight e)) <$> outgoing enunciado u) ∧
  (∀ v, dd_get (rev_adj (the_DAG elements enunciado 0)) v =
        (λ e, (e_from e, e_weight e)) <$> incoming enunciado v) ∧
  (∀ u v w, (v, w) ∈ dd_get (adj (the_DAG elements enunciado 0)) u ↔
            (u, w) ∈ dd_get (rev_adj (the_DAG elements enunciado 0)) v) ∧
  (∀ x, x ∈ vertices (the_DAG elements enunciado 0) ↔
        x = 0 ∨ ∃ u v w, (u, v, w) ∈ enunciado ∧ (x = u ∨ x = v)).
Proof.
  apply (X9_constructor_fields elements (λ s, reflexivity _) enunciado 0).
  vm_compute. reflexivity.
Defined.

Lemma X10_witness :
  ∃ cnt,
    path_counts elements (the_DAG elements enunciado 0) = Ok cnt ∧
    dom cnt = vertices (the_DAG elements enunciado 0) ∧
    ∀ v x, cnt !! v = Some x → 0 ≤ x.
Proof.
  apply (X10_counts_domain elements (λ s, reflexivity _) enunciado 0).
  vm_compute. reflexivity.
Defined.

Lemma X11_witness :
  ∃ cnt cu cv,
    path_counts elements (the_DAG elements enunciado 0) = Ok cnt ∧
    cnt !! 4 = Some cu ∧ cnt !! 3 = Some cv ∧ cu ≤ cv.
Proof.
  apply (X11_counts_monotone elements (λ s, reflexivity _) enunciado 0
           (the_DAG elements enunciado 0) 4 3 5).
  - vm_compute. reflexivity.
  - apply (bool_decide_unpack _). vm_compute. exact I.
Defined.


(** ** The theorems on text, input and output at concrete inputs *)

Lemma X13_witness : parse_edge_line "    {8, 9, 0}" = Ok (8, 9, 0).
Proof.
  apply (X13_parse_edge_line_reads "    {8, 9, 0}" (8, 9, 0)).
  - unfold short. simpl. lia.
  - exists "    {", ", ", ", ", "}". by split_and!.
Defined.

Lemma X14_witness :
  (length (findall "0 1" Idle) = 3%nat → ∃ e, parse_edge_line "0 1" = Ok e) ∧
  (length (findall "0 1" Idle) ≠ 3%nat → parse_edge_line "0 1" = Raise ValueError).
Proof. apply (X14_parse_edge_line_raises "0 1"). unfold short. simpl. lia. Defined.

Lemma X15_witness :
  leer_grafo_desde_stdin
    (mkWorld [Line "{0, 1, 2}"; Line "1 2 -3"; Line ""; Line " 0"; Line "x"] []) =
  (Done ([(0, 1, 2); (1, 2, -3)], 0),
   mkWorld [Line "x"] [Introduce_aristas; Deja_una_linea; Source_vertex]).
Proof.
  apply (X15_leer_reads ["{0, 1, 2}"; "1 2 -3"] [(0, 1, 2); (1, 2, -3)]
           (Line "") " " "" 0 [Line "x"] []).
  - repeat apply Forall2_cons_2; try apply Forall2_nil_2.
    + exists "{", ", ", ", ", "}". by split_and!.
    + exists "", " ", " ", "". by split_and!.
  - repeat apply Forall_cons_2; try apply Forall_nil_2; unfold short; simpl; lia.
  - done.
  - done.
  - done.
  - unfold short. simpl. lia.
Defined.

Lemma X16_witness :
  leer_grafo_desde_stdin (mkWorld [Line "{0, 1, 2}"; Eof] []) =
  (Failed EOFError,
   mkWorld [] [Introduce_aristas; Deja_una_linea; Source_vertex]).
Proof.
  apply (X16_leer_end_of_input ["{0, 1, 2}"] [(0, 1, 2)] [Eof] []).
  - apply Forall2_cons_2; [|apply Forall2_nil_2].
    exists "{", ", ", ", ", "}". by split_and!.
  - repeat apply Forall_cons_2; try apply Forall_nil_2; unfold short; simpl; lia.
  - right. by exists Eof.
Defined.

Lemma X17_witness :
  leer_grafo_desde_stdin
    (mkWorld [Line "{0, 1, 2}"; Line "1 2"; Line ""; Line "0"] []) =
  (Failed (Exn ValueError),
   mkWorld [Line ""; Line "0"] [Introduce_aristas; Deja_una_linea]).
Proof.
  apply (X17_leer_bad_line ["{0, 1, 2}"] [(0, 1, 2)] "1 2" [Line ""; Line "0"] []).
  - apply Forall2_cons_2; [|apply Forall2_nil_2].
    exists "{", ", ", ", ", "}". by split_and!.
  - repeat apply Forall_cons_2; try apply Forall_nil_2; unfold short; simpl; lia.
  - done.
  - by vm_compute.
Defined.

Lemma X18_witness :
  ∃ cnt most_v paths sorted tail,
    path_counts elements (the_DAG elements enunciado 0) = Ok cnt ∧
    enumerate_paths 9 (the_DAG elements enunciado 0) most_v = Ok paths ∧
    solve_and_print elements 9 enunciado 0 (mkWorld [] []) =
      (Done (),
       mkWorld []
         ([] ++
          Mas_alcanzable 0 most_v (int_get cnt most_v) ::
          Caminos_a most_v ::
          ((λ pc, Camino pc.1 pc.2) <$> sorted) ++ tail)) ∧
    most_v ∈ vertices (the_DAG elements enunciado 0) ∧
    (∀ x, x ∈ vertices (the_DAG elements enunciado 0) →
          int_get cnt x ≤ int_get cnt most_v) ∧
    1 ≤ int_get cnt most_v ∧
    sorted ≡ₚ paths ∧
    StronglySorted (λ a b : list Z * Z, b.2 ≤ a.2) sorted ∧
    Z.of_nat (length sorted) = int_get cnt most_v ∧
    report_end most_v (int_get cnt most_v) tail.
Proof.
  apply (X18_solve_and_print_report elements (λ s, reflexivity _) enunciado 0
           (the_DAG elements enunciado 0) 9 (mkWorld [] [])).
  - vm_compute. reflexivity.
  - vm_compute. lia.
Defined.

Lemma X19_witness :
  funcion_primada elements 0
    (mkWorld [Line "{0, 1, 1}"; Line "{1, 0, 1}"; Line ""; Line "0"] []) =
  (Done (),
   mkWorld []
     [Introduce_aristas; Deja_una_linea; Source_vertex; Error (Exn ValueError)]).
Proof.
  apply (X19_funcion_primada_cycle elements (λ s, reflexivity _)
           ["{0, 1, 1}"; "{1, 0, 1}"] ciclo (Line "") "" "" 0 [] [] 0%nat).
  - repeat apply Forall2_cons_2; try apply Forall2_nil_2.
    + exists "{", ", ", ", ", "}". by split_and!.
    + exists "{", ", ", ", ", "}". by split_and!.
  - repeat apply Forall_cons_2; try apply Forall_nil_2; unfold short; simpl; lia.
  - done.
  - done.
  - done.
  - unfold short. simpl. lia.
  - apply cyclic_ciclo.
Defined.

Lemma X20_witness :
  ∃ report,
    solve_and_print elements 3 [(0, 1, 1); (1, 2, 1); (0, 2, 5)] 0
      (mkWorld [] []) = (Done (), mkWorld [] report) ∧
    (∀ e, Error e ∉ report) ∧
    funcion_primada elements 3
      (mkWorld [Line "{0, 1, 1}"; Line "1 2 1"; Line "0 2 5"; Eof; Line " 0 ";
                Line "more"] []) =
    (Done (),
     mkWorld [Line "more"]
       ([] ++ [Introduce_aristas; Deja_una_linea; Source_vertex] ++ report)).
Proof.
  apply (X20_funcion_primada_solves elements (λ s, reflexivity _)
           ["{0, 1, 1}"; "1 2 1"; "0 2 5"] [(0, 1, 1); (1, 2, 1); (0, 2, 5)]
           Eof " " " " 0 [Line "more"] []
           (the_DAG elements [(0, 1, 1); (1, 2, 1); (0, 2, 5)] 0) 3%nat).
  - repeat apply Forall2_cons_2; try apply Forall2_nil_2.
    + exists "{", ", ", ", ", "}". by split_and!.
    + exists "", " ", " ", "". by split_and!.
    + exists "", " ", " ", "". by split_and!.
  - repeat apply Forall_cons_2; try apply Forall_nil_2; unfold short; simpl; lia.
  - done.
  - done.
  - done.
  - unfold short. simpl. lia.
  - vm_compute. reflexivity.
  - vm_compute. lia.
Defined.

Lemma X21_witness : parse_edge_line (arista_line (8, 9, 0)) = Ok (8, 9, 0).
Proof.
  apply (X21_printed_edge_is_read (8, 9, 0)). unfold short. vm_compute. lia.
Defined.

Lemma X22_witness :
  ∃ g' cnt,
    new_DAG elements (reverse enunciado) 0 = Ok g' ∧
    vertices g' = vertices (the_DAG elements enunciado 0) ∧
    path_counts elements (the_DAG elements enunciado 0) = Ok cnt ∧
    path_counts elements g' = Ok cnt ∧
    ∀ v, neighbors_of g' v = neighbors_of (the_DAG elements enunciado 0) v.
Proof.
  apply (X22_edge_order_irrelevant elements (λ s, reflexivity _)
           enunciado (reverse enunciado) 0).
  - symmetry. apply reverse_Permutation.
  - vm_compute. reflexivity.
Defined.

Lemma X23_witness : new_DAG elements ciclo 0 = Raise ValueError.
Proof.
  apply (X23_loops_are_rejected elements (λ s, reflexivity _) ciclo 0).
  right. exists 0, 1, 1, 1. unfold ciclo. split.
  - left.
  - right. left.
Defined.
